(** * Phononic band gaps: a shallow embedding of
    [sfepy/homogenization/coefs_phononic.py]

    Numbers are IEEE binary64 values ([float], the primitive floats), which
    is what [numpy.float64] computes with.  Index vectors are [int64].
    Python exceptions and the unbounded [while 1] loop of [find_zero] are
    made explicit in the result type [outcome]. *)

From Stdlib Require Import ZArith Floats Bool Lia.
From stdpp Require Import base option list strings gmap.

Set Warnings "-inexact-float".
Local Open Scope Z_scope.

(** ** Exceptions and results *)

Inductive exn : Type :=
| ValueError (msg : string)
| TypeError
| KeyError
| IndexError
| AttributeError
| UnboundLocalError.

Inductive outcome (A : Type) : Type :=
| Ret (a : A)
| Raise (e : exn)
| OutOfFuel.

Arguments Ret {A} a.
Arguments Raise {A} e.
Arguments OutOfFuel {A}.

#[global] Instance outcome_ret : MRet outcome := @Ret.
#[global] Instance outcome_bind : MBind outcome := λ A B f m,
  match m with
  | Ret a => f a
  | Raise e => Raise e
  | OutOfFuel => OutOfFuel
  end.

(** ** The parts of Python and numpy the module relies on *)

Module Py.

(** [l[i]] with Python's negative indices. *)
Definition getitem {A} (l : list A) (i : Z) : outcome A :=
  let j := if i <? 0 then Z.of_nat (length l) + i else i in
  if j <? 0 then Raise IndexError
  else match l !! Z.to_nat j with
       | Some x => Ret x
       | None => Raise IndexError
       end.

(** [l[a:b]] for non-negative bounds. *)
Definition slice {A} (l : list A) (a b : nat) : list A :=
  take (b - a) (drop a l).

(** [l.insert(i, x)] for a non-negative position. *)
Definition insert {A} (i : nat) (x : A) (l : list A) : list A :=
  take i l ++ x :: drop i l.

End Py.

Module Np.

(** Arithmetic on [int64] arrays wraps around silently. *)
Definition int64_wrap (z : Z) : Z := (z + 2 ^ 63) mod 2 ^ 64 - 2 ^ 63.

Definition int64_range (z : Z) : Prop := - 2 ^ 63 <= z < 2 ^ 63.

(** [ary[1:] - ary[:-1]] *)
Fixpoint diff (ary : list Z) : list Z :=
  match ary with
  | x :: (y :: _) as rest => int64_wrap (y - x) :: diff rest
  | _ => []
  end.

(** [nm.ediff1d(ary, to_end=e)] *)
Definition ediff1d (ary : list Z) (to_end : Z) : list Z :=
  diff ary ++ [to_end].

Fixpoint where_from {A} (cond : A → bool) (i : nat) (l : list A) : list nat :=
  match l with
  | [] => []
  | x :: rest =>
      if cond x then i :: where_from cond (S i) rest
      else where_from cond (S i) rest
  end.

(** [nm.where(cond(l))[0]]: the positions at which the condition holds. *)
Definition where_ {A} (cond : A → bool) (l : list A) : list nat :=
  where_from cond 0 l.

(** [nm.sum] of a one-dimensional array: accumulation from [0.0]. *)
Definition sum (l : list float) : float := fold_left PrimFloat.add l 0%float.

(** [nm.isfinite(a).all()] *)
Definition all_finite (l : list float) : bool := forallb is_finite l.

(** [nm.finfo(float).eps] *)
Definition eps : float := 0x1p-52%float.

(** numpy's ordering of doubles, which sorts NaN last. *)
Definition lt (a b : float) : bool :=
  (a <? b)%float || (is_nan b && negb (is_nan a)).

Fixpoint bisect_left (fuel : nat) (a : list float) (key : float)
    (lo hi : nat) : nat :=
  match fuel with
  | O => lo
  | S fuel' =>
      if (lo <? hi)%nat then
        let mid := (lo + (hi - lo) / 2)%nat in
        match a !! mid with
        | Some x =>
            if lt x key then bisect_left fuel' a key (S mid) hi
            else bisect_left fuel' a key lo mid
        | None => lo
        end
      else lo
  end.

(** [nm.searchsorted(a, v)] (side ['left']): binary search. *)
Definition searchsorted (a : list float) (v : float) : nat :=
  bisect_left (S (length a)) a v 0 (length a).

Fixpoint insert_unique (x : nat) (l : list nat) : list nat :=
  match l with
  | [] => [x]
  | y :: rest =>
      if (x <? y)%nat then x :: l
      else if (x =? y)%nat then l
      else y :: insert_unique x rest
  end.

(** [nm.unique]: the sorted distinct elements. *)
Definition unique (l : list nat) : list nat := foldr insert_unique [] l.

Definition mem (x : nat) (l : list nat) : bool := existsb (Nat.eqb x) l.

Fixpoint remove_all (l k : list nat) : list nat :=
  match l with
  | [] => []
  | x :: rest => if mem x k then remove_all rest k else x :: remove_all rest k
  end.

(** [nm.setdiff1d(ar1, ar2)]: the sorted distinct elements of [ar1] that
    are not in [ar2]. *)
Definition setdiff1d (ar1 ar2 : list nat) : list nat :=
  remove_all (unique ar1) ar2.

(** [nm.array(log_mevp, dtype=nm.float64).squeeze()] for the one-column
    log [[[e_1, ..., e_n]]] followed by the two-index accesses
    [mevp[:,0]]: the array has shape [(1, n, n_c)]; rows of unequal length
    cannot be converted, and once [squeeze] has removed every axis of
    length one a two-index access needs both [n] and [n_c] above one. *)
Definition squeeze_rows (rows : list (list float)) : outcome (list (list float)) :=
  let n_c := match rows with [] => O | r :: _ => length r end in
  if negb (forallb (λ r, (length r =? n_c)%nat) rows) then
    Raise (ValueError "setting an array element with a sequence.")
  else if (length rows <=? 1)%nat || (n_c <=? 1)%nat then Raise IndexError
  else Ret rows.

End Np.

(** ** [split_chunks] *)

Definition split_chunks (indx : list Z) : list (list Z) :=
  if (length indx =? 0)%nat then []
  else
    let delta := Np.ediff1d indx 2 in
    let ir := Np.where_ (λ d, 1 <? d) delta in
    (fold_left
       (λ '(chunks, ic0) ic,
          let chunk := Py.slice indx ic0 (ic + 1) in
          (chunks ++ [chunk], (ic + 1)%nat))
       ir ([], 0%nat)).1.

(** ** [find_zero] *)

(** What a callback of [get_callback] returns: the eigenvalues of the
    evaluated tensor, or the exception raised while evaluating it. *)
Definition callback := float → outcome (list float).

(** [{0 : 0, 1 : -1}[mode]] *)
Definition ieig_of_mode (mode : Z) : outcome Z :=
  if mode =? 0 then Ret 0
  else if mode =? 1 then Ret (-1)
  else Raise KeyError.

(** One pass through the body of the [while 1] loop: either the function
    returns, or the bracket [(fm, fp)] is updated. *)
Definition find_zero_step (f0 f1 : float) (cb : callback) (feps zeps : float)
    (mode ieig : Z) (fm fp : float)
    : outcome ((Z * float * float) + (float * float)) :=
  let f := (0.5 * (fm + fp))%float in
  meigs ← cb f;
  val ← Py.getitem meigs ieig;
  if (abs val <? zeps)%float || ((fp - fm) <? (abs fm * Np.eps))%float
  then Ret (inl (0, f, val))
  else
    let shrink :=
      if (0 <? val)%float then Ret (inr (fm, f)) else Ret (inr (f, fp)) in
    if mode =? 0 then
      if (f - f0 <? feps)%float then Ret (inl (2, f0, val))
      else if (f1 - f <? feps)%float then Ret (inl (1, f1, val))
      else shrink
    else if mode =? 1 then
      if (f1 - f <? feps)%float then Ret (inl (1, f1, val))
      else if (f - f0 <? feps)%float then Ret (inl (2, f0, val))
      else shrink
    else shrink.

Fixpoint find_zero_loop (fuel : nat) (f0 f1 : float) (cb : callback)
    (feps zeps : float) (mode ieig : Z) (fm fp : float)
    : outcome (Z * float * float) :=
  match fuel with
  | O => OutOfFuel
  | S fuel' =>
      r ← find_zero_step f0 f1 cb feps zeps mode ieig fm fp;
      match r with
      | inl result => Ret result
      | inr (fm', fp') =>
          find_zero_loop fuel' f0 f1 cb feps zeps mode ieig fm' fp'
      end
  end.

Definition find_zero (fuel : nat) (f0 f1 : float) (cb : callback)
    (feps zeps : float) (mode : Z) : outcome (Z * float * float) :=
  ieig ← ieig_of_mode mode;
  find_zero_loop fuel f0 f1 cb feps zeps mode ieig f0 f1.

(** ** [describe_gaps] *)

Record boundary : Type := Boundary {
  flag : Z;
  frequency : float;
  eigenvalue : float
}.

(** An element of [gaps] is a tuple [(gmin, gmax)] or, in liquid mode, a
    list of such tuples. *)
Inductive gap : Type :=
| GapPair (gmin gmax : boundary)
| GapList (subgaps : list (boundary * boundary)).

Definition kind : Type := string * string.

Inductive kinds_item : Type :=
| Kind (k : kind)
| SubKinds (subkinds : list kind).

Definition flags_are (gmin gmax : boundary) (a b : Z) : bool :=
  (flag gmin =? a) && (flag gmax =? b).

(** The [if]/[elif] chain of the sub-gap branch.  It has no [else]: the
    local variable [kind] keeps whatever it held before. *)
Definition subgap_kind (kind_var : option kind) (gmin gmax : boundary)
    : option kind :=
  if flags_are gmin gmax 2 2 then Some ("p", "propagation zone")%string
  else if flags_are gmin gmax 1 1 then Some ("is", "inner strong band gap")%string
  else if flags_are gmin gmax 0 2 then Some ("iw", "inner weak band gap")%string
  else kind_var.

(** The chain of the plain branch.  In its [else] the message is built with
    ['%d, %d' % (gmin, gmax)] from the two boundary lists, which raises
    [TypeError] before [ValueError(msg)] is reached. *)
Definition pair_kind (gmin gmax : boundary) : outcome kind :=
  if flags_are gmin gmax 2 2 then Ret ("p", "propagation zone")%string
  else if flags_are gmin gmax 1 2 then Ret ("w", "full weak band gap")%string
  else if flags_are gmin gmax 0 2 then
    Ret ("wp", "weak band gap + propagation zone")%string
  else if flags_are gmin gmax 1 1 then
    Ret ("s", "full strong band gap (due to end of freq. range or too large thresholds)")%string
  else if flags_are gmin gmax 1 0 then
    Ret ("sw", "strong band gap + weak band gap")%string
  else if flags_are gmin gmax 0 0 then
    Ret ("swp", "strong band gap + weak band gap + propagation zone")%string
  else Raise TypeError.

(** The inner loop; [kind_var] is the function-local variable [kind], unbound
    ([None]) until its first assignment. *)
Fixpoint describe_subgaps (kind_var : option kind) (subkinds : list kind)
    (subgaps : list (boundary * boundary)) : outcome (option kind * list kind) :=
  match subgaps with
  | [] => Ret (kind_var, subkinds)
  | (gmin, gmax) :: rest =>
      match subgap_kind kind_var gmin gmax with
      | None => Raise UnboundLocalError
      | Some k => describe_subgaps (Some k) (subkinds ++ [k]) rest
      end
  end.

Fixpoint describe_gaps_loop (kind_var : option kind) (kinds : list kinds_item)
    (gaps : list gap) : outcome (list kinds_item) :=
  match gaps with
  | [] => Ret kinds
  | GapList subgaps :: rest =>
      '(kind_var', subkinds) ← describe_subgaps kind_var [] subgaps;
      describe_gaps_loop kind_var' (kinds ++ [SubKinds subkinds]) rest
  | GapPair gmin gmax :: rest =>
      k ← pair_kind gmin gmax;
      describe_gaps_loop (Some k) (kinds ++ [Kind k]) rest
  end.

Definition describe_gaps (gaps : list gap) : outcome (list kinds_item) :=
  describe_gaps_loop None [] gaps.

(** ** [detect_band_gaps] *)

Record opts : Type := Opts {
  freq_step : float;
  feps : float;
  zeps : float
}.

Record freq_info : Type := FreqInfo {
  freq_range : list float;
  freq_range_margins : list float
}.

(** What one pass of the interval loop produces: the entry appended to
    [gaps], the logged frequencies and eigenvalues, and (for reasoning about
    calls) the modes with which [find_zero] was invoked, in order. *)
Record interval_result : Type := IntervalResult {
  ir_gap : gap;
  ir_log_freqs : list float;
  ir_log_mevp : list (list float);
  ir_zero_searches : list Z
}.

Section DetectBandGaps.

(** The sine-warped sample [f0 + feps + 0.5 * (sin((a - 0.5) * pi) + 1)
    * (f1 - f0 - 2 * feps)] over [a = linspace(0, 1, num)], as a function
    of [f0], [f1], [feps] and [df]. *)
Variable warped_sample : float → float → float → float → list float.

Definition sample_freqs (f0 f1 feps df : float) : list float :=
  let f_delta := (f1 - f0)%float in
  let f_mid := (0.5 * (f0 + f1))%float in
  if (2.0 * feps <? f1 - f0)%float then warped_sample f0 f1 feps df
  else [(f_mid - 1e-8 * f_delta)%float; (f_mid + 1e-8 * f_delta)%float].

(** One boundary pair per chunk of sample indices. *)
Definition chunk_gap (log_freqs : list float) (mevp : list (list float))
    (flag_min flag_max : Z) (chunk : list Z) : outcome (boundary * boundary) :=
  i0 ← Py.getitem chunk 0;
  i1 ← Py.getitem chunk (-1);
  fmin ← Py.getitem log_freqs i0;
  fmax ← Py.getitem log_freqs i1;
  row0 ← Py.getitem mevp i0;
  v0 ← Py.getitem row0 (-1);
  row1 ← Py.getitem mevp i1;
  v1 ← Py.getitem row1 (-1);
  Ret (Boundary flag_min fmin v0, Boundary flag_max fmax v1).

Definition liquid_gap (log_freqs : list float) (log_mevp : list (list float))
    (lf0 lf1 : float) (log0 log1 : list float) : outcome gap :=
  mevp ← Np.squeeze_rows log_mevp;
  col0 ← mapM (λ row, Py.getitem row 0) mevp;
  col1 ← mapM (λ row, Py.getitem row (-1)) mevp;
  let si := Np.where_ (λ v, (v <? 0)%float) col0 in
  let li := Np.where_ (λ v, (v <? 0)%float) col1 in
  let wi := Np.setdiff1d si li in
  if (length si =? 0)%nat then
    a ← Py.getitem log0 0;
    b ← Py.getitem log0 (-1);
    Ret (GapPair (Boundary 2 lf0 a) (Boundary 2 lf0 b))
  else if (length li =? length mevp)%nat then
    a ← Py.getitem log1 0;
    b ← Py.getitem log1 (-1);
    Ret (GapPair (Boundary 1 lf1 a) (Boundary 1 lf1 b))
  else
    strong ← mapM (chunk_gap log_freqs mevp 1 1)
                  (split_chunks (Z.of_nat <$> li));
    weak ← mapM (chunk_gap log_freqs mevp 0 2)
                (split_chunks (Z.of_nat <$> wi));
    Ret (GapList (strong ++ weak)).

(** The normal-mode branch.  [find_zero] returns only the flags 0, 1 and 2
    (lemma [find_zero_flag] below), so the case in which neither
    [smax in [0, 2]] nor [smax == 1] assigns [smin] is closed with the
    exception an unassigned name gives. *)
Definition normal_gap (fuel : nat) (fz trace : callback) (o : opts)
    (log_freqs : list float) (log_mevp : list (list float))
    (lf0 lf1 : float) (log0 log1 : list float) (min_eig0 max_eig1 : float)
    : outcome interval_result :=
  if (0 <? min_eig0)%float then
    a ← Py.getitem log0 0;
    b ← Py.getitem log0 (-1);
    Ret (IntervalResult (GapPair (Boundary 2 lf0 a) (Boundary 2 lf0 b))
           log_freqs log_mevp [])
  else if (max_eig1 <? 0)%float then
    a ← Py.getitem log1 0;
    b ← Py.getitem log1 (-1);
    Ret (IntervalResult (GapPair (Boundary 1 lf1 a) (Boundary 1 lf1 b))
           log_freqs log_mevp [])
  else
    '(smax, fmax, vmax) ← find_zero fuel lf0 lf1 fz (feps o) (zeps o) 1;
    let im := Np.searchsorted log_freqs fmax in
    let llog_freqs := Py.insert im fmax log_freqs in
    data ← trace fmax;
    let log_mevp' := Py.insert im data log_mevp in
    if (smax =? 0) || (smax =? 2) then
      '(smin, fmin, vmin) ← find_zero fuel lf0 lf1 fz (feps o) (zeps o) 0;
      let im := Np.searchsorted log_freqs fmin in
      let llog_freqs' := Py.insert (im + 1) fmin llog_freqs in
      data ← trace fmin;
      let log_mevp'' := Py.insert (im + 1) data log_mevp' in
      Ret (IntervalResult
             (GapPair (Boundary smin fmin vmin) (Boundary smax fmax vmax))
             llog_freqs' log_mevp'' [1; 0])
    else if smax =? 1 then
      Ret (IntervalResult
             (GapPair (Boundary 1 fmax vmax) (Boundary smax fmax vmax))
             llog_freqs log_mevp' [1])
    else Raise UnboundLocalError.

(** The body of the loop over the intervals [(f0, f1)]. *)
Definition detect_interval (fuel : nat) (fz trace : callback) (o : opts)
    (gap_kind : string) (df f0 f1 : float) : outcome interval_result :=
  let log_freqs := sample_freqs f0 f1 (feps o) df in
  log_mevp ← mapM trace log_freqs;
  lf0 ← Py.getitem log_freqs 0;
  lf1 ← Py.getitem log_freqs (-1);
  log0 ← Py.getitem log_mevp 0;
  log1 ← Py.getitem log_mevp (-1);
  min_eig0 ← Py.getitem log0 0;
  max_eig1 ← Py.getitem log1 (-1);
  if String.eqb gap_kind "liquid" then
    g ← liquid_gap log_freqs log_mevp lf0 lf1 log0 log1;
    Ret (IntervalResult g log_freqs log_mevp [])
  else
    normal_gap fuel fz trace o log_freqs log_mevp lf0 lf1 log0 log1
      min_eig0 max_eig1.

Fixpoint detect_intervals (fuel : nat) (fz trace : callback) (o : opts)
    (gap_kind : string) (df : float) (fm : list float) (iis : list nat)
    : outcome (list interval_result) :=
  match iis with
  | [] => Ret []
  | ii :: rest =>
      f0 ← Py.getitem fm (Z.of_nat ii);
      f1 ← Py.getitem fm (Z.of_nat ii + 1);
      r ← detect_interval fuel fz trace o gap_kind df f0 f1;
      rs ← detect_intervals fuel fz trace o gap_kind df fm rest;
      Ret (r :: rs)
  end.

(** [detect_band_gaps] without a [mtx_b]: the callbacks [fz] and [trace]
    are the two closures that [get_callback] builds from [mass.evaluate]
    and the eigenvalue solver.  The result is the frequency and eigenvalue
    logs, [gaps] and [kinds]. *)
Definition detect_band_gaps (fuel : nat) (fz trace : callback)
    (fi : freq_info) (o : opts) (gap_kind : string)
    : outcome (list (list float) * list (list (list float))
               * list gap * list kinds_item) :=
  let fm := freq_range_margins fi in
  min_freq ← Py.getitem fm 0;
  max_freq ← Py.getitem fm (-1);
  let df := (freq_step o * (max_freq - min_freq))%float in
  rs ← detect_intervals fuel fz trace o gap_kind df fm
         (seq 0 (length (freq_range fi) + 1));
  let gaps := ir_gap <$> rs in
  kinds ← describe_gaps gaps;
  Ret (ir_log_freqs <$> rs, ir_log_mevp <$> rs, gaps, kinds).

End DetectBandGaps.

(** [get_callback] without a [mtx_b]: both the find-zero and the trace
    callback evaluate the mass tensor and hand it to the eigenvalue solver
    [eig], which is outside this module. *)
Definition get_callback {M : Type} (mass : float → outcome M)
    (eig : M → outcome (list float)) : callback :=
  λ f, m ← mass f; eig m.

(** ** Two-dimensional arrays *)

(** A float array of shape [(length rows, ncols)]; the column count is kept
    because it survives an array without rows. *)
Record array2 : Type := Array2 {
  ncols : nat;
  rows : list (list float)
}.

Module Mat.

Definition get (m : list (list float)) (i j : nat) : float :=
  default 0%float (m !! i ≫= (.!! j)).

Definition set (m : list (list float)) (i j : nat) (v : float)
    : list (list float) :=
  alter (λ row, <[j := v]> row) i m.

Definition zeros (n k : nat) : list (list float) :=
  replicate n (replicate k 0%float).

(** [nm.eye(n, n)] *)
Definition eye (n : nat) : list (list float) :=
  (λ i, (λ j, if (i =? j)%nat then 1%float else 0%float) <$> seq 0 n)
    <$> seq 0 n.

(** An operation with a scalar, entry by entry. *)
Definition elementwise (f : float → float) (m : list (list float))
    : list (list float) :=
  (λ row : list float, f <$> row) <$> m.

(** An operation on two arrays of one shape, entry by entry. *)
Definition elementwise2 (f : float → float → float)
    (a b : list (list float)) : list (list float) :=
  zip_with (zip_with f) a b.

(** [a[:, j]] *)
Definition column (a : array2) (j : nat) : list float :=
  (λ row, default 0%float (row !! j)) <$> rows a.

(** [l[mask]] for a boolean mask. *)
Fixpoint select {A} (l : list A) (mask : list bool) : list A :=
  match l, mask with
  | x :: l', b :: mask' => if b then x :: select l' mask' else select l' mask'
  | _, _ => []
  end.

End Mat.

(** ** [DensityVolumeInfo] *)

Record dv_info : Type := DvInfo {
  average_density : float;
  total_volume : float;
  volumes : gmap string float;
  densities : gmap string float
}.

Module DensityVolumeInfo.

(** Modelled from the spec: [problem.conf.get_item_by_name('materials',
    mat_name)] and the [values] of the item it returns are not in the
    sources; a missing material or property is the configuration error of
    the spec.  The materials are a map from material name to the map of
    its property values. *)
Definition density_of (materials : gmap string (gmap string float))
    (mat_name item_name : string) : outcome float :=
  match materials !! mat_name with
  | None => Raise AttributeError
  | Some values =>
      match values !! item_name with
      | None => Raise KeyError
      | Some density => Ret density
      end
  end.

(** Modelled from the spec: [sfepy.base.base.assert_] is not in the
    sources; a failed check is the fatal consistency error. *)
Definition assert_ (condition : bool) : outcome unit :=
  if condition then Ret tt else Raise (ValueError "assertion failed!").

(** The loop over [region_to_material.iteritems()], given in iteration
    order; the state is [(average_density, total_volume, volumes,
    densities)]. *)
Fixpoint accumulate (vf : gmap string float)
    (materials : gmap string (gmap string float))
    (regions : list (string * (string * string)))
    (acc : float * float * gmap string float * gmap string float)
    : outcome (float * float * gmap string float * gmap string float) :=
  match regions with
  | [] => Ret acc
  | (region_name, (mat_name, item_name)) :: rest =>
      let '(average_density, total_volume, volumes, densities) := acc in
      match vf !! ("volume_" +:+ region_name) with
      | None => Raise KeyError
      | Some vol =>
          density ← density_of materials mat_name item_name;
          accumulate vf materials rest
            ((average_density + vol * density)%float,
             (total_volume + vol)%float,
             <[region_name := vol]> volumes,
             <[region_name := density]> densities)
      end
  end.

(** [__call__]; [true_volume] is what [self._get_volume(volume)] returns
    (the externally supplied total volume). *)
Definition call (region_to_material : list (string * (string * string)))
    (vf : gmap string float) (materials : gmap string (gmap string float))
    (true_volume : float) : outcome dv_info :=
  '(average_density, total_volume, volumes, densities) ←
    accumulate vf materials region_to_material (0%float, 0%float, ∅, ∅);
  _ ← assert_ (abs (total_volume - true_volume) / true_volume <? 1e-14)%float;
  Ret (DvInfo (average_density / true_volume)%float total_volume
         volumes densities).

End DensityVolumeInfo.

(** ** [Eigenmomenta] *)

Record eigenmomenta_info : Type := EigenmomentaInfo {
  n_zeroed : nat;
  eigenmomenta : array2;
  valid : list bool
}.

Module Eigenmomenta.

(** Modelled from the spec: [sfepy.linalg.norm_l2_along_axis] is not in
    the sources; it is the L2 norm of every row. *)
Definition norm_l2_along_axis (a : array2) : list float :=
  (λ row, sqrt (Np.sum ((λ x, x * x)%float <$> row))) <$> rows a.

(** [mag.max()]: numpy's maximum keeps a NaN once it has met one, and
    refuses an empty array. *)
Definition amax (l : list float) : outcome float :=
  match l with
  | [] => Raise (ValueError "zero-size array to reduction operation maximum which has no identity")
  | x :: rest =>
      Ret (fold_left (λ m y, if (y <=? m)%float || is_nan m then m else y)
             rest x)
  end.

(** The thresholding part of [__call__], lines 619 to 637. *)
Definition threshold_rows (threshold : float) (threshold_is_relative : bool)
    (em : array2) : outcome eigenmomenta_info :=
  let mag := norm_l2_along_axis em in
  tol ← (if threshold_is_relative
         then m ← amax mag; Ret (threshold * m)%float
         else Ret threshold);
  let valid := (λ m, if (m <? tol)%float then false else true) <$> mag in
  let mask := Np.where_ negb valid in
  let zeroed :=
    fold_left (λ rs i, alter (fmap (λ _, 0%float)) i rs) mask (rows em) in
  Ret (EigenmomentaInfo (length mask) (Array2 (ncols em) zeroed) valid).

(** [compute_eigenmomenta]: [eig_vectors] is given by columns, [eval_em]
    is the evaluation of the functional for one state of the variable, and
    [transform] the optional wrapped transformation. *)
Definition compute_eigenmomenta (n_c : nat)
    (eval_em : list float → outcome (list float))
    (transform : option (list float → nat * nat → list float * bool))
    (eig_vectors : list (list float)) : outcome array2 :=
  rs ← mapM (λ col,
               let '(vec_phi, is_zero) :=
                 match transform with
                 | None => (col, false)
                 | Some t => t col ((length col / n_c)%nat, n_c)
                 end in
               if is_zero then Ret (replicate n_c 0%float)
               else eval_em vec_phi)
            eig_vectors;
  Ret (Array2 n_c rs).

Definition call (n_c : nat) (eval_em : list float → outcome (list float))
    (transform : option (list float → nat * nat → list float * bool))
    (threshold : float) (threshold_is_relative : bool)
    (eig_vectors : list (list float)) : outcome eigenmomenta_info :=
  em ← compute_eigenmomenta n_c eval_em transform eig_vectors;
  threshold_rows threshold threshold_is_relative em.

End Eigenmomenta.

(** ** [AcousticMassTensor] *)

Module AcousticMassTensor.

Record t : Type := Make {
  eigs : list float;
  ema : array2;
  dv : dv_info
}.

(** [__call__]: only the valid resonances are kept. *)
Definition call (evp_eigs : list float) (dv : dv_info)
    (em : eigenmomenta_info) : t :=
  Make (Mat.select evp_eigs (valid em))
       (Array2 (ncols (eigenmomenta em))
               (Mat.select (rows (eigenmomenta em)) (valid em)))
       dv.

Definition get_coefs (self : t) (freq : float) : float * list float :=
  let f2 := (freq * freq)%float in
  (f2, (λ e, f2 - e)%float <$> eigs self).

(** The body of the two nested loops over [ir] and [ic]. *)
Definition fill_entry (self : t) (num : float) (denom : list float)
    (ir ic : nat) (fmass : list (list float)) : list (list float) :=
  if (ir <=? ic)%nat then
    let val :=
      Np.sum (zip_with PrimFloat.mul
                ((λ d, num / d)%float <$> denom)
                (zip_with PrimFloat.mul (Mat.column (ema self) ir)
                                        (Mat.column (ema self) ic))) in
    Mat.set fmass ir ic (Mat.get fmass ir ic + val)%float
  else Mat.set fmass ir ic (Mat.get fmass ic ir).

Definition evaluate (self : t) (freq : float) : outcome (list (list float)) :=
  let n_c := ncols (ema self) in
  let fmass := Mat.zeros n_c n_c in
  let '(num, denom) := get_coefs self freq in
  if negb (Np.all_finite denom) then
    Raise (ValueError "frequency %e too close to resonance!")
  else
    let fmass :=
      fold_left
        (λ fmass ir,
           fold_left (λ fmass ic, fill_entry self num denom ir ic fmass)
                     (seq 0 n_c) fmass)
        (seq 0 n_c) fmass in
    let eye := Mat.eye n_c in
    Ret (Mat.elementwise2 PrimFloat.sub
           (Mat.elementwise (λ x, x * average_density (dv self))%float eye)
           (Mat.elementwise (λ x, x / total_volume (dv self))%float fmass)).

End AcousticMassTensor.

(** ** Builtins used by the remaining functions *)

Module Builtin.

(** [max(a, b)]: the first argument, unless the second is greater. *)
Definition max2 (a b : float) : float := if (a <? b)%float then b else a.

(** [min(a, b)]: the first argument, unless the second is smaller. *)
Definition min2 (a b : float) : float := if (b <? a)%float then b else a.

(** [max(a, b, c)] *)
Definition max3 (a b c : float) : float := max2 (max2 a b) c.

(** A slice bound brought into [0 .. n], counting from the end when
    negative. *)
Definition slice_bound (n : nat) (i : Z) : nat :=
  if i <? 0 then Z.to_nat (Z.max 0 (Z.of_nat n + i))
  else Z.to_nat (Z.min i (Z.of_nat n)).

(** [l[slice(a, b)]] for integer bounds of either sign. *)
Definition slice_z {A} (l : list A) (a b : Z) : list A :=
  Py.slice l (slice_bound (length l) a) (slice_bound (length l) b).

(** Elementwise operation on two one-dimensional arrays with numpy's
    broadcasting: equal lengths, or one of them of length one. *)
Definition broadcast2 (f : float → float → float) (a b : list float)
    : outcome (list float) :=
  if (length a =? length b)%nat then Ret (zip_with f a b)
  else match a, b with
       | [x], _ => Ret (f x <$> b)
       | _, [y] => Ret ((λ x, f x y) <$> a)
       | _, _ =>
           Raise (ValueError "operands could not be broadcast together")
       end.

End Builtin.

(** ** [cut_freq_range] and [BandGaps] *)

(** The option [eig_range]: a pair of integers, held in a list or in a
    tuple. *)
Record eig_range : Type := EigRange {
  er_is_list : bool;
  er_start : Z;
  er_stop : Z
}.

(** [freq_range] and the mask [valid[valid_slice]] have one length when the
    function is called from [BandGaps]; the boolean index is modelled by
    [Mat.select]. *)
Definition cut_freq_range (freq_range eigs : list float) (valid : list bool)
    (freq_margins : float * float) (er : eig_range)
    (fixed_eig_range : option (float * float)) (feps : float)
    : outcome (list float * list float) :=
  let n_eigs := Z.of_nat (length eigs) in
  let valid_slice := Builtin.slice_z valid (er_start er) (er_stop er) in
  '(prev_eig, next_eig) ←
    match fixed_eig_range with
    | None =>
        min_freq ← Py.getitem freq_range 0;
        max_freq ← Py.getitem freq_range (-1);
        let margins0 := (freq_margins.1 * (max_freq - min_freq))%float in
        let margins1 := (freq_margins.2 * (max_freq - min_freq))%float in
        let prev_eig := (min_freq - margins0)%float in
        let next_eig := (max_freq + margins1)%float in
        prev_eig ←
          (if 0 <? er_start er then
             e ← Py.getitem eigs (er_start er - 1);
             Ret (Builtin.max2 (sqrt e + feps)%float prev_eig)
           else Ret prev_eig);
        next_eig ←
          (if er_stop er <? n_eigs then
             e ← Py.getitem eigs (er_stop er);
             Ret (Builtin.min2 (sqrt e - feps)%float next_eig)
           else Ret next_eig);
        let prev_eig := Builtin.max2 feps prev_eig in
        let next_eig := Builtin.max3 feps next_eig (prev_eig + feps)%float in
        Ret (prev_eig, next_eig)
    | Some fixed => Ret fixed
    end;
  let freq_range := Mat.select freq_range valid_slice in
  Ret (freq_range, [prev_eig] ++ freq_range ++ [next_eig]).

Record band_gaps_opts : Type := BandGapsOpts {
  bg_eig_range : option eig_range;
  bg_freq_margins : float * float;
  bg_fixed_eig_range : option (float * float);
  bg_detect : opts
}.

(** The result [bg] of [BandGaps.__call__]. *)
Record band_gaps : Type := BandGapsResult {
  bg_log_freqs : list (list float);
  bg_log_eigs : list (list (list float));
  bg_gaps : list gap;
  bg_kinds : list kinds_item;
  bg_valid : list bool;
  bg_range : eig_range;
  bg_n_eigs : nat;
  bg_n_zeroed : nat;
  bg_freq_range_initial : list float;
  bg_freq_range : list float;
  bg_freq_range_margins : list float
}.

Section BandGaps.

(** [get_default] of [sfepy.base.base], the float power [x ** 2.] and the
    sine-warped sample are outside this module. *)
Variable get_default : option eig_range → eig_range → eig_range.
Variable pow2 : float → float.
Variable warped_sample : float → float → float → float → list float.

(** [fix_eig_range]: the in-place [+=] needs a list. *)
Definition fix_eig_range (n_eigs : nat) (option_eig_range : option eig_range)
    : outcome eig_range :=
  let er :=
    get_default option_eig_range (EigRange false 0 (Z.of_nat n_eigs)) in
  er ← (if er_stop er <? 0 then
          if er_is_list er then
            Ret (EigRange true (er_start er)
                          (er_stop er + (Z.of_nat n_eigs + 1)))
          else Raise TypeError
        else Ret er);
  _ ← DensityVolumeInfo.assert_ (er_start er <? er_stop er - 1);
  _ ← DensityVolumeInfo.assert_ (er_stop er <=? Z.of_nat n_eigs);
  Ret er.

(** [BandGaps.__call__]; [fz] and [trace] are the callbacks built from the
    mass tensor, and [detect_band_gaps] runs in its default normal mode. *)
Definition band_gaps_call (fuel : nat) (fz trace : callback)
    (eigs : list float) (ema : eigenmomenta_info) (o : band_gaps_opts)
    : outcome band_gaps :=
  er ← fix_eig_range (length eigs) (bg_eig_range o);
  '(freq_range_initial, er) ←
    match bg_fixed_eig_range o with
    | Some (mine, maxe) =>
        let ii :=
          Np.where_ (λ e, (pow2 mine <? e)%float && (e <? pow2 maxe)%float)
                    eigs in
        selected ← mapM (λ i, Py.getitem eigs (Z.of_nat i)) ii;
        i0 ← Py.getitem ii 0;
        i1 ← Py.getitem ii (-1);
        Ret (sqrt <$> selected,
             EigRange false (Z.of_nat i0) (Z.of_nat i1 + 1))
    | None =>
        Ret (sqrt <$> Builtin.slice_z eigs (er_start er) (er_stop er), er)
    end;
  _ ← Py.getitem freq_range_initial 0;
  _ ← Py.getitem freq_range_initial (-1);
  '(freq_range, freq_range_margins) ←
    cut_freq_range freq_range_initial eigs (valid ema) (bg_freq_margins o) er
      (bg_fixed_eig_range o) (feps (bg_detect o));
  '(log_freqs, log_eigs, gaps, kinds) ←
    detect_band_gaps warped_sample fuel fz trace
      (FreqInfo freq_range freq_range_margins) (bg_detect o) "normal";
  Ret (BandGapsResult log_freqs log_eigs gaps kinds (valid ema) er
         (length eigs) (n_zeroed ema) freq_range_initial freq_range
         freq_range_margins).

End BandGaps.

(** ** [AppliedLoadTensor] *)

Module AppliedLoadTensor.

Record t : Type := Make {
  eigs : list float;
  ema : array2;
  uema : array2;
  dv : dv_info
}.

(** [__call__]: the eigenvalues and the eigenmomenta are masked by
    [ema.valid], the second eigenmomenta by their own mask. *)
Definition call (evp_eigs : list float) (dv : dv_info)
    (em uem : eigenmomenta_info) : t :=
  Make (Mat.select evp_eigs (valid em))
       (Array2 (ncols (eigenmomenta em))
               (Mat.select (rows (eigenmomenta em)) (valid em)))
       (Array2 (ncols (eigenmomenta uem))
               (Mat.select (rows (eigenmomenta uem)) (valid uem)))
       dv.

(** [a[:, j]]: the column must exist. *)
Definition column (a : array2) (j : nat) : outcome (list float) :=
  if (j <? ncols a)%nat then Ret (Mat.column a j) else Raise IndexError.

(** [nm.sum(ema[:, ir] * uema[:, ic] / de)] *)
Definition entry_sum (self : t) (de : list float) (ir ic : nat)
    : outcome float :=
  a ← column (ema self) ir;
  b ← column (uema self) ic;
  ab ← Builtin.broadcast2 PrimFloat.mul a b;
  q ← Builtin.broadcast2 PrimFloat.div ab de;
  Ret (Np.sum q).

Fixpoint fill_loop (self : t) (f2 : float) (de : list float)
    (pairs : list (nat * nat)) (fload : list (list float))
    : outcome (list (list float)) :=
  match pairs with
  | [] => Ret fload
  | (ir, ic) :: rest =>
      val ← entry_sum self de ir ic;
      fill_loop self f2 de rest
        (Mat.set fload ir ic (Mat.get fload ir ic + f2 * val)%float)
  end.

(** [evaluate]; [pow2] is the power [freq**2].  After the loops the
    identity is requested as [nm.eye((n_c, n_c))], with a tuple where the
    number of rows is expected, which numpy refuses with [TypeError]. *)
Definition evaluate (pow2 : float → float) (self : t) (freq : float)
    : outcome (list (list float)) :=
  let n_c := ncols (ema self) in
  let fload := Mat.zeros n_c n_c in
  let de := (λ e, pow2 freq - e)%float <$> eigs self in
  if negb (Np.all_finite de) then
    Raise (ValueError "frequency %e too close to resonance!")
  else
    fload ← fill_loop self (pow2 freq) de
               (ir ← seq 0 n_c; ic ← seq 0 n_c; [(ir, ic)]) fload;
    Raise TypeError.

End AppliedLoadTensor.

(** ** [plot_gap] and [plot_gaps] *)

Section Plot.

(** A plot resource: the keyword arguments that matplotlib receives. *)
Variable rsc : Type.

(** What [draw_rect] hands to [ax.fill]: the two ends of a rectangle along
    the frequency axis and its resource; its vertical extent is always
    [plot_range]. *)
Definition rect : Type := float * float * rsc.

(** [plot_rsc[key]] *)
Definition resource (plot_rsc : gmap string rsc) (key : string)
    : outcome rsc :=
  match plot_rsc !! key with
  | Some r => Ret r
  | None => Raise KeyError
  end.

(** The three lookups at the head of [plot_gap]. *)
Definition colors (plot_rsc : gmap string rsc) : outcome (rsc * rsc * rsc) :=
  strong ← resource plot_rsc "strong_gap";
  weak ← resource plot_rsc "weak_gap";
  propagation ← resource plot_rsc "propagation";
  Ret (strong, weak, propagation).

(** [plot_gap]: the result is the list of the rectangles drawn, which is
    the local [info] with the resource of each rectangle. *)
Definition plot_gap (plot_rsc : gmap string rsc) (f0 f1 : float)
    (kind : string) (gmin gmax : boundary) : outcome (list rect) :=
  '(strong, weak, propagation) ← colors plot_rsc;
  if String.eqb kind "p" then Ret [(f0, f1, propagation)]
  else if String.eqb kind "w" then Ret [(f0, f1, weak)]
  else if String.eqb kind "wp" then
    Ret [(f0, frequency gmin, weak); (frequency gmin, f1, propagation)]
  else if String.eqb kind "s" then Ret [(f0, f1, strong)]
  else if String.eqb kind "sw" then
    Ret [(f0, frequency gmax, strong); (frequency gmax, f1, weak)]
  else if String.eqb kind "swp" then
    Ret [(f0, frequency gmax, strong);
         (frequency gmax, frequency gmin, weak);
         (frequency gmin, f1, propagation)]
  else if String.eqb kind "is" then
    Ret [(frequency gmin, frequency gmax, strong)]
  else if String.eqb kind "iw" then
    Ret [(frequency gmin, frequency gmax, weak)]
  else Raise (ValueError EmptyString).

(** [plot_gap] with the vertical extent of its rectangles: every
    [draw_rect] takes [nm.asarray(plot_range)[[0,0,1,1]]], which needs two
    entries in [plot_range], and every branch of [plot_gap] that returns
    has drawn at least one rectangle. *)
Definition plot_gap_in (plot_rsc : gmap string rsc) (plot_range : list float)
    (f0 f1 : float) (kind : string) (gmin gmax : boundary)
    : outcome (list rect) :=
  drawn ← plot_gap plot_rsc f0 f1 kind gmin gmax;
  if (2 <=? length plot_range)%nat then Ret drawn else Raise IndexError.

(** The error of [a, b = seq] for a sequence of [n] elements, [n] other
    than two (the interpreter of [xrange] and [iteritems]). *)
Definition unpack_error (n : nat) : exn :=
  match n with
  | 0%nat => ValueError "need more than 0 values to unpack"
  | 1%nat => ValueError "need more than 1 value to unpack"
  | _ => ValueError "too many values to unpack"
  end.

(** [kind, kind_desc = kinds[ii][ig]] followed by [plot_gap].  When
    [kinds[ii]] is a list its entry [ig] is a pair of strings; when it is
    itself a pair of strings the entry is one of the two strings, which
    unpacks into its two characters. *)
Definition plot_subgap (plot_rsc : gmap string rsc) (plot_range : list float)
    (f0 f1 : float) (kinds : list kinds_item) (ii ig : nat)
    (gmin gmax : boundary) : outcome (list rect) :=
  item ← Py.getitem kinds (Z.of_nat ii);
  match item with
  | SubKinds subkinds =>
      '(kind, _) ← Py.getitem subkinds (Z.of_nat ig);
      plot_gap_in plot_rsc plot_range f0 f1 kind gmin gmax
  | Kind (k, d) =>
      s ← Py.getitem [k; d] (Z.of_nat ig);
      match s with
      | String c0 (String _ EmptyString) =>
          plot_gap_in plot_rsc plot_range f0 f1 (String c0 EmptyString)
            gmin gmax
      | _ => Raise (unpack_error (String.length s))
      end
  end.

(** The loop [for ig, (gmin, gmax) in enumerate(gap)]. *)
Fixpoint plot_subgaps (plot_rsc : gmap string rsc) (plot_range : list float)
    (f0 f1 : float) (kinds : list kinds_item) (ii ig : nat)
    (subgaps : list (boundary * boundary)) : outcome (list rect) :=
  match subgaps with
  | [] => Ret []
  | (gmin, gmax) :: rest =>
      drawn ← plot_subgap plot_rsc plot_range f0 f1 kinds ii ig gmin gmax;
      more ← plot_subgaps plot_rsc plot_range f0 f1 kinds ii (S ig) rest;
      Ret (drawn ++ more)
  end.

(** The body of the loop over [ii].  A plain pair whose entry of [kinds]
    is a list unpacks the list; two entries give a [kind] that is a pair,
    which no branch of [plot_gap] accepts. *)
Definition plot_interval (plot_rsc : gmap string rsc)
    (plot_range : list float) (gaps : list gap) (kinds : list kinds_item)
    (freq_range : list float) (ii : nat) : outcome (list rect) :=
  f0 ← Py.getitem freq_range (Z.of_nat ii);
  f1 ← Py.getitem freq_range (Z.of_nat ii + 1);
  gap ← Py.getitem gaps (Z.of_nat ii);
  match gap with
  | GapList subgaps =>
      plot_subgaps plot_rsc plot_range f0 f1 kinds ii 0 subgaps
  | GapPair gmin gmax =>
      item ← Py.getitem kinds (Z.of_nat ii);
      match item with
      | Kind (kind, _) =>
          plot_gap_in plot_rsc plot_range f0 f1 kind gmin gmax
      | SubKinds [_; _] => _ ← colors plot_rsc; Raise (ValueError EmptyString)
      | SubKinds subkinds => Raise (unpack_error (length subkinds))
      end
  end.

Fixpoint plot_intervals (plot_rsc : gmap string rsc)
    (plot_range : list float) (gaps : list gap) (kinds : list kinds_item)
    (freq_range : list float) (iis : list nat) : outcome (list rect) :=
  match iis with
  | [] => Ret []
  | ii :: rest =>
      drawn ← plot_interval plot_rsc plot_range gaps kinds freq_range ii;
      more ← plot_intervals plot_rsc plot_range gaps kinds freq_range rest;
      Ret (drawn ++ more)
  end.

(** [plot_gaps]: [plt] tells whether matplotlib was imported; the figure
    that is returned is represented by the rectangles drawn into it, and
    the calls into matplotlib are taken to succeed. *)
Definition plot_gaps (plt : bool) (plot_rsc : gmap string rsc)
    (plot_range : list float)
    (gaps : list gap) (kinds : list kinds_item) (freq_range : list float)
    (new_axes : bool) : outcome (option (list rect)) :=
  if negb plt then Ret None
  else
    drawn ← plot_intervals plot_rsc plot_range gaps kinds freq_range
               (seq 0 (length freq_range - 1));
    _ ← (if new_axes then
           _ ← Py.getitem freq_range 0; Py.getitem freq_range (-1)
         else Ret 0%float);
    Ret (Some drawn).

End Plot.

(** * Specification vocabulary *)

(** ** The root finder *)

(** The eigenvalue that [find_zero] tracks, as a function of the frequency:
    the first one in mode 0, the last one in mode 1. *)
Definition tracked_eigenvalue (cb : callback) (mode : Z) (f : float)
    : outcome float :=
  ieig ← ieig_of_mode mode;
  meigs ← cb f;
  Py.getitem meigs ieig.

(** The conditions under which one pass of the loop returns. *)
Definition exit_condition (f0 f1 feps zeps fm fp : float)
    (result : Z * float * float) : Prop :=
  let f := (0.5 * (fm + fp))%float in
  let '(flg, fr, val) := result in
  (flg = 0 ∧ fr = f ∧
     ((abs val <? zeps)%float = true
      ∨ (fp - fm <? abs fm * Np.eps)%float = true))
  ∨ (flg = 2 ∧ fr = f0 ∧ (f - f0 <? feps)%float = true)
  ∨ (flg = 1 ∧ fr = f1 ∧ (f1 - f <? feps)%float = true).

(** The test of the first [if] of the loop of [find_zero]: a root (the
    tracked eigenvalue is below [zeps] in magnitude) or a bracket narrower
    than machine precision relative to its lower bound. *)
Definition root_or_collapsed (zeps fm fp val : float) : bool :=
  (abs val <? zeps)%float || (fp - fm <? abs fm * Np.eps)%float.

(** The return that the stated conditions give at the bracket [(fm, fp)]
    whose midpoint has the tracked eigenvalue [val]: flag 0 at a root or a
    collapsed bracket; otherwise flag 2 within [feps] of [f0] and flag 1
    within [feps] of [f1], the end that the mode looks at first winning when
    both are that near. *)
Definition exits (f0 f1 feps zeps : float) (mode : Z) (fm fp val : float)
    (result : Z * float * float) : Prop :=
  let f := (0.5 * (fm + fp))%float in
  (root_or_collapsed zeps fm fp val = true ∧ result = (0, f, val))
  ∨ (root_or_collapsed zeps fm fp val = false
     ∧ (f - f0 <? feps)%float = true
     ∧ (mode = 1 → (f1 - f <? feps)%float = false)
     ∧ result = (2, f0, val))
  ∨ (root_or_collapsed zeps fm fp val = false
     ∧ (f1 - f <? feps)%float = true
     ∧ (mode = 0 → (f - f0 <? feps)%float = false)
     ∧ result = (1, f1, val)).

(** The brackets of the search: [(f0, f1)] itself and, from a bracket at
    whose midpoint none of the conditions is met, its lower half when the
    tracked eigenvalue is positive there and its upper half when it is
    not. *)
Inductive searched (f0 f1 : float) (cb : callback) (feps zeps : float)
    (mode : Z) : float → float → Prop :=
| searched_start : searched f0 f1 cb feps zeps mode f0 f1
| searched_halve (fm fp val : float) :
    searched f0 f1 cb feps zeps mode fm fp →
    tracked_eigenvalue cb mode (0.5 * (fm + fp))%float = Ret val →
    root_or_collapsed zeps fm fp val = false →
    (0.5 * (fm + fp) - f0 <? feps)%float = false →
    (f1 - 0.5 * (fm + fp) <? feps)%float = false →
    searched f0 f1 cb feps zeps mode
      (if (0 <? val)%float then fm else (0.5 * (fm + fp))%float)
      (if (0 <? val)%float then (0.5 * (fm + fp))%float else fp).

(** ** Density and volume *)

(** The volume and the density of every region, in iteration order. *)
Definition region_values (vf : gmap string float)
    (materials : gmap string (gmap string float))
    (regions : list (string * (string * string)))
    : outcome (list (float * float)) :=
  mapM (λ '(region_name, (mat_name, item_name)),
          match vf !! ("volume_" +:+ region_name) with
          | None => Raise KeyError
          | Some vol =>
              density ← DensityVolumeInfo.density_of materials mat_name item_name;
              Ret (vol, density)
          end)
       regions.

(** [Σ volume_r * density_r], accumulated onto [acc]. *)
Definition weighted_sum (vds : list (float * float)) (acc : float) : float :=
  fold_left (λ a vd, a + vd.1 * vd.2)%float vds acc.

(** [abs(total_volume - true_volume) / true_volume] *)
Definition relative_deviation (total true_volume : float) : float :=
  (abs (total - true_volume) / true_volume)%float.

(** The regions A (volume 2, density 10) and B (volume 3, density 20). *)
Definition example_regions : list (string * (string * string)) :=
  [("A", ("matA", "density")); ("B", ("matB", "density"))]%string.
Definition example_vf : gmap string float :=
  <["volume_A"%string := 2%float]> (<["volume_B"%string := 3%float]> ∅).
Definition example_materials : gmap string (gmap string float) :=
  <["matA"%string := <["density"%string := 10%float]> ∅]>
    (<["matB"%string := <["density"%string := 20%float]> ∅]> ∅).

(** ** Runs of consecutive indices *)

(** A relation that holds between every element and its successor. *)
Fixpoint adjacent {A} (R : A → A → Prop) (l : list A) : Prop :=
  match l with
  | x :: (y :: _) as rest => R x y ∧ adjacent R rest
  | _ => True
  end.

Definition strictly_increasing (l : list Z) : Prop := adjacent Z.lt l.

(** Neighbouring elements whose difference is representable in [int64]. *)
Definition differences_fit (l : list Z) : Prop :=
  adjacent (λ x y, y - x < 2 ^ 63) l.

(** A run of consecutive integers. *)
Definition consecutive (l : list Z) : Prop := adjacent (λ x y, y = x + 1) l.

(** [chunks] are the maximal runs of consecutive integers of [indx], in
    order: they concatenate to [indx], each is a non-empty run, and no
    chunk could be extended by the first element of the next one. *)
Definition maximal_runs (indx : list Z) (chunks : list (list Z)) : Prop :=
  concat chunks = indx
  ∧ Forall (λ c, c ≠ [] ∧ consecutive c) chunks
  ∧ adjacent (λ c d, ∀ x y, last c = Some x → head d = Some y → y ≠ x + 1)
             chunks.

(** The maximal runs, by recursion on the vector. *)
Fixpoint runs (l : list Z) : list (list Z) :=
  match l with
  | [] => []
  | x :: rest =>
      match head rest, runs rest with
      | Some y, c :: cs => if y =? x + 1 then (x :: c) :: cs else [x] :: c :: cs
      | _, _ => [[x]]
      end
  end.

(** Cutting a list after every position that is flagged. *)
Fixpoint cut {A} (l : list A) (flags : list bool) (cur : list A)
    : list (list A) :=
  match l, flags with
  | x :: l', b :: flags' =>
      if b then (cur ++ [x]) :: cut l' flags' [] else cut l' flags' (cur ++ [x])
  | _, _ => []
  end.

(** ** Sub-gaps of the liquid mode *)

(** Whether the smallest (first) and the largest (last) traced eigenvalue of
    a sample is negative. *)
Definition first_negative (row : list float) : bool :=
  match head row with Some v => (v <? 0)%float | None => false end.

Definition last_negative (row : list float) : bool :=
  match last row with Some v => (v <? 0)%float | None => false end.

(** The sample indices with a negative largest eigenvalue, and those with a
    negative smallest but not a negative largest eigenvalue. *)
Definition strong_indices (mevp : list (list float)) : list Z :=
  Z.of_nat <$> Np.where_ last_negative mevp.

Definition weak_indices (mevp : list (list float)) : list Z :=
  Z.of_nat <$> Np.where_ (λ row, first_negative row && negb (last_negative row))
                 mevp.

(** Eigenvalues in ascending order, as the eigenvalue solver returns them. *)
Definition ascending (row : list float) : Prop :=
  adjacent (λ a b, (a <=? b)%float = true) row.

(** The boundary pair [g] has the given flags and sits at the frequencies of
    the first and the last sample index of the run [c], with the largest
    eigenvalues traced there. *)
Definition run_boundaries (log_freqs : list float) (mevp : list (list float))
    (flag_min flag_max : Z) (c : list Z) (g : boundary * boundary) : Prop :=
  ∃ i0 i1 fmin fmax row0 row1 v0 v1,
    head c = Some (Z.of_nat i0) ∧ last c = Some (Z.of_nat i1)
    ∧ log_freqs !! i0 = Some fmin ∧ log_freqs !! i1 = Some fmax
    ∧ mevp !! i0 = Some row0 ∧ last row0 = Some v0
    ∧ mevp !! i1 = Some row1 ∧ last row1 = Some v1
    ∧ g = (Boundary flag_min fmin v0, Boundary flag_max fmax v1).

(** Five samples: a strong gap over the first two, and two separate weak
    gaps at the third and the fifth. *)
Definition example_trace : callback :=
  λ f, if (f <? 2.5)%float then Ret [(-2)%float; (-1)%float]
       else if (f <? 3.5)%float then Ret [(-1)%float; 1%float]
       else if (f <? 4.5)%float then Ret [1%float; 2%float]
       else Ret [(-1)%float; 3%float].

(** ** The mass tensor *)

(** An array of [n] rows with [k] entries each. *)
Definition shape (n k : nat) (m : list (list float)) : Prop :=
  length m = n ∧ Forall (λ row, length row = k) m.

(** The valid modes: the eigenvalue and the eigenmomentum row of every
    resonance whose mask entry is set. *)
Definition valid_modes (evp_eigs : list float) (em : eigenmomenta_info)
    : list (float * list float) :=
  Mat.select (zip evp_eigs (rows (eigenmomenta em))) (valid em).

Definition momentum (row : list float) (i : nat) : float :=
  default 0%float (row !! i).

(** [F[ir][ic]]: the sum over the modes of
    [(freq² / (freq² - eig_k)) * (momentum_k[ir] * momentum_k[ic])], added
    to the zero the tensor is initialised with. *)
Definition mode_sum (freq : float) (modes : list (float * list float))
    (ir ic : nat) : float :=
  (0 + Np.sum ((λ '(eig, m),
                  (freq * freq / (freq * freq - eig))
                  * (momentum m ir * momentum m ic)) <$> modes))%float.

(** The entry [(average_density * I - F / total_volume)[ir][ic]]. *)
Definition mass_entry (dv : dv_info) (freq : float)
    (modes : list (float * list float)) (ir ic : nat) : float :=
  ((if (ir =? ic)%nat then 1 else 0) * average_density dv
   - mode_sum freq modes ir ic / total_volume dv)%float.

(** The body of the two loops over an arbitrary summand [val ir ic]. *)
Definition fill (val : nat → nat → float) (ir ic : nat)
    (fmass : list (list float)) : list (list float) :=
  if (ir <=? ic)%nat then
    Mat.set fmass ir ic (Mat.get fmass ir ic + val ir ic)%float
  else Mat.set fmass ir ic (Mat.get fmass ic ir).

(** The value an entry holds once it has been visited. *)
Definition filled (val : nat → nat → float) (ir ic : nat) : float :=
  if (ir <=? ic)%nat then (0 + val ir ic)%float else (0 + val ic ir)%float.

(** Loop invariant: when the loops stand at row [r] and column [c], the
    entries visited so far hold their final value and the others are still
    zero. *)
Definition loop_inv (val : nat → nat → float) (n r c : nat)
    (m : list (list float)) : Prop :=
  shape n n m
  ∧ ∀ a b, (a < n)%nat → (b < n)%nat →
      Mat.get m a b
      = if decide (a < r ∨ (a = r ∧ b < c))%nat then filled val a b
        else 0%float.

(** ** Classification *)

(** The kind of a plain boundary pair, by its two flags. *)
Definition kind_table (gmin_flag gmax_flag : Z) : option kind :=
  match gmin_flag, gmax_flag with
  | 2, 2 => Some ("p", "propagation zone")%string
  | 1, 2 => Some ("w", "full weak band gap")%string
  | 0, 2 => Some ("wp", "weak band gap + propagation zone")%string
  | 1, 1 =>
      Some ("s", "full strong band gap (due to end of freq. range or too large thresholds)")%string
  | 1, 0 => Some ("sw", "strong band gap + weak band gap")%string
  | 0, 0 =>
      Some ("swp", "strong band gap + weak band gap + propagation zone")%string
  | _, _ => None
  end.

(** The kind of a sub-gap pair, by its two flags. *)
Definition subkind_table (gmin_flag gmax_flag : Z) : option kind :=
  match gmin_flag, gmax_flag with
  | 2, 2 => Some ("p", "propagation zone")%string
  | 1, 1 => Some ("is", "inner strong band gap")%string
  | 0, 2 => Some ("iw", "inner weak band gap")%string
  | _, _ => None
  end.

(** An entry of [kinds] that classifies the entry [g] of [gaps] by the
    tables alone. *)
Definition classified (g : gap) (k : kinds_item) : Prop :=
  match g, k with
  | GapPair gmin gmax, Kind kd => kind_table (flag gmin) (flag gmax) = Some kd
  | GapList subgaps, SubKinds kds =>
      Forall2 (λ '(gmin, gmax) kd,
                 subkind_table (flag gmin) (flag gmax) = Some kd)
              subgaps kds
  | _, _ => False
  end.

(** An entry of [gaps] whose flags are in the tables. *)
Definition classifiable (g : gap) : Prop :=
  match g with
  | GapPair gmin gmax => is_Some (kind_table (flag gmin) (flag gmax))
  | GapList subgaps =>
      Forall (λ '(gmin, gmax), is_Some (subkind_table (flag gmin) (flag gmax)))
             subgaps
  end.

(** What every entry of [kinds] satisfies: a plain pair has the kind of the
    table, a list of sub-gaps has a list of as many kinds. *)
Definition shaped (g : gap) (k : kinds_item) : Prop :=
  match g, k with
  | GapPair gmin gmax, Kind kd => kind_table (flag gmin) (flag gmax) = Some kd
  | GapList subgaps, SubKinds kds => length subgaps = length kds
  | _, _ => False
  end.

(** The kinds that [plot_gap] draws. *)
Definition drawable (k : string) : bool :=
  existsb (String.eqb k) ["p"; "w"; "wp"; "s"; "sw"; "swp"; "is"; "iw"]%string.

(** An entry of [kinds] that [plot_gaps] can draw for the entry [g] of
    [gaps]. *)
Definition plottable (g : gap) (k : kinds_item) : Prop :=
  match g, k with
  | GapPair _ _, Kind kd => drawable kd.1 = true
  | GapList subgaps, SubKinds kds =>
      length subgaps = length kds ∧ Forall (λ kd, drawable kd.1 = true) kds
  | _, _ => False
  end.

(** Rectangles that lie side by side from [x] to [y]. *)
Fixpoint chained {rsc : Type} (x : float) (rects : list (float * float * rsc))
    (y : float) : Prop :=
  match rects with
  | [] => x = y
  | (a, b, _) :: rest => a = x ∧ chained b rest y
  end.

(** What [plot_gaps] draws for the interval [ii]: for a plain pair, one to
    three rectangles side by side from [freq_range[ii]] to
    [freq_range[ii+1]]; for a list of sub-gaps, one to three rectangles for
    each of them. *)
Definition drawn_for {rsc : Type} (freq_range : list float) (ii : nat)
    (g : gap) (rects : list (float * float * rsc)) : Prop :=
  ∃ f0 f1,
    freq_range !! ii = Some f0 ∧ freq_range !! S ii = Some f1
    ∧ match g with
      | GapPair _ _ => (1 ≤ length rects ≤ 3)%nat ∧ chained f0 rects f1
      | GapList subgaps =>
          (length subgaps ≤ length rects ≤ 3 * length subgaps)%nat
      end.

(** ** Intervals decided without a root search *)


(** * Properties *)

(** ** Facts about binary64 numbers *)

Lemma float_eqb_zero (v : float) :
  (v =? 0)%float = true → v = 0%float ∨ v = (-0)%float.
Proof.
  rewrite FloatAxioms.eqb_spec. intros H.
  rewrite <- (SF2Prim_Prim2SF v).
  change (Prim2SF 0%float) with (S754_zero false) in H.
  destruct (Prim2SF v) as [[|]|[|]| |[|] m e]; try discriminate H.
  - right. reflexivity.
  - left. reflexivity.
Qed.

Lemma float_mul_comm (x y : float) : (x * y)%float = (y * x)%float.
Proof.
  apply Prim2SF_inj. rewrite !mul_spec. unfold SF64mul, SFmul.
  destruct (Prim2SF x) as [sx|sx| |sx mx ex], (Prim2SF y) as [sy|sy| |sy my ey];
    try reflexivity; try (rewrite xorb_comm; reflexivity).
  rewrite xorb_comm, Pos.mul_comm, Z.add_comm. reflexivity.
Qed.

(** ** The error monad *)

Lemma bind_Ret {A B} (m : outcome A) (f : A → outcome B) (b : B) :
  m ≫= f = Ret b → ∃ a, m = Ret a ∧ f a = Ret b.
Proof. destruct m as [a| |]; try discriminate. intros H. by exists a. Qed.

Lemma getitem_last {A} (l : list A) (x : A) :
  last l = Some x → Py.getitem l (-1) = Ret x.
Proof.
  intros H. unfold Py.getitem. simpl.
  assert (Hlen : (0 < length l)%nat).
  { destruct l; [discriminate | simpl; lia]. }
  destruct (Z.ltb_spec (Z.of_nat (length l) + -1) 0) as [?|_]; [lia|].
  replace (Z.to_nat (Z.of_nat (length l) + -1)) with (pred (length l)) by lia.
  rewrite last_lookup in H. by rewrite H.
Qed.

Lemma getitem_head {A} (l : list A) (x : A) :
  head l = Some x → Py.getitem l 0 = Ret x.
Proof. destruct l; [discriminate|]. by intros [= ->]. Qed.

(** ** [find_zero] *)

Lemma find_zero_loop_unfold fuel f0 f1 cb feps zeps mode ieig fm fp :
  find_zero_loop (S fuel) f0 f1 cb feps zeps mode ieig fm fp =
  (find_zero_step f0 f1 cb feps zeps mode ieig fm fp ≫= λ r,
     match r with
     | inl result => Ret result
     | inr (fm', fp') =>
         find_zero_loop fuel f0 f1 cb feps zeps mode ieig fm' fp'
     end).
Proof. reflexivity. Qed.

Lemma find_zero_loop_stuck f0 f1 cb feps zeps mode ieig fm fp :
  find_zero_step f0 f1 cb feps zeps mode ieig fm fp = Ret (inr (fm, fp)) →
  ∀ fuel, find_zero_loop fuel f0 f1 cb feps zeps mode ieig fm fp = OutOfFuel.
Proof.
  intros Hstep fuel. induction fuel as [|fuel IH]; [reflexivity|].
  rewrite find_zero_loop_unfold, Hstep. exact IH.
Qed.

Lemma find_zero_step_exit f0 f1 cb feps zeps mode ieig fm fp result :
  find_zero_step f0 f1 cb feps zeps mode ieig fm fp = Ret (inl result) →
  (cb (0.5 * (fm + fp))%float ≫= λ meigs, Py.getitem meigs ieig)
    = Ret result.2
  ∧ exit_condition f0 f1 feps zeps fm fp result.
Proof.
  unfold find_zero_step, exit_condition. intros H.
  apply bind_Ret in H as (meigs & Hcb & H).
  apply bind_Ret in H as (val & Hval & H).
  rewrite Hcb. simpl. rewrite Hval.
  destruct result as [[flg fr] v].
  repeat case_match; simplify_eq; (split; [reflexivity|]);
    rewrite ?orb_true_iff in *; try (left; by repeat split);
    try (right; left; by repeat split); right; right; by repeat split.
Qed.

Lemma find_zero_loop_exit fuel f0 f1 cb feps zeps mode ieig :
  ∀ fm fp result,
  find_zero_loop fuel f0 f1 cb feps zeps mode ieig fm fp = Ret result →
  ∃ fm' fp',
    (cb (0.5 * (fm' + fp'))%float ≫= λ meigs, Py.getitem meigs ieig)
      = Ret result.2
    ∧ exit_condition f0 f1 feps zeps fm' fp' result.
Proof.
  induction fuel as [|fuel IH]; intros fm fp result H; [discriminate|].
  rewrite find_zero_loop_unfold in H.
  apply bind_Ret in H as ([r|[fm' fp']] & Hstep & H).
  - injection H as ->. exists fm, fp. by apply find_zero_step_exit in Hstep.
  - by apply IH in H.
Qed.

Lemma find_zero_flag fuel f0 f1 cb feps zeps mode flg f val :
  find_zero fuel f0 f1 cb feps zeps mode = Ret (flg, f, val) →
  flg = 0 ∨ flg = 1 ∨ flg = 2.
Proof.
  unfold find_zero. intros H. apply bind_Ret in H as (ieig & _ & H).
  apply find_zero_loop_exit in H as (fm & fp & _ & Hexit).
  unfold exit_condition in Hexit.
  destruct Hexit as [(-> & _)|[(-> & _)|(-> & _)]]; auto.
Qed.

(** C2: a callback whose tracked eigenvalue is zero at 1.5 makes
    [find_zero(1, 2, callback, 1e-6, 1e-8, mode)] return flag 0 with a
    frequency closer than 1e-5 to 1.5, in either mode.  (The first midpoint
    is 1.5, so nothing else about the callback is needed: monotonic or not,
    the search stops there.) *)
Theorem find_zero_midpoint_root (cb : callback) (mode : Z) (val : float)
    (fuel : nat) :
  tracked_eigenvalue cb mode 1.5%float = Ret val →
  (val =? 0)%float = true →
  ∃ f, find_zero (S fuel) 1 2 cb 1e-6 1e-8 mode = Ret (0, f, val)
       ∧ (abs (f - 1.5) <? 1e-5)%float = true.
Proof.
  unfold tracked_eigenvalue, find_zero. intros Htr Hzero.
  exists 1.5%float. split; [|reflexivity].
  destruct (ieig_of_mode mode) as [ieig| |]; try discriminate. simpl in *.
  unfold find_zero_step.
  change (0.5 * (1 + 2))%float with 1.5%float.
  apply bind_Ret in Htr as (meigs & -> & Hval). simpl. rewrite Hval. simpl.
  assert ((abs val <? 1e-8)%float = true) as ->; [|reflexivity].
  destruct (float_eqb_zero _ Hzero) as [-> | ->]; reflexivity.
Qed.

Lemma find_zero_midpoint_root_witness :
  ∃ f, find_zero 1 1 2 (λ f, Ret [(f - 1.5)%float; 7%float]) 1e-6 1e-8 0
       = Ret (0, f, 0%float)
       ∧ (abs (f - 1.5) <? 1e-5)%float = true.
Proof.
  apply (find_zero_midpoint_root (λ f, Ret [(f - 1.5)%float; 7%float]) 0 0 0);
    reflexivity.
Defined.

Lemma tracked_eigenvalue_ieig (cb : callback) (mode ieig : Z) (f : float) :
  ieig_of_mode mode = Ret ieig →
  tracked_eigenvalue cb mode f = (cb f ≫= λ meigs, Py.getitem meigs ieig).
Proof. intros H. unfold tracked_eigenvalue. by rewrite H. Qed.

Lemma ieig_of_mode_Ret (mode ieig : Z) :
  ieig_of_mode mode = Ret ieig → mode = 0 ∨ mode = 1.
Proof.
  unfold ieig_of_mode.
  destruct (Z.eqb_spec mode 0); [by left|].
  destruct (Z.eqb_spec mode 1); [by right|discriminate].
Qed.

(** One pass of the loop, read as the stated conditions: it returns what
    they give, or halves the bracket when none is met. *)
Lemma find_zero_step_spec f0 f1 cb feps zeps mode ieig fm fp val :
  ieig_of_mode mode = Ret ieig →
  tracked_eigenvalue cb mode (0.5 * (fm + fp))%float = Ret val →
  let f := (0.5 * (fm + fp))%float in
  (∀ result, exits f0 f1 feps zeps mode fm fp val result →
     find_zero_step f0 f1 cb feps zeps mode ieig fm fp = Ret (inl result))
  ∧ (root_or_collapsed zeps fm fp val = false →
     (f - f0 <? feps)%float = false → (f1 - f <? feps)%float = false →
     find_zero_step f0 f1 cb feps zeps mode ieig fm fp
     = Ret (inr (if (0 <? val)%float then fm else f,
                 if (0 <? val)%float then f else fp))).
Proof.
  intros Hieig Hval f. rewrite (tracked_eigenvalue_ieig _ _ _ _ Hieig) in Hval.
  apply bind_Ret in Hval as (meigs & Hcb & Hval).
  subst f. unfold find_zero_step. rewrite Hcb. simpl. rewrite Hval. simpl.
  fold (root_or_collapsed zeps fm fp val).
  apply ieig_of_mode_Ret in Hieig.
  split.
  - unfold exits.
    intros result [(-> & ->) | [(-> & Hn0 & Hn1 & ->) | (-> & Hn1 & Hn0 & ->)]].
    + reflexivity.
    + rewrite Hn0. destruct Hieig as [-> | ->]; simpl; [reflexivity|].
      by rewrite Hn1.
    + rewrite Hn1. destruct Hieig as [-> | ->]; simpl; [|reflexivity].
      by rewrite Hn0.
  - intros -> -> ->.
    destruct Hieig as [-> | ->]; simpl; by destruct (0 <? val)%float.
Qed.

(** Conversely, whatever one pass does is what the stated conditions
    give. *)
Lemma find_zero_step_inv f0 f1 cb feps zeps mode ieig fm fp r :
  ieig_of_mode mode = Ret ieig →
  find_zero_step f0 f1 cb feps zeps mode ieig fm fp = Ret r →
  let f := (0.5 * (fm + fp))%float in
  ∃ val,
    tracked_eigenvalue cb mode f = Ret val
    ∧ match r with
      | inl result => exits f0 f1 feps zeps mode fm fp val result
      | inr (fm', fp') =>
          root_or_collapsed zeps fm fp val = false
          ∧ (f - f0 <? feps)%float = false
          ∧ (f1 - f <? feps)%float = false
          ∧ fm' = (if (0 <? val)%float then fm else f)
          ∧ fp' = (if (0 <? val)%float then f else fp)
      end.
Proof.
  intros Hieig H f. subst f. rewrite (tracked_eigenvalue_ieig _ _ _ _ Hieig).
  unfold find_zero_step in H.
  apply bind_Ret in H as (meigs & Hcb & H).
  apply bind_Ret in H as (val & Hval & H).
  exists val. rewrite Hcb. simpl. split; [exact Hval|].
  fold (root_or_collapsed zeps fm fp val) in H.
  unfold exits.
  apply ieig_of_mode_Ret in Hieig.
  destruct (root_or_collapsed zeps fm fp val).
  { injection H as <-. by left. }
  destruct Hieig as [-> | ->]; simpl in H.
  - destruct (0.5 * (fm + fp) - f0 <? feps)%float eqn:Hn0.
    { injection H as <-. right. left. by repeat split. }
    destruct (f1 - 0.5 * (fm + fp) <? feps)%float eqn:Hn1.
    { injection H as <-. right. right. by repeat split. }
    destruct (0 <? val)%float; injection H as <-; by repeat split.
  - destruct (f1 - 0.5 * (fm + fp) <? feps)%float eqn:Hn1.
    { injection H as <-. right. right. by repeat split. }
    destruct (0.5 * (fm + fp) - f0 <? feps)%float eqn:Hn0.
    { injection H as <-. right. left. by repeat split. }
    destruct (0 <? val)%float; injection H as <-; by repeat split.
Qed.

Lemma find_zero_loop_searched f0 f1 cb feps zeps mode ieig :
  ieig_of_mode mode = Ret ieig →
  ∀ fuel fm fp result,
  searched f0 f1 cb feps zeps mode fm fp →
  find_zero_loop fuel f0 f1 cb feps zeps mode ieig fm fp = Ret result →
  ∃ fm' fp' val,
    searched f0 f1 cb feps zeps mode fm' fp'
    ∧ tracked_eigenvalue cb mode (0.5 * (fm' + fp'))%float = Ret val
    ∧ exits f0 f1 feps zeps mode fm' fp' val result.
Proof.
  intros Hieig. induction fuel as [|fuel IH]; intros fm fp result Hs H;
    [discriminate|].
  rewrite find_zero_loop_unfold in H.
  apply bind_Ret in H as (r & Hstep & H).
  destruct (find_zero_step_inv _ _ _ _ _ _ _ _ _ _ Hieig Hstep)
    as (val & Hval & Hr).
  destruct r as [result'|[fm' fp']].
  - injection H as ->. by exists fm, fp, val.
  - destruct Hr as (Hroot & Hn0 & Hn1 & -> & ->).
    apply (IH _ _ _ (searched_halve _ _ _ _ _ _ _ _ _ Hs Hval Hroot Hn0 Hn1) H).
Qed.

Lemma searched_find_zero_loop f0 f1 cb feps zeps mode ieig result :
  ieig_of_mode mode = Ret ieig →
  ∀ fm fp,
  searched f0 f1 cb feps zeps mode fm fp →
  (∃ fuel, find_zero_loop fuel f0 f1 cb feps zeps mode ieig fm fp
           = Ret result) →
  ∃ fuel, find_zero_loop fuel f0 f1 cb feps zeps mode ieig f0 f1 = Ret result.
Proof.
  intros Hieig fm fp Hs. induction Hs as [|fm fp val Hs IH Hval Hroot Hn0 Hn1];
    [done|].
  intros [fuel H]. apply IH. exists (S fuel).
  rewrite find_zero_loop_unfold.
  destruct (find_zero_step_spec f0 f1 cb feps zeps mode ieig fm fp val
              Hieig Hval) as [_ Hhalve].
  rewrite (Hhalve Hroot Hn0 Hn1). exact H.
Qed.

(** C6: [find_zero] returns a result exactly when the search reaches a
    bracket [(fm, fp)] at whose midpoint one of the stated conditions gives
    that result: flag 0 with the midpoint when the tracked eigenvalue there
    is below [zeps] in magnitude or the bracket is narrower than
    [abs(fm) * eps]; otherwise flag 2 with [f0] when the midpoint is within
    [feps] of [f0], and flag 1 with [f1] when it is within [feps] of [f1].
    The brackets are those of the bisection that starts at [(f0, f1)].  And
    there is a callback without any sign change (constantly -1) for which
    the loop never ends, whatever the number of passes allowed. *)
Theorem find_zero_exits_and_divergence :
  (∀ f0 f1 cb feps zeps mode result,
     (∃ fuel, find_zero fuel f0 f1 cb feps zeps mode = Ret result)
     ↔ (∃ fm fp val,
          searched f0 f1 cb feps zeps mode fm fp
          ∧ tracked_eigenvalue cb mode (0.5 * (fm + fp))%float = Ret val
          ∧ exits f0 f1 feps zeps mode fm fp val result))
  ∧ (0x1.fffffffffffffp26 <? 0x1.0000000000001p27)%float = true
  ∧ (∀ fuel,
       find_zero fuel 0x1.fffffffffffffp26 0x1.0000000000001p27
         (λ _, Ret [(-1)%float]) 1e-8 1e-8 0 = OutOfFuel).
Proof.
  split; [|split; [reflexivity|]].
  - intros f0 f1 cb feps zeps mode result. split.
    + intros [fuel H]. unfold find_zero in H.
      apply bind_Ret in H as (ieig & Hieig & H).
      by apply (find_zero_loop_searched f0 f1 cb feps zeps mode ieig Hieig
                  fuel f0 f1 result (searched_start _ _ _ _ _ _)).
    + intros (fm & fp & val & Hs & Hval & Hexit).
      destruct (ieig_of_mode mode) as [ieig| |] eqn:Hieig;
        try (unfold tracked_eigenvalue in Hval; rewrite Hieig in Hval;
             discriminate Hval).
      destruct (searched_find_zero_loop f0 f1 cb feps zeps mode ieig result
                  Hieig fm fp Hs) as [fuel H].
      { exists 1%nat. rewrite find_zero_loop_unfold.
        destruct (find_zero_step_spec f0 f1 cb feps zeps mode ieig fm fp val
                    Hieig Hval) as [Hstop _].
        by rewrite (Hstop result Hexit). }
      exists fuel. unfold find_zero. by rewrite Hieig.
  - intros fuel.
    change (find_zero_loop fuel 0x1.fffffffffffffp26 0x1.0000000000001p27
              (λ _, Ret [(-1)%float]) 1e-8 1e-8 0 0
              0x1.fffffffffffffp26 0x1.0000000000001p27 = OutOfFuel).
    destruct fuel as [|fuel]; [reflexivity|].
    rewrite find_zero_loop_unfold.
    replace (find_zero_step _ _ _ _ _ _ _ _ _)
      with (@Ret (Z * float * float + float * float)
              (inr (0x1p27%float, 0x1.0000000000001p27%float)))
      by (vm_compute; reflexivity).
    change (find_zero_loop fuel 0x1.fffffffffffffp26 0x1.0000000000001p27
              (λ _, Ret [(-1)%float]) 1e-8 1e-8 0 0
              0x1p27 0x1.0000000000001p27 = OutOfFuel).
    apply find_zero_loop_stuck. vm_compute. reflexivity.
Qed.

Lemma find_zero_exits_and_divergence_witness :
  ∃ fm fp val,
    searched 1 2 (λ f, Ret [(f - 1.75)%float]) 1e-6 1e-8 0 fm fp
    ∧ tracked_eigenvalue (λ f, Ret [(f - 1.75)%float]) 0
        (0.5 * (fm + fp))%float = Ret val
    ∧ exits 1 2 1e-6 1e-8 0 fm fp val (0, 1.75%float, 0%float).
Proof.
  apply (proj1 (proj1 find_zero_exits_and_divergence 1%float 2%float
                  (λ f, Ret [(f - 1.75)%float]) 1e-6%float 1e-8%float 0
                  (0, 1.75%float, 0%float))).
  exists 2%nat. reflexivity.
Defined.

(** ** [describe_gaps] *)


(** C3: the sub-gap branch has no final [else].  A sub-gap pair that is
    not in the table, here (0, 0) after an inner strong gap (1, 1), is not
    refused: it takes over the kind of the pair before it.  The plain branch
    refuses the pair (2, 1), which is outside the table as well. *)
Theorem describe_gaps_subgap_not_refused (f1 f2 f3 f4 v1 v2 v3 v4 : float) :
  describe_gaps
    [GapList [(Boundary 1 f1 v1, Boundary 1 f2 v2);
              (Boundary 0 f3 v3, Boundary 0 f4 v4)]]
  = Ret [SubKinds [("is", "inner strong band gap")%string;
                   ("is", "inner strong band gap")%string]]
  ∧ describe_gaps [GapPair (Boundary 2 f1 v1) (Boundary 1 f2 v2)]
    = Raise TypeError.
Proof. split; reflexivity. Qed.

(** ** [AcousticMassTensor.evaluate] near a resonance *)

(** The error is raised exactly when a denominator [freq * freq - eig_k] is
    not finite. *)
Lemma evaluate_raises_iff (self : AcousticMassTensor.t) (freq : float) :
  AcousticMassTensor.evaluate self freq
    = Raise (ValueError "frequency %e too close to resonance!")
  ↔ Np.all_finite ((λ e, freq * freq - e)%float
                     <$> AcousticMassTensor.eigs self) = false.
Proof.
  unfold AcousticMassTensor.evaluate, AcousticMassTensor.get_coefs.
  destruct (Np.all_finite _); simpl; split; done.
Qed.

(** C7: at [freq = 2.0] with the single eigenvalue 4.0 the frequency is
    exactly the eigenfrequency; the denominator [freq * freq - 4.0] is the
    zero, which is finite, so no error is raised and the tensor returned has
    the entry minus infinity. *)
Theorem evaluate_at_resonance_returns_infinity :
  let self :=
    AcousticMassTensor.call [4%float] (DvInfo 1 1 ∅ ∅)
      (EigenmomentaInfo 0 (Array2 1 [[1%float]]) [true]) in
  (AcousticMassTensor.get_coefs self 2).2 = [0%float]
  ∧ AcousticMassTensor.evaluate self 2 = Ret [[neg_infinity]]
  ∧ is_finite neg_infinity = false.
Proof. repeat split; vm_compute; reflexivity. Qed.

(** ** [Eigenmomenta] thresholding *)

(** C8: when the rows of the computed eigenmomenta have the L2 norms
    [0.01, 5.0, 0.02], the relative threshold 0.1 gives the mask
    [False, True, False]; the first and the third row become rows of zeros,
    the second row is kept, and two rows are counted as zeroed. *)
Theorem eigenmomenta_threshold_example (n_c : nat)
    (eval_em : list float → outcome (list float))
    (transform : option (list float → nat * nat → list float * bool))
    (eig_vectors : list (list float)) (em : array2) :
  Eigenmomenta.compute_eigenmomenta n_c eval_em transform eig_vectors = Ret em →
  Eigenmomenta.norm_l2_along_axis em = [0.01; 5; 0.02]%float →
  ∃ r0 r1 r2,
    rows em = [r0; r1; r2]
    ∧ Eigenmomenta.call n_c eval_em transform 0.1 true eig_vectors
      = Ret (EigenmomentaInfo 2
               (Array2 (ncols em)
                  [replicate (length r0) 0%float; r1;
                   replicate (length r2) 0%float])
               [false; true; false]).
Proof.
  intros Hem Hmag. unfold Eigenmomenta.call. rewrite Hem. simpl.
  unfold Eigenmomenta.threshold_rows. rewrite Hmag.
  unfold Eigenmomenta.norm_l2_along_axis in Hmag.
  destruct (rows em) as [|r0 [|r1 [|r2 [|r3 rest]]]] eqn:Hrows;
    try discriminate Hmag.
  exists r0, r1, r2. split; [reflexivity|].
  change (Eigenmomenta.amax [0.01; 5; 0.02]%float) with (Ret 5%float).
  simpl. rewrite !(const_fmap (λ _ : float, 0%float) _ 0%float) by done.
  reflexivity.
Qed.

Lemma eigenmomenta_threshold_example_witness :
  ∃ r0 r1 r2,
    [[0.01; 0]; [3; 4]; [0; 0.02]]%float = [r0; r1; r2]
    ∧ Eigenmomenta.call 2 Ret None 0.1 true
        [[0.01; 0]; [3; 4]; [0; 0.02]]%float
      = Ret (EigenmomentaInfo 2
               (Array2 2
                  [replicate (length r0) 0%float; r1;
                   replicate (length r2) 0%float])
               [false; true; false]).
Proof.
  apply (eigenmomenta_threshold_example 2 Ret None
           [[0.01; 0]; [3; 4]; [0; 0.02]]%float
           (Array2 2 [[0.01; 0]; [3; 4]; [0; 0.02]]%float)).
  - reflexivity.
  - vm_compute. reflexivity.
Defined.

(** ** [DensityVolumeInfo] *)

Lemma accumulate_values vf materials regions :
  ∀ vds a t vs ds,
  region_values vf materials regions = Ret vds →
  ∃ vs' ds',
    DensityVolumeInfo.accumulate vf materials regions (a, t, vs, ds)
    = Ret (weighted_sum vds a, fold_left PrimFloat.add vds.*1 t, vs', ds').
Proof.
  induction regions as [|[region_name [mat_name item_name]] regions IH];
    intros vds a t vs ds H.
  - injection H as <-. by exists vs, ds.
  - unfold region_values in H. simpl in H.
    apply bind_Ret in H as ([vol density] & Hvd & H).
    apply bind_Ret in H as (vds' & Hrest & H). injection H as <-.
    simpl. destruct (vf !! _) as [vol'|]; [|discriminate].
    apply bind_Ret in Hvd as (density' & -> & [= -> ->]). simpl.
    apply (IH vds'). exact Hrest.
Qed.

(** C9 (amended): the consistency error is raised exactly when the test
    [abs(total_volume - true_volume) / true_volume < 1e-14] is not
    satisfied, where [total_volume] is the accumulated sum of the region
    volumes; when it is satisfied the result carries the weighted density
    sum divided by the supplied volume and the accumulated total volume.
    For the regions A (2, 10) and B (3, 20) a supplied total of 5.001 fails
    and a supplied total of 5 gives [average_density = 16] and
    [total_volume = 5]. *)
Theorem density_volume_info_consistency :
  (∀ regions vf materials true_volume vds,
     region_values vf materials regions = Ret vds →
     let total := Np.sum vds.*1 in
     (DensityVolumeInfo.call regions vf materials true_volume
        = Raise (ValueError "assertion failed!")
      ↔ (relative_deviation total true_volume <? 1e-14)%float = false)
     ∧ ((relative_deviation total true_volume <? 1e-14)%float = true →
        ∃ vs ds,
          DensityVolumeInfo.call regions vf materials true_volume
          = Ret (DvInfo (weighted_sum vds 0 / true_volume)%float total vs ds)))
  ∧ DensityVolumeInfo.call example_regions example_vf example_materials 5.001
    = Raise (ValueError "assertion failed!")
  ∧ ∃ vs ds,
      DensityVolumeInfo.call example_regions example_vf example_materials 5
      = Ret (DvInfo 16 5 vs ds).
Proof.
  split; [|split].
  - intros regions vf materials true_volume vds Hvds total.
    destruct (accumulate_values vf materials regions vds 0%float 0%float ∅ ∅
                Hvds) as (vs & ds & Hacc).
    unfold DensityVolumeInfo.call. rewrite Hacc. simpl.
    fold (Np.sum vds.*1). fold total.
    fold (relative_deviation total true_volume).
    destruct (relative_deviation total true_volume <? 1e-14)%float; simpl.
    + split; [done|]. intros _. by exists vs, ds.
    + done.
  - vm_compute. reflexivity.
  - vm_compute. eexists _, _. reflexivity.
Qed.

Lemma density_volume_info_consistency_witness :
  DensityVolumeInfo.call example_regions example_vf example_materials 5.001
    = Raise (ValueError "assertion failed!")
  ↔ (relative_deviation (Np.sum [(2%float, 10%float); (3%float, 20%float)].*1)
       5.001 <? 1e-14)%float = false.
Proof.
  apply (proj1 density_volume_info_consistency example_regions example_vf
           example_materials 5.001%float
           [(2%float, 10%float); (3%float, 20%float)]).
  vm_compute. reflexivity.
Defined.

(** C9 as stated fails at the boundary.  With one region of volume
    [5^14 + 2^-14] and the supplied total [5^14], the deviation is [2^-14]
    and the relative deviation is 1e-14, not more: the quotient computed is
    the binary64 value of 1e-14 itself, the test [< 1e-14] is not satisfied
    and the consistency error is raised. *)
Lemma density_volume_info_boundary_fails :
  let regions := [("A", ("matA", "density"))]%string in
  let vf : gmap string float :=
    {["volume_A"%string := 6103515625.00006103515625%float]} in
  let true_volume := 6103515625%float in
  ¬ (DensityVolumeInfo.call regions vf example_materials true_volume
       = Raise (ValueError "assertion failed!")
     ↔ (1e-14 <? relative_deviation
                   (Np.sum [6103515625.00006103515625%float]) true_volume)%float
       = true).
Proof.
  intros regions vf true_volume [Hfails _].
  assert (Hraise : DensityVolumeInfo.call regions vf example_materials
                     true_volume = Raise (ValueError "assertion failed!"))
    by (vm_compute; reflexivity).
  apply Hfails in Hraise. vm_compute in Hraise. discriminate Hraise.
Qed.

(** ** [detect_band_gaps], normal mode *)

Lemma detect_intervals_lookup warped fuel fz trace o gap_kind df fm :
  ∀ iis rs,
  detect_intervals warped fuel fz trace o gap_kind df fm iis = Ret rs →
  ∀ k ii, iis !! k = Some ii →
  ∃ f0 f1 r,
    Py.getitem fm (Z.of_nat ii) = Ret f0
    ∧ Py.getitem fm (Z.of_nat ii + 1) = Ret f1
    ∧ detect_interval warped fuel fz trace o gap_kind df f0 f1 = Ret r
    ∧ rs !! k = Some r.
Proof.
  induction iis as [|i iis IH]; intros rs H k ii Hk; [done|].
  simpl in H.
  apply bind_Ret in H as (f0 & Hf0 & H).
  apply bind_Ret in H as (f1 & Hf1 & H).
  apply bind_Ret in H as (r & Hr & H).
  apply bind_Ret in H as (rs' & Hrs & H). injection H as <-.
  destruct k as [|k]; simpl in Hk.
  - injection Hk as ->. by exists f0, f1, r.
  - destruct (IH rs' Hrs k ii Hk) as (g0 & g1 & r' & ? & ? & ? & ?).
    by exists g0, g1, r'.
Qed.

Lemma detect_intervals_length warped fuel fz trace o gap_kind df fm :
  ∀ iis rs,
  detect_intervals warped fuel fz trace o gap_kind df fm iis = Ret rs →
  length rs = length iis.
Proof.
  induction iis as [|i iis IH]; intros rs H; simpl in H.
  - by injection H as <-.
  - apply bind_Ret in H as (f0 & _ & H).
    apply bind_Ret in H as (f1 & _ & H).
    apply bind_Ret in H as (r & _ & H).
    apply bind_Ret in H as (rs' & Hrs & H). injection H as <-.
    simpl. f_equal. by apply IH.
Qed.

(** The entries of [gaps] and of the two logs for the interval [ii] are
    those that the loop body produces for [(fm[ii], fm[ii+1])]. *)
Lemma detect_band_gaps_interval warped fuel fz trace fi o gap_kind
    log_freqs log_eigs gaps kinds :
  detect_band_gaps warped fuel fz trace fi o gap_kind
    = Ret (log_freqs, log_eigs, gaps, kinds) →
  ∀ ii, (ii ≤ length (freq_range fi))%nat →
  ∃ min_freq max_freq f0 f1 r,
    Py.getitem (freq_range_margins fi) 0 = Ret min_freq
    ∧ Py.getitem (freq_range_margins fi) (-1) = Ret max_freq
    ∧ Py.getitem (freq_range_margins fi) (Z.of_nat ii) = Ret f0
    ∧ Py.getitem (freq_range_margins fi) (Z.of_nat ii + 1) = Ret f1
    ∧ detect_interval warped fuel fz trace o gap_kind
        (freq_step o * (max_freq - min_freq))%float f0 f1 = Ret r
    ∧ gaps !! ii = Some (ir_gap r)
    ∧ log_freqs !! ii = Some (ir_log_freqs r)
    ∧ log_eigs !! ii = Some (ir_log_mevp r).
Proof.
  unfold detect_band_gaps. intros H ii Hii.
  apply bind_Ret in H as (min_freq & Hmin & H).
  apply bind_Ret in H as (max_freq & Hmax & H).
  apply bind_Ret in H as (rs & Hrs & H).
  apply bind_Ret in H as (kinds' & _ & H). injection H as <- <- <- <-.
  destruct (detect_intervals_lookup _ _ _ _ _ _ _ _ _ _ Hrs ii ii)
    as (f0 & f1 & r & Hf0 & Hf1 & Hr & Hlook).
  { apply lookup_seq. lia. }
  exists min_freq, max_freq, f0, f1, r.
  rewrite !list_lookup_fmap, Hlook. done.
Qed.







(** ** [split_chunks] *)

Lemma slice_middle {A} (pre cur suf : list A) (x : A) :
  Py.slice (pre ++ cur ++ x :: suf) (length pre) (length (pre ++ cur) + 1)
  = cur ++ [x].
Proof.
  unfold Py.slice. rewrite drop_app_length, length_app.
  replace (length pre + length cur + 1 - length pre)%nat
    with (length (cur ++ [x])) by (rewrite length_app; simpl; lia).
  replace (cur ++ x :: suf) with ((cur ++ [x]) ++ suf)
    by (rewrite <- app_assoc; reflexivity).
  apply take_app_length.
Qed.

(** The loop of [split_chunks] over the positions found by [nm.where] cuts
    the vector after each of them. *)
Lemma split_loop_cut (cond : Z → bool) :
  ∀ (suf : list Z) (delta : list Z) (pre cur : list Z) (chunks : list (list Z)),
  length delta = length suf →
  (fold_left
     (λ '(chunks, ic0) ic,
        (chunks ++ [Py.slice (pre ++ cur ++ suf) ic0 (ic + 1)], (ic + 1)%nat))
     (Np.where_from cond (length (pre ++ cur)) delta)
     (chunks, length pre)).1
  = chunks ++ cut suf (cond <$> delta) cur.
Proof.
  induction suf as [|x suf IH]; intros delta pre cur chunks Hlen.
  - destruct delta; [|discriminate]. simpl. by rewrite app_nil_r.
  - destruct delta as [|d delta]; [discriminate|].
    injection Hlen as Hlen. simpl.
    destruct (cond d).
    + simpl. rewrite slice_middle.
      specialize (IH delta (pre ++ cur ++ [x]) [] (chunks ++ [cur ++ [x]]) Hlen).
      rewrite app_nil_r in IH.
      replace ((pre ++ cur ++ [x]) ++ [] ++ suf) with (pre ++ cur ++ x :: suf)
        in IH by (rewrite <- !app_assoc; reflexivity).
      replace (length (pre ++ cur ++ [x])) with (S (length (pre ++ cur)))
        in IH by (rewrite !length_app; simpl; lia).
      replace (length (pre ++ cur) + 1)%nat with (S (length (pre ++ cur)))
        by lia.
      rewrite IH, <- app_assoc. reflexivity.
    + specialize (IH delta pre (cur ++ [x]) chunks Hlen).
      replace (pre ++ (cur ++ [x]) ++ suf) with (pre ++ cur ++ x :: suf)
        in IH by (rewrite <- !app_assoc; reflexivity).
      replace (length (pre ++ cur ++ [x])) with (S (length (pre ++ cur)))
        in IH by (rewrite !length_app; simpl; lia).
      exact IH.
Qed.

Lemma length_ediff1d (l : list Z) (e : Z) :
  l ≠ [] → length (Np.ediff1d l e) = length l.
Proof.
  unfold Np.ediff1d. intros Hl. rewrite length_app. simpl.
  induction l as [|x [|y l] IH]; [done|reflexivity|].
  simpl in *. rewrite <- IH by done. lia.
Qed.

Lemma split_chunks_cut (indx : list Z) :
  split_chunks indx = cut indx ((λ d, 1 <? d) <$> Np.ediff1d indx 2) [].
Proof.
  unfold split_chunks. destruct indx as [|x indx]; [reflexivity|].
  change (length (x :: indx) =? 0)%nat with false. cbv iota.
  unfold Np.where_.
  apply (split_loop_cut (λ d, 1 <? d) (x :: indx) _ [] [] []).
  by apply length_ediff1d.
Qed.

Lemma int64_wrap_small (z : Z) : - 2 ^ 63 <= z < 2 ^ 63 → Np.int64_wrap z = z.
Proof.
  intros H. unfold Np.int64_wrap.
  rewrite Z.mod_small; lia.
Qed.

Lemma runs_nonempty (x : Z) (l : list Z) : runs (x :: l) ≠ [].
Proof.
  simpl. destruct (head l) as [y|], (runs l) as [|c cs]; try done.
  by destruct (y =? x + 1).
Qed.

Lemma cut_cons {A} (x : A) (l : list A) (b : bool) (flags : list bool)
    (cur : list A) :
  cut (x :: l) (b :: flags) cur
  = if b then (cur ++ [x]) :: cut l flags [] else cut l flags (cur ++ [x]).
Proof. reflexivity. Qed.

Lemma cut_runs :
  ∀ (l : list Z) (cur : list Z),
  strictly_increasing l → differences_fit l → l ≠ [] →
  cut l ((λ d, 1 <? d) <$> Np.ediff1d l 2) cur
  = match runs l with
    | c :: cs => (cur ++ c) :: cs
    | [] => []
    end.
Proof.
  induction l as [|x l IH]; intros cur Hinc Hfit Hne; [done|].
  destruct l as [|y l].
  - reflexivity.
  - destruct Hinc as [Hxy Hinc], Hfit as [Hd Hfit].
    change (Np.ediff1d (x :: y :: l) 2)
      with (Np.int64_wrap (y - x) :: Np.ediff1d (y :: l) 2).
    rewrite int64_wrap_small by lia.
    rewrite fmap_cons.
    change (runs (x :: y :: l))
      with (match runs (y :: l) with
            | c :: cs => if y =? x + 1 then (x :: c) :: cs else [x] :: c :: cs
            | [] => [[x]]
            end).
    set (flags := (λ d, 1 <? d) <$> Np.ediff1d (y :: l) 2) in *.
    pose proof (runs_nonempty y l) as Hruns.
    rewrite cut_cons.
    destruct (Z.ltb_spec 1 (y - x)) as [Hgap|Hgap].
    + rewrite (IH [] Hinc Hfit) by done.
      destruct (runs (y :: l)) as [|c cs]; [done|].
      destruct (Z.eqb_spec y (x + 1)); [lia|]. reflexivity.
    + rewrite (IH (cur ++ [x]) Hinc Hfit) by done.
      destruct (runs (y :: l)) as [|c cs]; [done|].
      destruct (Z.eqb_spec y (x + 1)); [|lia].
      by rewrite <- app_assoc.
Qed.

Lemma split_chunks_runs (indx : list Z) :
  strictly_increasing indx → differences_fit indx →
  split_chunks indx = runs indx.
Proof.
  intros Hinc Hfit. rewrite split_chunks_cut.
  destruct indx as [|x l]; [reflexivity|].
  rewrite cut_runs by done.
  by destruct (runs (x :: l)).
Qed.

Lemma runs_maximal :
  ∀ l : list Z,
  maximal_runs l (runs l)
  ∧ ∀ x l', l = x :: l' → ∃ c cs, runs l = (x :: c) :: cs.
Proof.
  unfold maximal_runs.
  induction l as [|x rest IH].
  { repeat split; [constructor|done]. }
  destruct IH as ((Hcat & Hall & Hsep) & Hhead).
  destruct rest as [|y rest'].
  { simpl. repeat split.
    - repeat constructor. done.
    - intros ? ? [= <- <-]. by exists [], []. }
  destruct (Hhead y rest' eq_refl) as (c & cs & Hruns).
  change (runs (x :: y :: rest'))
    with (match runs (y :: rest') with
          | c :: cs => if y =? x + 1 then (x :: c) :: cs else [x] :: c :: cs
          | [] => [[x]]
          end).
  rewrite Hruns in *.
  apply Forall_cons in Hall as [[_ Hc] Hall].
  destruct (Z.eqb_spec y (x + 1)) as [Hy|Hy].
  - repeat split.
    + simpl in *. by rewrite Hcat.
    + constructor; [|done]. split; [done|]. by split.
    + destruct cs as [|d cs]; [done|]. destruct Hsep as [Hcd Hsep].
      split; [|done]. intros a b Ha Hb. apply (Hcd a b); [|done].
      by rewrite last_cons_cons in Ha.
    + intros ? ? [= <- <-]. by exists (y :: c), cs.
  - repeat split.
    + simpl in *. by rewrite Hcat.
    + constructor; [done|]. constructor; [|done]. done.
    + intros a b [= <-] [= <-]. done.
    + done.
    + intros ? ? [= <- <-]. by exists [], ((y :: c) :: cs).
Qed.

(** Vectors of non-negative [int64] indices have differences that fit. *)
Lemma indices_differences_fit (l : list Z) :
  Forall (λ z, 0 <= z < 2 ^ 63) l → differences_fit l.
Proof.
  unfold differences_fit.
  induction l as [|x [|y l] IH]; intros H; [done..|].
  apply Forall_cons in H as [Hx H].
  pose proof H as Hy. apply Forall_cons in Hy as [Hy _].
  split; [lia|by apply IH].
Qed.

(** C10 (amended): for a strictly increasing vector of [int64] integers
    whose neighbouring elements differ by less than 2^63, [split_chunks]
    returns exactly the maximal runs of consecutive integers, in order; in
    particular their concatenation is the vector.  The empty vector gives
    the empty list. *)
Theorem split_chunks_maximal_runs (indx : list Z) :
  strictly_increasing indx → differences_fit indx →
  maximal_runs indx (split_chunks indx)
  ∧ concat (split_chunks indx) = indx
  ∧ split_chunks [] = [].
Proof.
  intros Hinc Hfit. rewrite split_chunks_runs by done.
  destruct (runs_maximal indx) as [Hmax _].
  repeat split; try apply Hmax.
Qed.

Lemma split_chunks_maximal_runs_witness :
  maximal_runs [0; 1; 2; 5; 6; 9] (split_chunks [0; 1; 2; 5; 6; 9])
  ∧ concat (split_chunks [0; 1; 2; 5; 6; 9]) = [0; 1; 2; 5; 6; 9]
  ∧ split_chunks [] = [].
Proof.
  apply (split_chunks_maximal_runs [0; 1; 2; 5; 6; 9]).
  - unfold strictly_increasing. simpl. lia.
  - unfold differences_fit. simpl. lia.
Defined.

(** C10 as stated fails for a vector that is strictly increasing but whose
    two elements lie further apart than [int64] can express: the difference
    wraps around to -1, no cut is made, and the single chunk returned is
    not a run of consecutive integers. *)
Lemma split_chunks_wraparound :
  strictly_increasing [- 2 ^ 63; 2 ^ 63 - 1]
  ∧ Np.int64_range (- 2 ^ 63) ∧ Np.int64_range (2 ^ 63 - 1)
  ∧ split_chunks [- 2 ^ 63; 2 ^ 63 - 1] = [[- 2 ^ 63; 2 ^ 63 - 1]]
  ∧ ¬ maximal_runs [- 2 ^ 63; 2 ^ 63 - 1]
        (split_chunks [- 2 ^ 63; 2 ^ 63 - 1]).
Proof.
  repeat split; try (unfold Np.int64_range; lia); try done.
  intros (_ & Hall & _).
  apply Forall_cons in Hall as [[_ [Hc _]] _]. lia.
Qed.

(** ** [detect_band_gaps], liquid mode *)

Lemma float_le_lt_zero (a b : float) :
  (a <=? b)%float = true → (b <? 0)%float = true → (a <? 0)%float = true.
Proof.
  rewrite leb_spec, !ltb_spec.
  change (Prim2SF 0%float) with (S754_zero false).
  unfold SFleb, SFltb, SFcompare.
  destruct (Prim2SF a) as [[|]|[|]| |[|] ma ea],
    (Prim2SF b) as [[|]|[|]| |[|] mb eb]; try done.
Qed.

Lemma where_from_fmap {A B} (f : A → B) (cond : B → bool) (l : list A) :
  ∀ i, Np.where_from cond i (f <$> l) = Np.where_from (cond ∘ f) i l.
Proof.
  induction l as [|x l IH]; intros i; [done|].
  simpl. rewrite IH. reflexivity.
Qed.

Lemma where_from_bounds {A} (cond : A → bool) (l : list A) :
  ∀ i, Forall (λ k, i ≤ k < i + length l)%nat (Np.where_from cond i l).
Proof.
  induction l as [|x l IH]; intros i; [constructor|].
  simpl. specialize (IH (S i)).
  assert (Forall (λ k, i ≤ k < i + S (length l))%nat
            (Np.where_from cond (S i) l)).
  { eapply Forall_impl; [exact IH|]. simpl. lia. }
  destruct (cond x); [constructor; [lia|done]|done].
Qed.

Lemma where_from_increasing {A} (cond : A → bool) (l : list A) :
  ∀ i, strictly_increasing (Z.of_nat <$> Np.where_from cond i l).
Proof.
  unfold strictly_increasing.
  induction l as [|x l IH]; intros i; [done|].
  simpl. destruct (cond x); [|apply IH].
  specialize (IH (S i)). pose proof (where_from_bounds cond l (S i)) as Hb.
  destruct (Np.where_from cond (S i) l) as [|k ks]; [done|].
  apply Forall_cons in Hb as [Hk _]. split; [lia|exact IH].
Qed.

Lemma where_from_length {A} (cond : A → bool) (l : list A) :
  ∀ i, (length (Np.where_from cond i l) ≤ length l)%nat.
Proof.
  induction l as [|x l IH]; intros i; [done|].
  simpl. specialize (IH (S i)). destruct (cond x); simpl; lia.
Qed.

Lemma where_from_length_lt {A} (cond : A → bool) (l : list A) (x : A) :
  x ∈ l → cond x = false →
  ∀ i, (length (Np.where_from cond i l) < length l)%nat.
Proof.
  intros Hx Hc. induction Hx as [x l|x y l Hx IH]; intros i; simpl.
  - rewrite Hc. pose proof (where_from_length cond l (S i)). lia.
  - specialize (IH Hc (S i)). destruct (cond y); simpl; lia.
Qed.

Lemma where_from_nonempty {A} (cond : A → bool) (l : list A) (x : A) :
  x ∈ l → cond x = true → ∀ i, Np.where_from cond i l ≠ [].
Proof.
  intros Hx Hc. induction Hx as [x l|x y l Hx IH]; intros i; simpl.
  - by rewrite Hc.
  - destruct (cond y); [done|]. by apply IH.
Qed.

Lemma insert_unique_below (x : nat) (l : list nat) :
  Forall (λ k, x < k)%nat l → Np.insert_unique x l = x :: l.
Proof.
  destruct l as [|y l]; [done|]. intros H.
  apply Forall_cons in H as [Hy _]. simpl.
  destruct (Nat.ltb_spec x y); [done|lia].
Qed.

Lemma unique_where_from {A} (cond : A → bool) (l : list A) :
  ∀ i, Np.unique (Np.where_from cond i l) = Np.where_from cond i l.
Proof.
  unfold Np.unique.
  induction l as [|x l IH]; intros i; [done|].
  simpl. destruct (cond x); [|apply IH].
  simpl. rewrite IH. apply insert_unique_below.
  eapply Forall_impl; [apply where_from_bounds|]. simpl. lia.
Qed.

Lemma mem_below (x : nat) (k : list nat) :
  Forall (λ j, x < j)%nat k → Np.mem x k = false.
Proof.
  unfold Np.mem. induction k as [|j k IH]; intros H; [done|].
  apply Forall_cons in H as [Hj H]. simpl.
  destruct (Nat.eqb_spec x j); [lia|]. by apply IH.
Qed.

Lemma remove_all_skip (i : nat) (l k : list nat) :
  Forall (λ j, i < j)%nat l →
  Np.remove_all l (i :: k) = Np.remove_all l k.
Proof.
  induction l as [|x l IH]; intros H; [done|].
  apply Forall_cons in H as [Hx H]. simpl.
  destruct (Nat.eqb_spec x i); [lia|]. simpl.
  by rewrite IH.
Qed.

(** [setdiff1d] of two position vectors over one array. *)
Lemma setdiff1d_where {A} (c1 c2 : A → bool) (l : list A) :
  Np.setdiff1d (Np.where_ c1 l) (Np.where_ c2 l)
  = Np.where_ (λ x, c1 x && negb (c2 x)) l.
Proof.
  unfold Np.setdiff1d, Np.where_. rewrite unique_where_from.
  generalize 0%nat.
  induction l as [|x l IH]; intros i; [done|].
  assert (Hlt : ∀ c : A → bool,
            Forall (λ j, i < j)%nat (Np.where_from c (S i) l)).
  { intros c. eapply Forall_impl; [apply where_from_bounds|]. simpl. lia. }
  simpl. destruct (c1 x), (c2 x); simpl.
  - rewrite Nat.eqb_refl. simpl. rewrite remove_all_skip by done. apply IH.
  - rewrite mem_below by done. f_equal. apply IH.
  - rewrite remove_all_skip by done. apply IH.
  - apply IH.
Qed.

Lemma mapM_Ret_Forall2 {A B} (f : A → outcome B) (l : list A) :
  ∀ k, mapM f l = Ret k ↔ Forall2 (λ x y, f x = Ret y) l k.
Proof.
  induction l as [|x l IH]; intros k; simpl.
  - split.
    + intros [= <-]. constructor.
    + intros H. by apply Forall2_nil_inv_l in H as ->.
  - split.
    + intros H. apply bind_Ret in H as (y & Hy & H).
      apply bind_Ret in H as (k' & Hk & [= <-]).
      constructor; [done|]. by apply IH.
    + intros H. apply Forall2_cons_inv_l in H as (y & k' & Hy & Hk & ->).
      rewrite Hy. simpl. apply IH in Hk. rewrite Hk. reflexivity.
Qed.

Lemma mapM_Ret_length {A B} (f : A → outcome B) (l : list A) (k : list B) :
  mapM f l = Ret k → length k = length l.
Proof.
  intros H. apply mapM_Ret_Forall2 in H. symmetry. by eapply Forall2_length.
Qed.

Lemma mapM_total {A B} (f : A → outcome B) (R : A → B → Prop) (l : list A) :
  Forall (λ x, ∃ y, f x = Ret y ∧ R x y) l →
  ∃ k, mapM f l = Ret k ∧ Forall2 R l k.
Proof.
  induction 1 as [|x l (y & Hy & HR) _ (k & Hk & HRk)].
  - exists []. split; [done|constructor].
  - exists (y :: k). simpl. rewrite Hy. simpl. rewrite Hk.
    split; [done|by constructor].
Qed.

Lemma getitem_nat {A} (l : list A) (i : nat) (x : A) :
  l !! i = Some x → Py.getitem l (Z.of_nat i) = Ret x.
Proof.
  intros H. unfold Py.getitem.
  destruct (Z.ltb_spec (Z.of_nat i) 0); [lia|].
  destruct (Z.ltb_spec (Z.of_nat i) 0); [lia|].
  by rewrite Nat2Z.id, H.
Qed.

Lemma getitem_ends {A} (l : list A) :
  l ≠ [] → ∃ x y, head l = Some x ∧ last l = Some y
                  ∧ Py.getitem l 0 = Ret x ∧ Py.getitem l (-1) = Ret y.
Proof.
  intros Hl.
  destruct (proj2 (head_is_Some l) Hl) as [x Hx].
  destruct (proj2 (last_is_Some l) Hl) as [y Hy].
  exists x, y. repeat split; [done|done|by apply getitem_head|by apply getitem_last].
Qed.

Lemma Forall_concat_inv {A} (P : A → Prop) (ls : list (list A)) :
  Forall P (concat ls) → Forall (Forall P) ls.
Proof.
  induction ls as [|l ls IH]; simpl; intros H; [constructor|].
  apply Forall_app in H as [Hl Hls]. constructor; [done|by apply IH].
Qed.

Lemma ascending_negative (row : list float) :
  ascending row → last_negative row = true → first_negative row = true.
Proof.
  unfold ascending, last_negative, first_negative.
  induction row as [|a [|b row] IH]; [done..|].
  intros [Hab Hasc]. rewrite last_cons_cons. intros Hlast.
  specialize (IH Hasc Hlast). simpl in *.
  by eapply float_le_lt_zero.
Qed.

Lemma column_first (mevp : list (list float)) :
  Forall (λ row, row ≠ []) mevp →
  ∃ col, mapM (λ row, Py.getitem row 0) mevp = Ret col
         ∧ Np.where_ (λ v, (v <? 0)%float) col = Np.where_ first_negative mevp.
Proof.
  intros Hne.
  destruct (mapM_total (λ row, Py.getitem row 0)
              (λ row v, head row = Some v) mevp) as (col & Hcol & Hrel).
  { eapply Forall_impl; [exact Hne|]. intros row Hrow.
    destruct (getitem_ends row Hrow) as (x & y & ? & ? & ? & ?). by exists x. }
  exists col. split; [done|]. clear Hcol Hne.
  unfold Np.where_. generalize 0%nat.
  induction Hrel as [|row v mevp' col' Hv _ IH]; intros i; [done|].
  simpl. rewrite !IH.
  replace (first_negative row) with (v <? 0)%float
    by (unfold first_negative; by rewrite Hv).
  reflexivity.
Qed.

Lemma column_last (mevp : list (list float)) :
  Forall (λ row, row ≠ []) mevp →
  ∃ col, mapM (λ row, Py.getitem row (-1)) mevp = Ret col
         ∧ Np.where_ (λ v, (v <? 0)%float) col = Np.where_ last_negative mevp.
Proof.
  intros Hne.
  destruct (mapM_total (λ row, Py.getitem row (-1))
              (λ row v, last row = Some v) mevp) as (col & Hcol & Hrel).
  { eapply Forall_impl; [exact Hne|]. intros row Hrow.
    destruct (getitem_ends row Hrow) as (x & y & ? & ? & ? & ?). by exists y. }
  exists col. split; [done|]. clear Hcol Hne.
  unfold Np.where_. generalize 0%nat.
  induction Hrel as [|row v mevp' col' Hv _ IH]; intros i; [done|].
  simpl. rewrite !IH.
  replace (last_negative row) with (v <? 0)%float
    by (unfold last_negative; by rewrite Hv).
  reflexivity.
Qed.

Lemma chunk_gap_run (log_freqs : list float) (mevp : list (list float))
    (flag_min flag_max : Z) (c : list Z) :
  length log_freqs = length mevp →
  Forall (λ row, row ≠ []) mevp →
  c ≠ [] →
  Forall (λ z, ∃ k, z = Z.of_nat k ∧ (k < length mevp)%nat) c →
  ∃ g, chunk_gap log_freqs mevp flag_min flag_max c = Ret g
       ∧ run_boundaries log_freqs mevp flag_min flag_max c g.
Proof.
  intros Hlen Hne Hc Hidx.
  destruct (getitem_ends c Hc) as (z0 & z1 & Hh & Hl & Hg0 & Hg1).
  assert (Hz0 : z0 ∈ c) by (by eapply head_Some_elem_of).
  assert (Hz1 : z1 ∈ c) by (by eapply last_Some_elem_of).
  rewrite Forall_forall in Hidx.
  destruct (Hidx _ Hz0) as (i0 & -> & Hi0).
  destruct (Hidx _ Hz1) as (i1 & -> & Hi1).
  destruct (lookup_lt_is_Some_2 log_freqs i0) as [fmin Hfmin]; [lia|].
  destruct (lookup_lt_is_Some_2 log_freqs i1) as [fmax Hfmax]; [lia|].
  destruct (lookup_lt_is_Some_2 mevp i0) as [row0 Hrow0]; [lia|].
  destruct (lookup_lt_is_Some_2 mevp i1) as [row1 Hrow1]; [lia|].
  rewrite Forall_forall in Hne.
  destruct (getitem_ends row0) as (_ & v0 & _ & Hv0 & _ & Hgv0).
  { apply Hne. by eapply list_elem_of_lookup_2. }
  destruct (getitem_ends row1) as (_ & v1 & _ & Hv1 & _ & Hgv1).
  { apply Hne. by eapply list_elem_of_lookup_2. }
  exists (Boundary flag_min fmin v0, Boundary flag_max fmax v1). split.
  - unfold chunk_gap. rewrite Hg0. simpl. rewrite Hg1. simpl.
    rewrite (getitem_nat _ _ _ Hfmin). simpl.
    rewrite (getitem_nat _ _ _ Hfmax). simpl.
    rewrite (getitem_nat _ _ _ Hrow0). simpl. rewrite Hgv0. simpl.
    rewrite (getitem_nat _ _ _ Hrow1). simpl. rewrite Hgv1. reflexivity.
  - by exists i0, i1, fmin, fmax, row0, row1, v0, v1.
Qed.

Lemma where_indices_bounded {A} (cond : A → bool) (l : list A) :
  Forall (λ z, ∃ k, z = Z.of_nat k ∧ (k < length l)%nat)
         (Z.of_nat <$> Np.where_ cond l).
Proof.
  apply Forall_fmap. eapply Forall_impl; [apply where_from_bounds|].
  simpl. intros k Hk. exists k. split; [done|lia].
Qed.

(** One boundary pair per maximal run of the positions at which a condition
    on the samples holds. *)
Lemma runs_gaps (log_freqs : list float) (mevp : list (list float))
    (flag_min flag_max : Z) (cond : list float → bool) :
  length log_freqs = length mevp →
  Z.of_nat (length mevp) < 2 ^ 63 →
  Forall (λ row, row ≠ []) mevp →
  ∃ gs,
    mapM (chunk_gap log_freqs mevp flag_min flag_max)
         (split_chunks (Z.of_nat <$> Np.where_ cond mevp)) = Ret gs
    ∧ Forall2 (run_boundaries log_freqs mevp flag_min flag_max)
              (runs (Z.of_nat <$> Np.where_ cond mevp)) gs.
Proof.
  intros Hlen Hbig Hne.
  pose proof (where_indices_bounded cond mevp) as Hidx.
  set (idx := Z.of_nat <$> Np.where_ cond mevp) in *.
  rewrite split_chunks_runs.
  - apply mapM_total.
    destruct (runs_maximal idx) as [(Hcat & Hall & _) _].
    rewrite <- Hcat in Hidx. apply Forall_concat_inv in Hidx.
    rewrite Forall_forall in Hall, Hidx. apply Forall_forall. intros c Hc.
    apply chunk_gap_run; [done|done|by apply Hall|by apply Hidx].
  - apply where_from_increasing.
  - apply indices_differences_fit.
    eapply Forall_impl; [exact Hidx|]. simpl. intros z (k & -> & Hk). lia.
Qed.

Lemma squeeze_rows_ok (mevp : list (list float)) (n_c : nat) :
  (2 ≤ n_c)%nat → (2 ≤ length mevp)%nat →
  Forall (λ row, length row = n_c) mevp →
  Np.squeeze_rows mevp = Ret mevp.
Proof.
  intros Hnc Hn Hrows. unfold Np.squeeze_rows.
  destruct mevp as [|r mevp]; [simpl in Hn; lia|].
  pose proof Hrows as Hr. apply Forall_cons in Hr as [Hr _]. rewrite Hr.
  assert (forallb (λ r0 : list float, (length r0 =? n_c)%nat) (r :: mevp)
          = true) as ->.
  { apply forallb_forall. intros row Hrow. apply Nat.eqb_eq.
    rewrite Forall_forall in Hrows. apply Hrows. by apply list_elem_of_In. }
  simpl negb. cbv iota.
  destruct (Nat.leb_spec (length (r :: mevp)) 1); [lia|].
  destruct (Nat.leb_spec n_c 1); [lia|]. reflexivity.
Qed.

Lemma two_samples {A} (cond : A → bool) (l : list A) (x y : A) :
  x ∈ l → y ∈ l → cond x = true → cond y = false → (2 ≤ length l)%nat.
Proof.
  intros Hx Hy Hcx Hcy.
  destruct l as [|a [|b l]]; simpl; [|exfalso|lia].
  - by apply elem_of_nil in Hx.
  - apply list_elem_of_singleton in Hx as ->.
    apply list_elem_of_singleton in Hy as ->. congruence.
Qed.

Lemma liquid_gap_subgaps (log_freqs : list float) (mevp : list (list float))
    (lf0 lf1 : float) (log0 log1 : list float) (n_c : nat) :
  length log_freqs = length mevp →
  Z.of_nat (length mevp) < 2 ^ 63 →
  (2 ≤ n_c)%nat →
  Forall (λ row, length row = n_c ∧ ascending row) mevp →
  (∃ row, row ∈ mevp ∧ first_negative row = true) →
  (∃ row, row ∈ mevp ∧ first_negative row = false) →
  ∃ strong weak,
    liquid_gap log_freqs mevp lf0 lf1 log0 log1
      = Ret (GapList (strong ++ weak))
    ∧ Forall2 (run_boundaries log_freqs mevp 1 1)
              (runs (strong_indices mevp)) strong
    ∧ Forall2 (run_boundaries log_freqs mevp 0 2)
              (runs (weak_indices mevp)) weak.
Proof.
  intros Hlen Hbig Hnc Hrows (rn & Hrn & Hneg) (rp & Hrp & Hpos).
  assert (Hshape : Forall (λ row, length row = n_c) mevp).
  { eapply Forall_impl; [exact Hrows|]. by intros row [? _]. }
  assert (Hne : Forall (λ row : list float, row ≠ []) mevp).
  { eapply Forall_impl; [exact Hshape|]. simpl. intros [|? ?] Hr; [|done].
    simpl in Hr. lia. }
  assert (Hn : (2 ≤ length mevp)%nat)
    by (by apply (two_samples first_negative mevp rn rp)).
  destruct (column_first mevp Hne) as (col0 & Hcol0 & Hsi).
  destruct (column_last mevp Hne) as (col1 & Hcol1 & Hli).
  destruct (runs_gaps log_freqs mevp 1 1 last_negative Hlen Hbig Hne)
    as (strong & Hstrong & Hsr).
  destruct (runs_gaps log_freqs mevp 0 2
              (λ row, first_negative row && negb (last_negative row))
              Hlen Hbig Hne) as (weak & Hweak & Hwr).
  exists strong, weak. split; [|by split].
  unfold liquid_gap. rewrite (squeeze_rows_ok mevp n_c) by done. simpl.
  rewrite Hcol0. simpl. rewrite Hcol1. simpl.
  rewrite Hsi, Hli, setdiff1d_where.
  destruct (Nat.eqb_spec (length (Np.where_ first_negative mevp)) 0) as [H0|_].
  { apply length_zero_iff_nil in H0.
    by apply (where_from_nonempty first_negative mevp rn Hrn Hneg 0%nat) in H0. }
  destruct (Nat.eqb_spec (length (Np.where_ last_negative mevp)) (length mevp))
    as [Hall|_].
  { assert (last_negative rp = false) as Hlast.
    { destruct (last_negative rp) eqn:E; [|done].
      rewrite Forall_forall in Hrows. destruct (Hrows rp Hrp) as [_ Hasc].
      rewrite (ascending_negative rp Hasc E) in Hpos. done. }
    pose proof (where_from_length_lt last_negative mevp rp Hrp Hlast 0%nat).
    unfold Np.where_ in Hall. lia. }
  rewrite Hstrong. simpl. rewrite Hweak. reflexivity.
Qed.

(** The loop body in liquid mode, for samples that all carry the same
    number (at least two) of ascending traced eigenvalues. *)
Lemma liquid_interval_subgaps warped fuel fz trace o df f0 f1 log_mevp n_c :
  let log_freqs := sample_freqs warped f0 f1 (feps o) df in
  mapM trace log_freqs = Ret log_mevp →
  Z.of_nat (length log_freqs) < 2 ^ 63 →
  (2 ≤ n_c)%nat →
  Forall (λ row, length row = n_c ∧ ascending row) log_mevp →
  (∃ row, row ∈ log_mevp ∧ first_negative row = true) →
  (∃ row, row ∈ log_mevp ∧ first_negative row = false) →
  ∃ strong weak strong_runs weak_runs,
    detect_interval warped fuel fz trace o "liquid" df f0 f1
      = Ret (IntervalResult (GapList (strong ++ weak)) log_freqs log_mevp [])
    ∧ maximal_runs (strong_indices log_mevp) strong_runs
    ∧ Forall2 (run_boundaries log_freqs log_mevp 1 1) strong_runs strong
    ∧ maximal_runs (weak_indices log_mevp) weak_runs
    ∧ Forall2 (run_boundaries log_freqs log_mevp 0 2) weak_runs weak.
Proof.
  intros log_freqs Htrace Hbig Hnc Hrows Hsome Hnot.
  pose proof (mapM_Ret_length _ _ _ Htrace) as Hlen.
  destruct Hsome as (rn & Hrn & Hneg), Hnot as (rp & Hrp & Hpos).
  assert (Hn : (2 ≤ length log_mevp)%nat)
    by (by apply (two_samples first_negative log_mevp rn rp)).
  assert (Hne : Forall (λ row : list float, row ≠ []) log_mevp).
  { eapply Forall_impl; [exact Hrows|]. simpl. intros [|? ?] [Hr _]; [|done].
    simpl in Hr. lia. }
  destruct (getitem_ends log_freqs) as (lf0 & lf1 & _ & _ & Hlf0 & Hlf1).
  { intros E. rewrite E in Hlen. simpl in Hlen. lia. }
  destruct (getitem_ends log_mevp) as (log0 & log1 & Hh & Hl & Hlog0 & Hlog1).
  { intros E. rewrite E in Hn. simpl in Hn. lia. }
  rewrite Forall_forall in Hne.
  destruct (getitem_ends log0) as (m0 & _ & _ & _ & Hm0 & _).
  { apply Hne. by eapply head_Some_elem_of. }
  destruct (getitem_ends log1) as (_ & m1 & _ & _ & _ & Hm1).
  { apply Hne. by eapply last_Some_elem_of. }
  destruct (liquid_gap_subgaps log_freqs log_mevp lf0 lf1 log0 log1 n_c)
    as (strong & weak & Hgap & Hs & Hw); try done.
  { by rewrite Hlen. }
  { by exists rn. }
  { by exists rp. }
  exists strong, weak, (runs (strong_indices log_mevp)),
    (runs (weak_indices log_mevp)).
  split; [|repeat split; try done; apply runs_maximal].
  unfold detect_interval. fold log_freqs. rewrite Htrace. simpl.
  rewrite Hlf0. simpl. rewrite Hlf1. simpl. rewrite Hlog0. simpl.
  rewrite Hlog1. simpl. rewrite Hm0. simpl. rewrite Hm1. simpl.
  rewrite Hgap. reflexivity.
Qed.

(** X20: in liquid mode, take an interval ]fm[ii], fm[ii+1][ whose samples
    all carry the same number (at least two) of ascending traced
    eigenvalues, and some but not all of which have a negative smallest
    eigenvalue.  The loop body yields a list of sub-gaps, and that list is
    what [detect_band_gaps] records in [gaps[ii]], with the sampled logs:
    one pair with flags (1, 1) for each maximal run of consecutive sample
    indices whose largest eigenvalue is negative, at the first and last
    sample frequency of the run, followed by one pair with flags (0, 2) for
    each maximal run of indices whose smallest eigenvalue is negative but
    whose largest is not.  [find_zero] is not involved. *)
Theorem liquid_mode_subgaps warped trace fi o min_freq max_freq ii f0 f1
    log_mevp n_c :
  let fm := freq_range_margins fi in
  let df := (freq_step o * (max_freq - min_freq))%float in
  let log_freqs := sample_freqs warped f0 f1 (feps o) df in
  Py.getitem fm 0 = Ret min_freq →
  Py.getitem fm (-1) = Ret max_freq →
  (ii ≤ length (freq_range fi))%nat →
  Py.getitem fm (Z.of_nat ii) = Ret f0 →
  Py.getitem fm (Z.of_nat ii + 1) = Ret f1 →
  mapM trace log_freqs = Ret log_mevp →
  Z.of_nat (length log_freqs) < 2 ^ 63 →
  (2 ≤ n_c)%nat →
  Forall (λ row, length row = n_c ∧ ascending row) log_mevp →
  (∃ row, row ∈ log_mevp ∧ first_negative row = true) →
  (∃ row, row ∈ log_mevp ∧ first_negative row = false) →
  ∃ strong weak strong_runs weak_runs,
    (∀ fuel fz,
       detect_interval warped fuel fz trace o "liquid" df f0 f1
       = Ret (IntervalResult (GapList (strong ++ weak)) log_freqs log_mevp []))
    ∧ (∀ fuel fz log_freqs_all log_eigs gaps kinds,
         detect_band_gaps warped fuel fz trace fi o "liquid"
         = Ret (log_freqs_all, log_eigs, gaps, kinds) →
         gaps !! ii = Some (GapList (strong ++ weak))
         ∧ log_freqs_all !! ii = Some log_freqs
         ∧ log_eigs !! ii = Some log_mevp)
    ∧ maximal_runs (strong_indices log_mevp) strong_runs
    ∧ Forall2 (run_boundaries log_freqs log_mevp 1 1) strong_runs strong
    ∧ maximal_runs (weak_indices log_mevp) weak_runs
    ∧ Forall2 (run_boundaries log_freqs log_mevp 0 2) weak_runs weak.
Proof.
  intros fm df log_freqs Hmin Hmax Hii Hf0 Hf1 Htrace Hbig Hnc Hrows Hsome Hnot.
  destruct (liquid_interval_subgaps warped 0 (λ _, Raise KeyError) trace o df
              f0 f1 log_mevp n_c Htrace Hbig Hnc Hrows Hsome Hnot)
    as (strong & weak & strong_runs & weak_runs & Hbody & Hruns).
  exists strong, weak, strong_runs, weak_runs.
  assert (Hany : ∀ fuel fz,
            detect_interval warped fuel fz trace o "liquid" df f0 f1
            = Ret (IntervalResult (GapList (strong ++ weak)) log_freqs
                     log_mevp [])).
  { intros fuel fz. etrans; [|exact Hbody]. reflexivity. }
  split; [exact Hany|]. split; [|exact Hruns].
  intros fuel fz log_freqs_all log_eigs gaps kinds H.
  destruct (detect_band_gaps_interval _ _ _ _ _ _ _ _ _ _ _ H ii Hii)
    as (min_freq' & max_freq' & f0' & f1' & r & Hmin' & Hmax' & Hf0' & Hf1'
        & Hr & Hgap & Hlf & Hle).
  fold fm in Hmin', Hmax', Hf0', Hf1'.
  rewrite Hmin in Hmin'. rewrite Hmax in Hmax'.
  rewrite Hf0 in Hf0'. rewrite Hf1 in Hf1'.
  injection Hmin' as <-. injection Hmax' as <-.
  injection Hf0' as <-. injection Hf1' as <-.
  fold df in Hr. rewrite (Hany fuel fz) in Hr. injection Hr as <-.
  done.
Qed.

Lemma liquid_mode_subgaps_witness :
  let log_freqs := [1; 2; 3; 4; 5]%float in
  let log_mevp := [[-2; -1]; [-2; -1]; [-1; 1]; [1; 2]; [-1; 3]]%float in
  let warped : float → float → float → float → list float :=
    λ _ _ _ _, log_freqs in
  let fi := FreqInfo [] [0%float; 6%float] in
  let o := Opts 0.05 1e-8 1e-8 in
  ∃ strong weak strong_runs weak_runs,
    (∀ fuel fz,
       detect_interval warped fuel fz example_trace o "liquid"
         (0.05 * (6 - 0)) 0 6
       = Ret (IntervalResult (GapList (strong ++ weak)) log_freqs log_mevp []))
    ∧ (∀ fuel fz log_freqs_all log_eigs gaps kinds,
         detect_band_gaps warped fuel fz example_trace fi o "liquid"
         = Ret (log_freqs_all, log_eigs, gaps, kinds) →
         gaps !! 0%nat = Some (GapList (strong ++ weak))
         ∧ log_freqs_all !! 0%nat = Some log_freqs
         ∧ log_eigs !! 0%nat = Some log_mevp)
    ∧ maximal_runs (strong_indices log_mevp) strong_runs
    ∧ Forall2 (run_boundaries log_freqs log_mevp 1 1) strong_runs strong
    ∧ maximal_runs (weak_indices log_mevp) weak_runs
    ∧ Forall2 (run_boundaries log_freqs log_mevp 0 2) weak_runs weak.
Proof.
  intros log_freqs log_mevp warped fi o.
  apply (liquid_mode_subgaps warped example_trace fi o 0%float 6%float 0%nat
           0%float 6%float log_mevp 2).
  - reflexivity.
  - reflexivity.
  - simpl. lia.
  - reflexivity.
  - reflexivity.
  - reflexivity.
  - simpl. lia.
  - lia.
  - repeat constructor.
  - exists [(-2)%float; (-1)%float]. split; [left|reflexivity].
  - exists [1%float; 2%float]. split; [|reflexivity].
    do 3 right. left.
Defined.

Lemma forallb_length (rows : list (list float)) (n : nat) :
  Forall (λ row, length row = n) rows →
  forallb (λ r : list float, (length r =? n)%nat) rows = true.
Proof.
  intros H. apply forallb_forall. intros row Hrow. apply Nat.eqb_eq.
  rewrite Forall_forall in H. apply H. by apply list_elem_of_In.
Qed.

(** With one traced eigenvalue per sample the loop body of the liquid mode
    ends in the [IndexError] of [mevp[:,0]]: [squeeze] has removed the
    component axis. *)
Lemma liquid_interval_single_component warped fuel fz trace o df f0 f1
    log_mevp :
  let log_freqs := sample_freqs warped f0 f1 (feps o) df in
  mapM trace log_freqs = Ret log_mevp →
  log_freqs ≠ [] →
  Forall (λ row, length row = 1%nat) log_mevp →
  detect_interval warped fuel fz trace o "liquid" df f0 f1 = Raise IndexError.
Proof.
  intros log_freqs Htrace Hne Hrows.
  pose proof (mapM_Ret_length _ _ _ Htrace) as Hlen.
  assert (Hne' : log_mevp ≠ []).
  { intros ->. destruct log_freqs; [done|discriminate Hlen]. }
  destruct (getitem_ends log_freqs Hne) as (lf0 & lf1 & _ & _ & Hlf0 & Hlf1).
  destruct (getitem_ends log_mevp Hne')
    as (log0 & log1 & Hh & Hl & Hlog0 & Hlog1).
  assert (Hrow : ∀ row, row ∈ log_mevp → row ≠ []).
  { intros row Hin. rewrite Forall_forall in Hrows.
    specialize (Hrows row Hin). by destruct row. }
  destruct (getitem_ends log0) as (m0 & _ & _ & _ & Hm0 & _).
  { apply Hrow. by eapply head_Some_elem_of. }
  destruct (getitem_ends log1) as (_ & m1 & _ & _ & _ & Hm1).
  { apply Hrow. by eapply last_Some_elem_of. }
  unfold detect_interval. fold log_freqs. rewrite Htrace. simpl.
  rewrite Hlf0. simpl. rewrite Hlf1. simpl. rewrite Hlog0. simpl.
  rewrite Hlog1. simpl. rewrite Hm0. simpl. rewrite Hm1. simpl.
  unfold liquid_gap, Np.squeeze_rows.
  destruct log_mevp as [|r rest]; [done|].
  pose proof Hrows as Hr. apply Forall_cons in Hr as [Hr _]. rewrite Hr.
  rewrite (forallb_length _ _ Hrows). simpl negb. cbv iota.
  by rewrite orb_true_r.
Qed.

(** C5: in liquid mode [detect_band_gaps] emits no sub-gap pair at all for
    a tensor with a single component.  Whatever the eigenvalues are, also
    when some but not all samples have a negative one, the first interval
    ends in [IndexError]: [nm.array(log_mevp).squeeze()] has removed the
    component axis, and [mevp[:,0]] indexes an array of one dimension. *)
Theorem liquid_mode_single_component warped fuel fz trace fi o
    min_freq max_freq f1 log_mevp :
  let fm := freq_range_margins fi in
  let df := (freq_step o * (max_freq - min_freq))%float in
  let log_freqs := sample_freqs warped min_freq f1 (feps o) df in
  Py.getitem fm 0 = Ret min_freq →
  Py.getitem fm (-1) = Ret max_freq →
  Py.getitem fm 1 = Ret f1 →
  mapM trace log_freqs = Ret log_mevp →
  log_freqs ≠ [] →
  Forall (λ row, length row = 1%nat) log_mevp →
  detect_band_gaps warped fuel fz trace fi o "liquid" = Raise IndexError.
Proof.
  intros fm df log_freqs Hmin Hmax Hf1 Htrace Hne Hrows.
  unfold detect_band_gaps. fold fm. rewrite Hmin. simpl. rewrite Hmax. simpl.
  fold df. rewrite Nat.add_1_r. simpl seq.
  change (detect_intervals warped fuel fz trace o "liquid" df fm
            (0%nat :: seq 1 (length (freq_range fi))))
    with (f0 ← Py.getitem fm (Z.of_nat 0);
          f1 ← Py.getitem fm (Z.of_nat 0 + 1);
          r ← detect_interval warped fuel fz trace o "liquid" df f0 f1;
          rs ← detect_intervals warped fuel fz trace o "liquid" df fm
                 (seq 1 (length (freq_range fi)));
          Ret (r :: rs)).
  change (Z.of_nat 0) with 0. change (0 + 1) with 1.
  rewrite Hmin. simpl. rewrite Hf1. simpl.
  by rewrite (liquid_interval_single_component warped fuel fz trace o df
                min_freq f1 log_mevp Htrace Hne Hrows).
Qed.

Lemma liquid_mode_single_component_witness :
  let trace : callback :=
    λ f, if (f <? 1.5)%float then Ret [(-1)%float] else Ret [1%float] in
  let warped : float → float → float → float → list float := λ _ _ _ _, [] in
  mapM trace (sample_freqs warped 1 2 1 (0.05 * (2 - 1)))
  = Ret [[(-1)%float]; [1%float]]
  ∧ first_negative [(-1)%float] = true
  ∧ first_negative [1%float] = false
  ∧ detect_band_gaps warped 0 (λ _, Raise KeyError) trace
      (FreqInfo [] [1%float; 2%float]) (Opts 0.05 1 1e-8) "liquid"
    = Raise IndexError.
Proof.
  intros trace warped.
  split; [reflexivity|]. split; [reflexivity|]. split; [reflexivity|].
  apply (liquid_mode_single_component warped 0 (λ _, Raise KeyError) trace
           (FreqInfo [] [1%float; 2%float]) (Opts 0.05 1 1e-8)
           1%float 2%float 2%float [[(-1)%float]; [1%float]]).
  - reflexivity.
  - reflexivity.
  - reflexivity.
  - reflexivity.
  - discriminate.
  - repeat constructor.
Defined.

(** ** [AcousticMassTensor.evaluate] *)

Lemma shape_lookup n k m i j :
  shape n k m → (i < n)%nat → (j < k)%nat →
  ∃ row v, m !! i = Some row ∧ row !! j = Some v ∧ length row = k.
Proof.
  intros [Hn Hk] Hi Hj.
  destruct (lookup_lt_is_Some_2 m i) as [row Hrow]; [lia|].
  rewrite Forall_forall in Hk.
  pose proof (Hk row (list_elem_of_lookup_2 _ _ _ Hrow)) as Hlen.
  destruct (lookup_lt_is_Some_2 row j) as [v Hv]; [lia|].
  by exists row, v.
Qed.

Lemma shape_set n k m i j v : shape n k m → shape n k (Mat.set m i j v).
Proof.
  intros [Hn Hk]. unfold Mat.set. split.
  - by rewrite length_alter.
  - apply Forall_alter; [done|]. intros row _ Hrow.
    by rewrite length_insert.
Qed.

Lemma get_set n k m i j v i' j' :
  shape n k m → (i < n)%nat → (j < k)%nat →
  Mat.get (Mat.set m i j v) i' j'
  = if decide (i' = i ∧ j' = j) then v else Mat.get m i' j'.
Proof.
  intros Hs Hi Hj. unfold Mat.get, Mat.set.
  destruct (shape_lookup n k m i j Hs Hi Hj) as (row & w & Hrow & Hw & Hlen).
  destruct (decide (i' = i)) as [->|Hne].
  - rewrite list_lookup_alter_eq, Hrow. simpl.
    destruct (decide (j' = j)) as [->|Hnj].
    + rewrite list_lookup_insert_eq by lia.
      by rewrite decide_True.
    + rewrite list_lookup_insert_ne by done.
      rewrite decide_False by tauto. done.
  - rewrite list_lookup_alter_ne by done.
    rewrite decide_False by tauto. done.
Qed.

Lemma shape_zeros n k : shape n k (Mat.zeros n k).
Proof.
  unfold Mat.zeros. split; [by rewrite length_replicate|].
  apply Forall_replicate. by rewrite length_replicate.
Qed.

Lemma get_zeros n k i j : Mat.get (Mat.zeros n k) i j = 0%float.
Proof.
  unfold Mat.get, Mat.zeros.
  destruct (replicate n (replicate k 0%float) !! i) as [row|] eqn:Hrow;
    [|done].
  apply lookup_replicate in Hrow as [-> _]. simpl.
  destruct (replicate k 0%float !! j) as [v|] eqn:Hv; [|done].
  by apply lookup_replicate in Hv as [-> _].
Qed.

Lemma get_eye n i j :
  (i < n)%nat → (j < n)%nat →
  Mat.get (Mat.eye n) i j = if (i =? j)%nat then 1%float else 0%float.
Proof.
  intros Hi Hj. unfold Mat.get, Mat.eye.
  rewrite list_lookup_fmap, lookup_seq_lt by done. simpl.
  rewrite list_lookup_fmap, lookup_seq_lt by done. done.
Qed.

Lemma shape_eye n : shape n n (Mat.eye n).
Proof.
  unfold Mat.eye. split; [by rewrite length_fmap, length_seq|].
  apply Forall_fmap, Forall_forall. intros i _. simpl.
  by rewrite length_fmap, length_seq.
Qed.

Lemma shape_elementwise n k f m : shape n k m → shape n k (Mat.elementwise f m).
Proof.
  intros [Hn Hk]. unfold Mat.elementwise. split; [by rewrite length_fmap|].
  apply Forall_fmap. eapply Forall_impl; [exact Hk|]. simpl.
  intros row Hrow. by rewrite length_fmap.
Qed.

Lemma get_elementwise n k f m i j :
  shape n k m → (i < n)%nat → (j < k)%nat →
  Mat.get (Mat.elementwise f m) i j = f (Mat.get m i j).
Proof.
  intros Hs Hi Hj.
  destruct (shape_lookup n k m i j Hs Hi Hj) as (row & v & Hrow & Hv & _).
  unfold Mat.get, Mat.elementwise.
  rewrite list_lookup_fmap, Hrow. simpl.
  rewrite list_lookup_fmap, Hv. done.
Qed.

Lemma shape_elementwise2 n k f a b :
  shape n k a → shape n k b → shape n k (Mat.elementwise2 f a b).
Proof.
  intros [Hna Hka] [Hnb Hkb]. unfold Mat.elementwise2. split.
  - rewrite length_zip_with. lia.
  - apply Forall_forall. intros row Hrow.
    apply list_elem_of_lookup in Hrow as [i Hi].
    apply lookup_zip_with_Some in Hi as (ra & rb & -> & Hra & Hrb).
    rewrite Forall_forall in Hka, Hkb.
    rewrite length_zip_with.
    rewrite (Hka ra (list_elem_of_lookup_2 _ _ _ Hra)).
    rewrite (Hkb rb (list_elem_of_lookup_2 _ _ _ Hrb)). lia.
Qed.

Lemma get_elementwise2 n k f a b i j :
  shape n k a → shape n k b → (i < n)%nat → (j < k)%nat →
  Mat.get (Mat.elementwise2 f a b) i j = f (Mat.get a i j) (Mat.get b i j).
Proof.
  intros Ha Hb Hi Hj.
  destruct (shape_lookup n k a i j Ha Hi Hj) as (ra & va & Hra & Hva & _).
  destruct (shape_lookup n k b i j Hb Hi Hj) as (rb & vb & Hrb & Hvb & _).
  unfold Mat.get, Mat.elementwise2.
  rewrite lookup_zip_with, Hra, Hrb. simpl.
  rewrite lookup_zip_with, Hva, Hvb. done.
Qed.

Lemma filled_sym val a b : filled val a b = filled val b a.
Proof.
  unfold filled.
  destruct (Nat.leb_spec a b), (Nat.leb_spec b a); try done; try lia.
  by replace b with a by lia.
Qed.

Lemma fill_step val n r c m :
  (r < n)%nat → (c < n)%nat →
  loop_inv val n r c m → loop_inv val n r (S c) (fill val r c m).
Proof.
  intros Hr Hc [Hs Hget]. split.
  { unfold fill. destruct (r <=? c)%nat; by apply shape_set. }
  intros a b Ha Hb. unfold fill.
  destruct (Nat.leb_spec r c) as [Hrc|Hrc];
    rewrite (get_set n n) by done; rewrite !Hget by done;
    repeat case_decide; try lia; try done;
    match goal with H : a = r ∧ b = c |- _ => destruct H as [-> ->] end.
  - unfold filled. by destruct (Nat.leb_spec r c); [|lia].
  - apply filled_sym.
Qed.

Lemma fill_row val n r :
  (r < n)%nat →
  ∀ k c m, (c + k ≤ n)%nat → loop_inv val n r c m →
  loop_inv val n r (c + k)
    (fold_left (λ fmass ic, fill val r ic fmass) (seq c k) m).
Proof.
  intros Hr. induction k as [|k IH]; intros c m Hck Hinv.
  - by rewrite Nat.add_0_r.
  - simpl. replace (c + S k)%nat with (S c + k)%nat by lia.
    apply IH; [lia|]. apply fill_step; [done|lia|done].
Qed.

Lemma fill_rows val n :
  ∀ k r m, (r + k ≤ n)%nat → loop_inv val n r 0 m →
  loop_inv val n (r + k) 0
    (fold_left
       (λ fmass ir, fold_left (λ fmass ic, fill val ir ic fmass) (seq 0 n) fmass)
       (seq r k) m).
Proof.
  induction k as [|k IH]; intros r m Hrk Hinv.
  - by rewrite Nat.add_0_r.
  - simpl. replace (r + S k)%nat with (S r + k)%nat by lia.
    apply IH; [lia|].
    pose proof (fill_row val n r ltac:(lia) n 0%nat m ltac:(lia) Hinv)
      as [Hs Hget].
    split; [done|]. intros a b Ha Hb. rewrite Hget by done.
    repeat case_decide; try lia; done.
Qed.

Lemma fill_all val n :
  let fmass :=
    fold_left
      (λ fmass ir, fold_left (λ fmass ic, fill val ir ic fmass) (seq 0 n) fmass)
      (seq 0 n) (Mat.zeros n n) in
  shape n n fmass
  ∧ ∀ a b, (a < n)%nat → (b < n)%nat → Mat.get fmass a b = filled val a b.
Proof.
  assert (Hinit : loop_inv val n 0 0 (Mat.zeros n n)).
  { split; [apply shape_zeros|]. intros a b _ _. rewrite get_zeros.
    case_decide; [lia|done]. }
  destruct (fill_rows val n n 0%nat _ ltac:(lia) Hinit) as [Hs Hget].
  split; [done|]. intros a b Ha Hb. rewrite Hget by done.
  case_decide; [done|lia].
Qed.

Lemma select_zip {A B} (l : list A) :
  ∀ (k : list B) (mask : list bool),
  Mat.select (zip l k) mask = zip (Mat.select l mask) (Mat.select k mask).
Proof.
  induction l as [|x l IH]; intros k mask; [done|].
  destruct k as [|y k].
  { replace (Mat.select (@nil B) mask) with (@nil B) by (by destruct mask).
    replace (Mat.select (zip (x :: l) (@nil B)) mask) with (@nil (A * B))
      by (by destruct mask).
    by destruct (Mat.select (x :: l) mask). }
  destruct mask as [|[|] mask]; simpl; [done| |]; by rewrite IH.
Qed.

Lemma sum_terms_modes (f2 : float) (ir ic : nat) (es : list float) :
  ∀ rs : list (list float),
  zip_with PrimFloat.mul
    ((λ d, f2 / d)%float <$> ((λ e, f2 - e)%float <$> es))
    (zip_with PrimFloat.mul ((λ row, default 0%float (row !! ir)) <$> rs)
                            ((λ row, default 0%float (row !! ic)) <$> rs))
  = (λ '(eig, m), (f2 / (f2 - eig)) * (momentum m ir * momentum m ic))%float
      <$> zip es rs.
Proof.
  induction es as [|e es IH]; intros rs; [done|].
  destruct rs as [|r rs]; [done|]. simpl. by rewrite IH.
Qed.

Lemma mode_terms_comm (f2 : float) (ir ic : nat)
    (modes : list (float * list float)) :
  (λ '(eig, m), (f2 / (f2 - eig)) * (momentum m ir * momentum m ic))%float
    <$> modes
  = (λ '(eig, m), (f2 / (f2 - eig)) * (momentum m ic * momentum m ir))%float
      <$> modes.
Proof.
  apply list_fmap_ext. intros _ [eig m] _. simpl.
  by rewrite (float_mul_comm (momentum m ir)).
Qed.

Lemma fold_left_pointwise {A B} (f g : A → B → A) (l : list B) :
  (∀ a x, f a x = g a x) → ∀ a, fold_left f l a = fold_left g l a.
Proof.
  intros Hfg. induction l as [|x l IH]; intros a; [done|].
  simpl. by rewrite Hfg, IH.
Qed.

(** The summand of [evaluate] is the sum over the valid modes. *)
Lemma fill_entry_fill (evp_eigs : list float) (dv : dv_info)
    (em : eigenmomenta_info) (freq : float) (ir ic : nat)
    (fmass : list (list float)) :
  let self := AcousticMassTensor.call evp_eigs dv em in
  AcousticMassTensor.fill_entry self (freq * freq)%float
    ((λ e, freq * freq - e)%float <$> AcousticMassTensor.eigs self) ir ic fmass
  = fill (λ ir ic,
            Np.sum ((λ '(eig, m),
                       (freq * freq / (freq * freq - eig))
                       * (momentum m ir * momentum m ic))%float
                      <$> valid_modes evp_eigs em))
         ir ic fmass.
Proof.
  intros self. unfold AcousticMassTensor.fill_entry, fill, Mat.column.
  unfold valid_modes. rewrite select_zip.
  subst self. simpl. by rewrite sum_terms_modes.
Qed.

(** C1: when every denominator [freq² - eig_k] of the valid modes is
    finite, [evaluate(freq)] returns an [n_c × n_c] array whose entry
    [(ir, ic)] is [(average_density * I - F / total_volume)[ir][ic]] with
    [F[ir][ic]] the sum over the valid modes only of
    [(freq² / (freq² - eig_k)) * (momentum_k[ir] * momentum_k[ic])], and the
    array is symmetric. *)
Theorem evaluate_mass_tensor (evp_eigs : list float) (dv : dv_info)
    (em : eigenmomenta_info) (freq : float) :
  let self := AcousticMassTensor.call evp_eigs dv em in
  let n_c := ncols (eigenmomenta em) in
  let modes := valid_modes evp_eigs em in
  length (rows (eigenmomenta em)) = length evp_eigs →
  length (valid em) = length evp_eigs →
  Forall (λ row, length row = n_c) (rows (eigenmomenta em)) →
  Np.all_finite (AcousticMassTensor.get_coefs self freq).2 = true →
  ∃ mtx_mass,
    AcousticMassTensor.evaluate self freq = Ret mtx_mass
    ∧ shape n_c n_c mtx_mass
    ∧ ∀ ir ic, (ir < n_c)%nat → (ic < n_c)%nat →
        Mat.get mtx_mass ir ic = mass_entry dv freq modes ir ic
        ∧ Mat.get mtx_mass ir ic = Mat.get mtx_mass ic ir.
Proof.
  intros self n_c modes _ _ _ Hfin.
  unfold AcousticMassTensor.evaluate.
  destruct (AcousticMassTensor.get_coefs self freq) as [num denom] eqn:Hcoefs.
  simpl in Hfin. rewrite Hfin. simpl negb. cbv iota.
  unfold AcousticMassTensor.get_coefs in Hcoefs.
  injection Hcoefs as <- <-.
  change (ncols (AcousticMassTensor.ema self)) with n_c.
  set (val := λ ir ic : nat,
         Np.sum ((λ '(eig, m),
                    (freq * freq / (freq * freq - eig))
                    * (momentum m ir * momentum m ic))%float <$> modes)).
  set (fmass := fold_left _ _ _).
  assert (Hfill : shape n_c n_c fmass
                  ∧ ∀ a b, (a < n_c)%nat → (b < n_c)%nat →
                      Mat.get fmass a b = filled val a b).
  { subst fmass.
    erewrite fold_left_pointwise; [apply (fill_all val n_c)|].
    intros fmass0 ir. apply fold_left_pointwise. intros fmass1 ic.
    apply fill_entry_fill. }
  destruct Hfill as [Hs Hget].
  eexists. split; [reflexivity|]. split.
  { apply shape_elementwise2; apply shape_elementwise;
      [apply shape_eye|done]. }
  assert (Hentry : ∀ ir ic, (ir < n_c)%nat → (ic < n_c)%nat →
            Mat.get
              (Mat.elementwise2 PrimFloat.sub
                 (Mat.elementwise
                    (λ x, x * average_density (AcousticMassTensor.dv self))%float
                    (Mat.eye n_c))
                 (Mat.elementwise
                    (λ x, x / total_volume (AcousticMassTensor.dv self))%float
                    fmass)) ir ic
            = ((if (ir =? ic)%nat then 1 else 0) * average_density dv
               - filled val ir ic / total_volume dv)%float).
  { intros ir ic Hir Hic.
    rewrite (get_elementwise2 n_c n_c); try done;
      try (apply shape_elementwise; [apply shape_eye || done]);
      try (by apply shape_elementwise).
    rewrite !(get_elementwise n_c n_c); try done; try apply shape_eye.
    rewrite get_eye, Hget by done. reflexivity. }
  intros ir ic Hir Hic. rewrite !Hentry by done. split.
  - unfold mass_entry, mode_sum, filled. fold (val ir ic).
    destruct (Nat.leb_spec ir ic); [done|].
    unfold val. by rewrite mode_terms_comm.
  - rewrite (filled_sym val ir ic), (Nat.eqb_sym ir ic). reflexivity.
Qed.

Lemma evaluate_mass_tensor_witness :
  let evp_eigs := [4; 9; 1]%float in
  let dv := DvInfo 1 1 ∅ ∅ in
  let em :=
    EigenmomentaInfo 1 (Array2 2 [[1; 2]; [2; 5]; [0; 0]]%float)
      [true; true; false] in
  ∃ mtx_mass,
    AcousticMassTensor.evaluate (AcousticMassTensor.call evp_eigs dv em) 1
      = Ret mtx_mass
    ∧ shape 2 2 mtx_mass
    ∧ ∀ ir ic, (ir < 2)%nat → (ic < 2)%nat →
        Mat.get mtx_mass ir ic
          = mass_entry dv 1 (valid_modes evp_eigs em) ir ic
        ∧ Mat.get mtx_mass ir ic = Mat.get mtx_mass ic ir.
Proof.
  intros evp_eigs dv em.
  apply (evaluate_mass_tensor evp_eigs dv em 1%float).
  - reflexivity.
  - reflexivity.
  - repeat constructor.
  - vm_compute. reflexivity.
Defined.

(** * Further properties *)

(** ** [split_chunks] on arbitrary vectors *)

Lemma bind_Raise {A B} (m : outcome A) (f : A → outcome B) (e : exn) :
  m ≫= f = Raise e → m = Raise e ∨ ∃ a, m = Ret a ∧ f a = Raise e.
Proof.
  destruct m as [a| |]; try discriminate.
  - intros H. right. by exists a.
  - intros [= ->]. by left.
Qed.

Lemma cut_concat {A} :
  ∀ (l : list A) (flags : list bool) (cur : list A),
  l ≠ [] → length flags = length l → last flags = Some true →
  concat (cut l flags cur) = cur ++ l.
Proof.
  induction l as [|x l IH]; intros flags cur Hl Hlen Hlast; [done|].
  destruct flags as [|b flags]; [discriminate|].
  injection Hlen as Hlen. rewrite cut_cons.
  destruct l as [|y l].
  - destruct flags; [|discriminate]. injection Hlast as ->.
    simpl. by rewrite app_nil_r.
  - destruct flags as [|b' flags]; [discriminate|].
    rewrite last_cons_cons in Hlast.
    destruct b.
    + rewrite concat_cons.
      rewrite (IH (b' :: flags) []) by done. by rewrite <- app_assoc.
    + rewrite (IH (b' :: flags) (cur ++ [x])) by done.
      by rewrite <- app_assoc.
Qed.

Lemma cut_chunks {A} :
  ∀ (l : list A) (flags : list bool) (cur : list A),
  Forall (λ c, c ≠ []) (cut l flags cur)
  ∧ (length (cut l flags cur) ≤ length l)%nat.
Proof.
  induction l as [|x l IH]; intros flags cur.
  { split; [constructor|simpl; lia]. }
  destruct flags as [|b flags].
  { split; [constructor|simpl; lia]. }
  rewrite cut_cons. destruct b.
  - destruct (IH flags []) as [Hne Hlen]. split.
    + constructor; [|done]. by destruct cur.
    + simpl. lia.
  - destruct (IH flags (cur ++ [x])) as [Hne Hlen]. split; [done|].
    simpl. lia.
Qed.

(** X1: whatever the integers are (ordered or not, wrapping differences
    or not), [split_chunks] neither loses nor reorders anything: the chunks
    concatenate to the input, none of them is empty, and there are at most
    as many chunks as elements. *)
Theorem split_chunks_partition (indx : list Z) :
  concat (split_chunks indx) = indx
  ∧ Forall (λ c, c ≠ []) (split_chunks indx)
  ∧ (length (split_chunks indx) ≤ length indx)%nat.
Proof.
  rewrite split_chunks_cut.
  destruct (cut_chunks indx ((λ d, 1 <? d) <$> Np.ediff1d indx 2) [])
    as [Hne Hlen].
  split; [|done].
  destruct indx as [|x indx]; [reflexivity|].
  apply (cut_concat (x :: indx) _ []); [done| |].
  - rewrite length_fmap. by apply length_ediff1d.
  - unfold Np.ediff1d. rewrite fmap_app. simpl. by rewrite last_snoc.
Qed.

(** ** Failures of [find_zero] *)

Lemma getitem_tracked_raises (meigs : list float) (ieig : Z) (e : exn) :
  ieig = 0 ∨ ieig = -1 →
  Py.getitem meigs ieig = Raise e → e = IndexError ∧ meigs = [].
Proof.
  intros Hi H. destruct meigs as [|x meigs].
  - destruct Hi as [-> | ->]; by injection H as <-.
  - exfalso. destruct Hi as [-> | ->]; [discriminate|].
    destruct (getitem_ends (x :: meigs)) as (_ & y & _ & _ & _ & Hy); [done|].
    rewrite Hy in H. discriminate.
Qed.

Lemma find_zero_step_raises f0 f1 cb feps zeps mode ieig fm fp e :
  ieig = 0 ∨ ieig = -1 →
  find_zero_step f0 f1 cb feps zeps mode ieig fm fp = Raise e →
  (∃ f, cb f = Raise e) ∨ (e = IndexError ∧ ∃ f, cb f = Ret []).
Proof.
  intros Hi H. unfold find_zero_step in H.
  apply bind_Raise in H as [H|(meigs & Hcb & H)].
  { left. eauto. }
  apply bind_Raise in H as [H|(val & Hval & H)].
  - apply getitem_tracked_raises in H as [-> ->]; [|done]. right. eauto.
  - repeat case_match; discriminate.
Qed.

Lemma find_zero_loop_raises f0 f1 cb feps zeps mode ieig e :
  ieig = 0 ∨ ieig = -1 →
  ∀ fuel fm fp,
  find_zero_loop fuel f0 f1 cb feps zeps mode ieig fm fp = Raise e →
  (∃ f, cb f = Raise e) ∨ (e = IndexError ∧ ∃ f, cb f = Ret []).
Proof.
  intros Hi. induction fuel as [|fuel IH]; intros fm fp H; [discriminate|].
  rewrite find_zero_loop_unfold in H.
  apply bind_Raise in H as [H|([r|[fm' fp']] & Hstep & H)].
  - by apply find_zero_step_raises in H.
  - discriminate.
  - by apply IH in H.
Qed.

(** X2: for a mode other than 0 and 1 [find_zero] raises [KeyError]
    whatever the callback is and however many passes are allowed, so before
    the callback is called.  For the modes 0 and 1 an exception that the
    callback raises at the first midpoint, or the [IndexError] of an empty
    eigenvalue sequence there, leaves [find_zero]; and no exception leaves
    it but those raised by the callback and that [IndexError]. *)
Theorem find_zero_failures f0 f1 cb feps zeps mode :
  (mode ≠ 0 → mode ≠ 1 →
   ∀ fuel cb', find_zero fuel f0 f1 cb' feps zeps mode = Raise KeyError)
  ∧ (mode = 0 ∨ mode = 1 →
     (∀ fuel e, cb (0.5 * (f0 + f1))%float = Raise e →
        find_zero (S fuel) f0 f1 cb feps zeps mode = Raise e)
     ∧ (∀ fuel, cb (0.5 * (f0 + f1))%float = Ret [] →
          find_zero (S fuel) f0 f1 cb feps zeps mode = Raise IndexError)
     ∧ (∀ fuel e, find_zero fuel f0 f1 cb feps zeps mode = Raise e →
          (∃ f, cb f = Raise e) ∨ (e = IndexError ∧ ∃ f, cb f = Ret []))).
Proof.
  split.
  - intros H0 H1 fuel cb'. unfold find_zero, ieig_of_mode.
    destruct (Z.eqb_spec mode 0) as [?|_]; [done|].
    by destruct (Z.eqb_spec mode 1) as [?|_].
  - intros Hmode.
    assert (Hieig : ∃ ieig, ieig_of_mode mode = Ret ieig
                            ∧ (ieig = 0 ∨ ieig = -1)).
    { destruct Hmode as [-> | ->]; [exists 0|exists (-1)]; auto. }
    destruct Hieig as (ieig & Hieig & Hi).
    assert (Hloop : ∀ fuel,
              find_zero fuel f0 f1 cb feps zeps mode
              = find_zero_loop fuel f0 f1 cb feps zeps mode ieig f0 f1).
    { intros fuel. unfold find_zero. by rewrite Hieig. }
    split; [|split].
    + intros fuel e Hcb. rewrite Hloop, find_zero_loop_unfold.
      unfold find_zero_step. by rewrite Hcb.
    + intros fuel Hcb. rewrite Hloop, find_zero_loop_unfold.
      unfold find_zero_step. rewrite Hcb.
      by destruct Hi as [-> | ->].
    + intros fuel e H. rewrite Hloop in H.
      by apply find_zero_loop_raises in H.
Qed.

Lemma find_zero_failures_witness :
  let cb : callback := λ _, Raise TypeError in
  (∀ fuel cb', find_zero fuel 1 2 cb' 1e-6 1e-8 7 = Raise KeyError)
  ∧ (∀ fuel e, cb (0.5 * (1 + 2))%float = Raise e →
       find_zero (S fuel) 1 2 cb 1e-6 1e-8 1 = Raise e)
  ∧ (∀ fuel, cb (0.5 * (1 + 2))%float = Ret [] →
       find_zero (S fuel) 1 2 cb 1e-6 1e-8 1 = Raise IndexError)
  ∧ (∀ fuel e, find_zero fuel 1 2 cb 1e-6 1e-8 1 = Raise e →
       (∃ f, cb f = Raise e) ∨ (e = IndexError ∧ ∃ f, cb f = Ret [])).
Proof.
  intros cb. split.
  - apply (proj1 (find_zero_failures 1%float 2%float cb 1e-6%float
                    1e-8%float 7)); lia.
  - apply (proj2 (find_zero_failures 1%float 2%float cb 1e-6%float
                    1e-8%float 1)).
    by right.
Defined.

(** ** [describe_gaps] and the tables *)

Lemma pair_kind_kind_table (gmin gmax : boundary) :
  pair_kind gmin gmax
  = match kind_table (flag gmin) (flag gmax) with
    | Some kd => Ret kd
    | None => Raise TypeError
    end.
Proof.
  unfold pair_kind, flags_are, kind_table.
  destruct (flag gmin) as [|[[?|?|]|[?|?|]|]|?],
    (flag gmax) as [|[[?|?|]|[?|?|]|]|?]; reflexivity.
Qed.

Lemma subgap_kind_subkind_table (kind_var : option kind)
    (gmin gmax : boundary) :
  subgap_kind kind_var gmin gmax
  = match subkind_table (flag gmin) (flag gmax) with
    | Some kd => Some kd
    | None => kind_var
    end.
Proof.
  unfold subgap_kind, flags_are, subkind_table.
  destruct (flag gmin) as [|[[?|?|]|[?|?|]|]|?],
    (flag gmax) as [|[[?|?|]|[?|?|]|]|?]; reflexivity.
Qed.

Lemma describe_subgaps_length :
  ∀ subgaps kind_var subkinds kind_var' result,
  describe_subgaps kind_var subkinds subgaps = Ret (kind_var', result) →
  length result = (length subkinds + length subgaps)%nat.
Proof.
  induction subgaps as [|[gmin gmax] subgaps IH];
    intros kind_var subkinds kind_var' result H; simpl in H.
  - injection H as <- <-. simpl. lia.
  - destruct (subgap_kind kind_var gmin gmax) as [k|]; [|discriminate].
    apply IH in H. rewrite H, length_app. simpl. lia.
Qed.

Lemma describe_subgaps_classified :
  ∀ subgaps kind_var subkinds,
  Forall (λ '(gmin, gmax), is_Some (subkind_table (flag gmin) (flag gmax)))
         subgaps →
  ∃ kind_var' kds,
    describe_subgaps kind_var subkinds subgaps
      = Ret (kind_var', subkinds ++ kds)
    ∧ Forall2 (λ '(gmin, gmax) kd,
                 subkind_table (flag gmin) (flag gmax) = Some kd)
              subgaps kds.
Proof.
  induction subgaps as [|[gmin gmax] subgaps IH]; intros kind_var subkinds H.
  - exists kind_var, []. simpl. rewrite app_nil_r. split; [done|constructor].
  - apply Forall_cons in H as [[kd Hkd] H]. simpl.
    rewrite subgap_kind_subkind_table, Hkd.
    destruct (IH (Some kd) (subkinds ++ [kd]) H) as (kv' & kds & Hrun & Hall).
    exists kv', (kd :: kds). rewrite Hrun, <- app_assoc.
    split; [done|]. by constructor.
Qed.

Lemma describe_gaps_loop_shaped :
  ∀ gaps kind_var kinds result,
  describe_gaps_loop kind_var kinds gaps = Ret result →
  ∃ ks, result = kinds ++ ks ∧ Forall2 shaped gaps ks.
Proof.
  induction gaps as [|g gaps IH]; intros kind_var kinds result H; simpl in H.
  - injection H as <-. exists []. rewrite app_nil_r. split; [done|constructor].
  - destruct g as [gmin gmax|subgaps].
    + apply bind_Ret in H as (kd & Hkd & H).
      apply IH in H as (ks & -> & Hall).
      exists (Kind kd :: ks). rewrite <- app_assoc. split; [done|].
      constructor; [|done]. simpl.
      rewrite pair_kind_kind_table in Hkd.
      destruct (kind_table _ _); [by injection Hkd as ->|discriminate].
    + apply bind_Ret in H as ([kv' subkinds] & Hsub & H).
      apply IH in H as (ks & -> & Hall).
      exists (SubKinds subkinds :: ks). rewrite <- app_assoc. split; [done|].
      constructor; [|done]. simpl.
      apply describe_subgaps_length in Hsub. simpl in Hsub. done.
Qed.

Lemma describe_gaps_loop_classified :
  ∀ gaps kind_var kinds,
  Forall classifiable gaps →
  ∃ ks, describe_gaps_loop kind_var kinds gaps = Ret (kinds ++ ks)
        ∧ Forall2 classified gaps ks.
Proof.
  induction gaps as [|g gaps IH]; intros kind_var kinds H.
  - exists []. simpl. rewrite app_nil_r. split; [done|constructor].
  - apply Forall_cons in H as [Hg H]. destruct g as [gmin gmax|subgaps].
    + destruct Hg as [kd Hkd]. simpl.
      rewrite pair_kind_kind_table, Hkd. simpl.
      destruct (IH (Some kd) (kinds ++ [Kind kd]) H) as (ks & Hrun & Hall).
      exists (Kind kd :: ks). rewrite Hrun, <- app_assoc.
      split; [done|]. by constructor.
    + destruct (describe_subgaps_classified subgaps kind_var [] Hg)
        as (kv' & kds & Hsub & Hkds).
      simpl. rewrite Hsub. simpl.
      destruct (IH kv' (kinds ++ [SubKinds kds]) H) as (ks & Hrun & Hall).
      exists (SubKinds kds :: ks). rewrite Hrun, <- app_assoc.
      split; [done|]. by constructor.
Qed.

(** X3: when every flag pair of [gaps] is in the tables (six kinds for a
    plain pair, three for a sub-gap pair), [describe_gaps] returns one entry
    per gap, and every kind is the one the table gives for that pair alone:
    nothing depends on the entries before it. *)
Theorem describe_gaps_by_table (gaps : list gap) :
  Forall classifiable gaps →
  ∃ kinds, describe_gaps gaps = Ret kinds ∧ Forall2 classified gaps kinds.
Proof.
  intros H. destruct (describe_gaps_loop_classified gaps None [] H)
    as (ks & Hrun & Hall).
  by exists ks.
Qed.

Lemma describe_gaps_by_table_witness :
  ∃ kinds,
    describe_gaps
      [GapPair (Boundary 1 1 (-1)) (Boundary 2 2 1);
       GapList [(Boundary 1 3 (-1), Boundary 1 4 (-1));
                (Boundary 0 5 1, Boundary 2 5 1)]] = Ret kinds
    ∧ Forall2 classified
        [GapPair (Boundary 1 1 (-1)) (Boundary 2 2 1);
         GapList [(Boundary 1 3 (-1), Boundary 1 4 (-1));
                  (Boundary 0 5 1, Boundary 2 5 1)]] kinds.
Proof.
  apply describe_gaps_by_table.
  repeat constructor; simpl; eauto.
Defined.

(** X4: whatever [describe_gaps] is given, when it returns, [kinds] has
    one entry per gap; the entry of a plain pair is the kind the table gives
    for its flags (a plain pair outside the table is never passed over), and
    the entry of a list of sub-gaps is a list of the same length. *)
Theorem describe_gaps_shape (gaps : list gap) (kinds : list kinds_item) :
  describe_gaps gaps = Ret kinds →
  length kinds = length gaps ∧ Forall2 shaped gaps kinds.
Proof.
  intros H. apply describe_gaps_loop_shaped in H as (ks & -> & Hall).
  split; [|done]. symmetry. by eapply Forall2_length.
Qed.

Lemma describe_gaps_shape_witness :
  length [Kind ("w", "full weak band gap")%string]
    = length [GapPair (Boundary 1 1 (-1)) (Boundary 2 2 1)]
  ∧ Forall2 shaped [GapPair (Boundary 1 1 (-1)) (Boundary 2 2 1)]
      [Kind ("w", "full weak band gap")%string].
Proof.
  apply describe_gaps_shape. reflexivity.
Defined.

(** ** What [detect_band_gaps] returns *)

Lemma length_py_insert {A} (i : nat) (x : A) (l : list A) :
  length (Py.insert i x l) = S (length l).
Proof.
  unfold Py.insert. rewrite length_app. simpl.
  rewrite <- (take_drop i l) at 3. rewrite length_app. lia.
Qed.

(** X5: when [detect_band_gaps] returns, the frequency logs, the
    eigenvalue logs, [gaps] and [kinds] all have one entry per interval,
    that is one more than there are resonance frequencies in [freq_range];
    every plain pair of [gaps] carries the kind of the table and every list
    of sub-gaps a list of as many kinds. *)
Theorem detect_band_gaps_entries warped fuel fz trace fi o gap_kind
    log_freqs log_eigs gaps kinds :
  detect_band_gaps warped fuel fz trace fi o gap_kind
    = Ret (log_freqs, log_eigs, gaps, kinds) →
  let n := S (length (freq_range fi)) in
  length log_freqs = n ∧ length log_eigs = n ∧ length gaps = n
  ∧ length kinds = n ∧ Forall2 shaped gaps kinds.
Proof.
  unfold detect_band_gaps. intros H.
  apply bind_Ret in H as (min_freq & _ & H).
  apply bind_Ret in H as (max_freq & _ & H).
  apply bind_Ret in H as (rs & Hrs & H).
  apply bind_Ret in H as (kinds' & Hkinds & H). injection H as <- <- <- <-.
  apply detect_intervals_length in Hrs.
  rewrite length_seq, Nat.add_1_r in Hrs.
  apply describe_gaps_loop_shaped in Hkinds as (ks & -> & Hall).
  simpl. rewrite !length_fmap.
  repeat split; try done.
  apply Forall2_length in Hall. rewrite length_fmap in Hall. lia.
Qed.

Lemma detect_band_gaps_entries_witness :
  let n := S (length (freq_range (FreqInfo [] [0%float; 6%float]))) in
  length [[1; 2; 2; 3; 3; 4; 5]%float] = n
  ∧ length [[[-2; -1]; [-1; 0]; [-1; 0]; [0; 1]; [0; 1]; [1; 2]; [2; 3]]%float]
    = n
  ∧ length [GapPair (Boundary 0 3 0) (Boundary 0 2 0)] = n
  ∧ length [Kind ("swp",
                  "strong band gap + weak band gap + propagation zone")%string]
    = n
  ∧ Forall2 shaped [GapPair (Boundary 0 3 0) (Boundary 0 2 0)]
      [Kind ("swp",
             "strong band gap + weak band gap + propagation zone")%string].
Proof.
  apply (detect_band_gaps_entries (λ _ _ _ _, [1; 2; 3; 4; 5]%float) 100
           (λ f, Ret [(f - 3)%float; (f - 2)%float])
           (λ f, Ret [(f - 3)%float; (f - 2)%float])
           (FreqInfo [] [0%float; 6%float]) (Opts 0.05 1e-8 1e-8) "normal").
  vm_compute. reflexivity.
Defined.

(** X6: in every interval the logged frequencies and the logged
    eigenvalue sets stay aligned: both logs have as many entries as there
    were samples plus one for each root search that was made. *)
Theorem detect_interval_logs warped fuel fz trace o gap_kind df f0 f1 r :
  detect_interval warped fuel fz trace o gap_kind df f0 f1 = Ret r →
  length (ir_log_freqs r) = length (ir_log_mevp r)
  ∧ length (ir_log_freqs r)
    = (length (sample_freqs warped f0 f1 (feps o) df)
       + length (ir_zero_searches r))%nat.
Proof.
  unfold detect_interval. intros H.
  apply bind_Ret in H as (log_mevp & Htrace & H).
  apply mapM_Ret_length in Htrace.
  apply bind_Ret in H as (lf0 & _ & H). apply bind_Ret in H as (lf1 & _ & H).
  apply bind_Ret in H as (log0 & _ & H). apply bind_Ret in H as (log1 & _ & H).
  apply bind_Ret in H as (min_eig0 & _ & H).
  apply bind_Ret in H as (max_eig1 & _ & H).
  destruct (String.eqb gap_kind "liquid").
  { apply bind_Ret in H as (g & _ & H). injection H as <-. simpl. lia. }
  unfold normal_gap in H.
  destruct (0 <? min_eig0)%float.
  { apply bind_Ret in H as (a & _ & H). apply bind_Ret in H as (b & _ & H).
    injection H as <-. simpl. lia. }
  destruct (max_eig1 <? 0)%float.
  { apply bind_Ret in H as (a & _ & H). apply bind_Ret in H as (b & _ & H).
    injection H as <-. simpl. lia. }
  apply bind_Ret in H as ([[smax fmax] vmax] & _ & H).
  apply bind_Ret in H as (data & _ & H).
  destruct ((smax =? 0) || (smax =? 2)).
  { apply bind_Ret in H as ([[smin fmin] vmin] & _ & H).
    apply bind_Ret in H as (data' & _ & H). injection H as <-. simpl.
    rewrite !length_py_insert. lia. }
  destruct (smax =? 1); [|discriminate].
  injection H as <-. simpl. rewrite !length_py_insert. lia.
Qed.

Lemma detect_interval_logs_witness :
  let r :=
    IntervalResult
      (GapPair (Boundary 2 1.49999999 1) (Boundary 2 1.49999999 2))
      [1.49999999%float; 1.50000001%float]
      [[1%float; 2%float]; [1%float; 2%float]] [] in
  length (ir_log_freqs r) = length (ir_log_mevp r)
  ∧ length (ir_log_freqs r)
    = (length (sample_freqs (λ _ _ _ _, []) 1 2 1 0.05)
       + length (ir_zero_searches r))%nat.
Proof.
  intros r.
  apply (detect_interval_logs (λ _ _ _ _, []) 0 (λ _, Raise KeyError)
           (λ _, Ret [1%float; 2%float]) (Opts 0.05 1 1e-8) "normal"
           0.05%float 1%float 2%float r).
  reflexivity.
Defined.

(** X7: in normal mode every interval yields a plain pair.  A pair whose
    upper boundary has flag 1 has flag 1 at its lower boundary too, at the
    same frequency; and the only flag pair that [describe_gaps] does not
    know and that can come out is (2, 0). *)
Theorem normal_mode_pairs warped fuel fz trace o gap_kind df f0 f1 r :
  String.eqb gap_kind "liquid" = false →
  detect_interval warped fuel fz trace o gap_kind df f0 f1 = Ret r →
  ∃ gmin gmax,
    ir_gap r = GapPair gmin gmax
    ∧ (flag gmax = 1 → flag gmin = 1 ∧ frequency gmin = frequency gmax)
    ∧ (is_Some (kind_table (flag gmin) (flag gmax))
       ∨ (flag gmin = 2 ∧ flag gmax = 0)).
Proof.
  unfold detect_interval. intros Hkind H. rewrite Hkind in H.
  apply bind_Ret in H as (log_mevp & _ & H).
  apply bind_Ret in H as (lf0 & _ & H). apply bind_Ret in H as (lf1 & _ & H).
  apply bind_Ret in H as (log0 & _ & H). apply bind_Ret in H as (log1 & _ & H).
  apply bind_Ret in H as (min_eig0 & _ & H).
  apply bind_Ret in H as (max_eig1 & _ & H).
  unfold normal_gap in H.
  destruct (0 <? min_eig0)%float.
  { apply bind_Ret in H as (a & _ & H). apply bind_Ret in H as (b & _ & H).
    injection H as <-. eexists _, _. split; [reflexivity|]. simpl.
    split; [done|]. left. eauto. }
  destruct (max_eig1 <? 0)%float.
  { apply bind_Ret in H as (a & _ & H). apply bind_Ret in H as (b & _ & H).
    injection H as <-. eexists _, _. split; [reflexivity|]. simpl.
    split; [done|]. left. eauto. }
  apply bind_Ret in H as ([[smax fmax] vmax] & Hmax & H).
  apply find_zero_flag in Hmax.
  apply bind_Ret in H as (data & _ & H).
  destruct ((smax =? 0) || (smax =? 2)) eqn:Hs.
  { apply bind_Ret in H as ([[smin fmin] vmin] & Hmin & H).
    apply find_zero_flag in Hmin.
    apply bind_Ret in H as (data' & _ & H). injection H as <-.
    eexists _, _. split; [reflexivity|]. simpl.
    destruct Hmax as [-> | [-> | ->]]; try discriminate Hs;
      destruct Hmin as [-> | [-> | ->]]; simpl;
      (split; [done|]); eauto. }
  destruct (smax =? 1) eqn:H1; [|discriminate].
  apply Z.eqb_eq in H1 as ->. injection H as <-.
  eexists _, _. split; [reflexivity|]. simpl.
  split; [done|]. left. eauto.
Qed.

Lemma normal_mode_pairs_witness :
  ∃ gmin gmax,
    ir_gap (IntervalResult
              (GapPair (Boundary 2 1.49999999 1) (Boundary 2 1.49999999 2))
              [1.49999999%float; 1.50000001%float]
              [[1%float; 2%float]; [1%float; 2%float]] [])
      = GapPair gmin gmax
    ∧ (flag gmax = 1 → flag gmin = 1 ∧ frequency gmin = frequency gmax)
    ∧ (is_Some (kind_table (flag gmin) (flag gmax))
       ∨ (flag gmin = 2 ∧ flag gmax = 0)).
Proof.
  apply (normal_mode_pairs (λ _ _ _ _, []) 0 (λ _, Raise KeyError)
           (λ _, Ret [1%float; 2%float]) (Opts 0.05 1 1e-8) "normal"
           0.05%float 1%float 2%float); reflexivity.
Defined.

Lemma chunk_gap_flags log_freqs mevp flag_min flag_max c g :
  chunk_gap log_freqs mevp flag_min flag_max c = Ret g →
  flag g.1 = flag_min ∧ flag g.2 = flag_max.
Proof.
  unfold chunk_gap. intros H.
  repeat (apply bind_Ret in H as (? & _ & H)).
  by injection H as <-.
Qed.

Lemma chunk_gaps_flags log_freqs mevp flag_min flag_max chunks gs :
  mapM (chunk_gap log_freqs mevp flag_min flag_max) chunks = Ret gs →
  Forall (λ g, flag g.1 = flag_min ∧ flag g.2 = flag_max) gs.
Proof.
  intros H. apply mapM_Ret_Forall2 in H.
  induction H as [|c g chunks gs Hg _ IH]; constructor; [|done].
  by eapply chunk_gap_flags.
Qed.

Lemma liquid_gap_classifiable log_freqs log_mevp lf0 lf1 log0 log1 g :
  liquid_gap log_freqs log_mevp lf0 lf1 log0 log1 = Ret g → classifiable g.
Proof.
  unfold liquid_gap. intros H.
  apply bind_Ret in H as (mevp & _ & H).
  apply bind_Ret in H as (col0 & _ & H).
  apply bind_Ret in H as (col1 & _ & H).
  destruct (_ =? 0)%nat.
  { apply bind_Ret in H as (a & _ & H). apply bind_Ret in H as (b & _ & H).
    injection H as <-. simpl. eauto. }
  destruct (_ =? _)%nat.
  { apply bind_Ret in H as (a & _ & H). apply bind_Ret in H as (b & _ & H).
    injection H as <-. simpl. eauto. }
  apply bind_Ret in H as (strong & Hstrong & H).
  apply bind_Ret in H as (weak & Hweak & H). injection H as <-.
  apply chunk_gaps_flags in Hstrong, Hweak.
  simpl. apply Forall_app. split.
  - eapply Forall_impl; [exact Hstrong|]. intros [a b] [Ha Hb].
    simpl in *. rewrite Ha, Hb. simpl. eauto.
  - eapply Forall_impl; [exact Hweak|]. intros [a b] [Ha Hb].
    simpl in *. rewrite Ha, Hb. simpl. eauto.
Qed.

Lemma liquid_intervals_classifiable warped fuel fz trace o df fm :
  ∀ iis rs,
  detect_intervals warped fuel fz trace o "liquid" df fm iis = Ret rs →
  Forall classifiable (ir_gap <$> rs).
Proof.
  induction iis as [|i iis IH]; intros rs H; simpl in H.
  - injection H as <-. constructor.
  - apply bind_Ret in H as (f0 & _ & H).
    apply bind_Ret in H as (f1 & _ & H).
    apply bind_Ret in H as (r & Hr & H).
    apply bind_Ret in H as (rs' & Hrs & H). injection H as <-.
    rewrite fmap_cons. constructor; [|by apply IH].
    unfold detect_interval in Hr.
    do 7 (apply bind_Ret in Hr as (? & _ & Hr)).
    simpl in Hr. apply bind_Ret in Hr as (g & Hg & Hr).
    injection Hr as <-. simpl. by eapply liquid_gap_classifiable.
Qed.

(** X8: in liquid mode the classification at the end of
    [detect_band_gaps] cannot fail and never falls back on the kind of an
    earlier pair: once every interval has been processed, [describe_gaps]
    returns, and every entry is the kind the tables give for the flags of
    its own pair ("p" or "s" for a plain pair, "is" or "iw" for a
    sub-gap). *)
Theorem liquid_mode_classification warped fuel fz trace o df fm iis rs :
  detect_intervals warped fuel fz trace o "liquid" df fm iis = Ret rs →
  ∃ kinds,
    describe_gaps (ir_gap <$> rs) = Ret kinds
    ∧ Forall2 classified (ir_gap <$> rs) kinds.
Proof.
  intros H. apply liquid_intervals_classifiable in H.
  destruct (describe_gaps_loop_classified _ None [] H) as (ks & Hrun & Hall).
  by exists ks.
Qed.

Lemma liquid_mode_classification_witness :
  let rs :=
    [IntervalResult
       (GapList
          [(Boundary 1 1 (-1), Boundary 1 2 (-1));
           (Boundary 0 3 1, Boundary 2 3 1);
           (Boundary 0 5 3, Boundary 2 5 3)])
       [1; 2; 3; 4; 5]%float
       [[-2; -1]; [-2; -1]; [-1; 1]; [1; 2]; [-1; 3]]%float []] in
  ∃ kinds,
    describe_gaps (ir_gap <$> rs) = Ret kinds
    ∧ Forall2 classified (ir_gap <$> rs) kinds.
Proof.
  intros rs.
  apply (liquid_mode_classification (λ _ _ _ _, [1; 2; 3; 4; 5]%float) 0
           (λ _, Raise KeyError) example_trace (Opts 0.05 1e-8 1e-8)
           0.3%float [0%float; 6%float] [0%nat] rs).
  vm_compute. reflexivity.
Defined.

(** ** [cut_freq_range], [fix_eig_range] and [BandGaps] *)

Lemma float_ltb_irrefl (x : float) : (x <? x)%float = false.
Proof.
  rewrite ltb_spec. unfold SFltb, SFcompare.
  destruct (Prim2SF x) as [[|]|[|]| |[|] m e]; try done;
    by rewrite Z.compare_refl, Pos.compare_cont_refl.
Qed.

Lemma float_ltb_asym (x y : float) :
  (x <? y)%float = true → (y <? x)%float = false.
Proof.
  rewrite !ltb_spec. unfold SFltb, SFcompare.
  destruct (Prim2SF x) as [[|]|[|]| |[|] mx ex],
    (Prim2SF y) as [[|]|[|]| |[|] my ey]; try done; intros H;
    rewrite (Z.compare_antisym ex ey);
    change (Pos.compare_cont Eq my mx)
      with (Pos.compare_cont (CompOpp Eq) my mx);
    rewrite <- (Pos.compare_cont_antisym mx my Eq);
    destruct (ex ?= ey); simpl in *; try done;
    by destruct (Pos.compare_cont Eq mx my).
Qed.

Lemma max2_not_below (a b : float) :
  (Builtin.max2 a b <? a)%float = false
  ∧ (Builtin.max2 a b <? b)%float = false.
Proof.
  unfold Builtin.max2. destruct (a <? b)%float eqn:Hab.
  - split; [by apply float_ltb_asym|apply float_ltb_irrefl].
  - split; [apply float_ltb_irrefl|done].
Qed.

(** X9: [cut_freq_range] returns the masked frequencies framed by the
    two margins.  With a fixed range the margins are the given ones;
    otherwise the lower margin is never below [feps] and the upper margin
    never below the lower one plus [feps], whatever the eigenvalues and the
    requested margins are. *)
Theorem cut_freq_range_margins freq_range eigs valid freq_margins er
    fixed_eig_range feps kept margins :
  cut_freq_range freq_range eigs valid freq_margins er fixed_eig_range feps
    = Ret (kept, margins) →
  ∃ prev_eig next_eig,
    margins = prev_eig :: kept ++ [next_eig]
    ∧ kept = Mat.select freq_range
               (Builtin.slice_z valid (er_start er) (er_stop er))
    ∧ match fixed_eig_range with
      | Some fixed => fixed = (prev_eig, next_eig)
      | None =>
          (prev_eig <? feps)%float = false
          ∧ (next_eig <? prev_eig + feps)%float = false
      end.
Proof.
  unfold cut_freq_range. intros H.
  apply bind_Ret in H as ([prev_eig next_eig] & Hm & H).
  injection H as <- <-. exists prev_eig, next_eig.
  split; [done|]. split; [done|].
  destruct fixed_eig_range as [fixed|]; [by injection Hm as ->|].
  apply bind_Ret in Hm as (min_freq & _ & Hm).
  apply bind_Ret in Hm as (max_freq & _ & Hm).
  apply bind_Ret in Hm as (p & _ & Hm).
  apply bind_Ret in Hm as (n & _ & Hm).
  injection Hm as <- <-. split.
  - apply max2_not_below.
  - unfold Builtin.max3. apply max2_not_below.
Qed.

Lemma cut_freq_range_margins_witness :
  ∃ prev_eig next_eig,
    [0.9; 1; 3; 3.1]%float = prev_eig :: [1; 3]%float ++ [next_eig]
    ∧ [1; 3]%float
      = Mat.select [1; 2; 3]%float
          (Builtin.slice_z [true; false; true] 0 3)
    ∧ (prev_eig <? 1e-8)%float = false
    ∧ (next_eig <? prev_eig + 1e-8)%float = false.
Proof.
  apply (cut_freq_range_margins [1; 2; 3]%float [1; 4; 9]%float
           [true; false; true] (0.05%float, 0.05%float)
           (EigRange false 0 3) None 1e-8%float
           [1; 3]%float [0.9; 1; 3; 3.1]%float).
  vm_compute. reflexivity.
Defined.

Lemma getitem_lookup {A} (l : list A) (i : nat) (x : A) :
  Py.getitem l (Z.of_nat i) = Ret x ↔ l !! i = Some x.
Proof.
  split; [|apply getitem_nat].
  unfold Py.getitem.
  destruct (Z.ltb_spec (Z.of_nat i) 0); [lia|].
  destruct (Z.ltb_spec (Z.of_nat i) 0); [lia|].
  rewrite Nat2Z.id. by destruct (l !! i); [intros [= ->]|].
Qed.

(** X10: the margins that [cut_freq_range] returns are what the interval
    loop of [detect_band_gaps] needs: for every interval index up to the
    number of kept frequencies both bounds exist, the lower one being the
    entry of the lower margin followed by the kept frequencies, and the
    upper one the entry of the kept frequencies followed by the upper
    margin. *)
Theorem cut_freq_range_intervals freq_range eigs valid freq_margins er
    fixed_eig_range feps kept margins (ii : nat) :
  cut_freq_range freq_range eigs valid freq_margins er fixed_eig_range feps
    = Ret (kept, margins) →
  (ii ≤ length kept)%nat →
  ∃ prev_eig next_eig f0 f1,
    Py.getitem margins (Z.of_nat ii) = Ret f0
    ∧ Py.getitem margins (Z.of_nat ii + 1) = Ret f1
    ∧ (prev_eig :: kept) !! ii = Some f0
    ∧ (kept ++ [next_eig]) !! ii = Some f1
    ∧ Py.getitem margins 0 = Ret prev_eig
    ∧ Py.getitem margins (-1) = Ret next_eig.
Proof.
  unfold cut_freq_range. intros H Hii.
  apply bind_Ret in H as ([prev_eig next_eig] & _ & H).
  injection H as <- <-.
  set (kept := Mat.select _ _) in *.
  destruct (lookup_lt_is_Some_2 (prev_eig :: kept) ii) as [f0 Hf0];
    [simpl; lia|].
  destruct (lookup_lt_is_Some_2 (kept ++ [next_eig]) ii) as [f1 Hf1];
    [rewrite length_app; simpl; lia|].
  exists prev_eig, next_eig, f0, f1.
  repeat split; try done.
  - apply getitem_lookup. simpl.
    rewrite (app_comm_cons kept [next_eig] prev_eig).
    rewrite lookup_app_l; [done|simpl; lia].
  - replace (Z.of_nat ii + 1) with (Z.of_nat (S ii)) by lia.
    by apply getitem_lookup.
  - apply getitem_last. simpl.
    rewrite (app_comm_cons kept [next_eig] prev_eig).
    apply last_snoc.
Qed.

Lemma cut_freq_range_intervals_witness :
  ∃ prev_eig next_eig f0 f1,
    Py.getitem [0.9; 1; 3; 3.1]%float (Z.of_nat 1) = Ret f0
    ∧ Py.getitem [0.9; 1; 3; 3.1]%float (Z.of_nat 1 + 1) = Ret f1
    ∧ (prev_eig :: [1; 3]%float) !! 1%nat = Some f0
    ∧ ([1; 3]%float ++ [next_eig]) !! 1%nat = Some f1
    ∧ Py.getitem [0.9; 1; 3; 3.1]%float 0 = Ret prev_eig
    ∧ Py.getitem [0.9; 1; 3; 3.1]%float (-1) = Ret next_eig.
Proof.
  apply (cut_freq_range_intervals [1; 2; 3]%float [1; 4; 9]%float
           [true; false; true] (0.05%float, 0.05%float)
           (EigRange false 0 3) None 1e-8%float
           [1; 3]%float [0.9; 1; 3; 3.1]%float 1).
  - vm_compute. reflexivity.
  - simpl. lia.
Defined.

Lemma assert_Ret (c : bool) (u : unit) :
  DensityVolumeInfo.assert_ c = Ret u → c = true.
Proof. by destruct c. Qed.

Lemma length_slice_z {A} (l : list A) (a b : Z) :
  0 <= a → a <= b → b <= Z.of_nat (length l) →
  length (Builtin.slice_z l a b) = Z.to_nat (b - a).
Proof.
  intros Ha Hab Hb. unfold Builtin.slice_z, Builtin.slice_bound, Py.slice.
  destruct (Z.ltb_spec a 0); [lia|]. destruct (Z.ltb_spec b 0); [lia|].
  rewrite length_take, length_drop. lia.
Qed.

(** X11: [fix_eig_range] takes a negative stop only from a list, where it
    counts from [n_eigs + 1] (so that -1 stands for [n_eigs]); in a tuple,
    the default form, a negative stop raises [TypeError].  A range that it
    accepts is the configured one with only that change; its start is at
    least two below its stop and its stop at most [n_eigs], whatever was
    configured and whatever the default is; and when the start is not
    negative the range selects at least two of the [n_eigs] eigenvalues. *)
Theorem fix_eig_range_accepts get_default (n_eigs : nat)
    (configured : option eig_range) :
  let given := get_default configured (EigRange false 0 (Z.of_nat n_eigs)) in
  (er_stop given < 0 → er_is_list given = false →
   fix_eig_range get_default n_eigs configured = Raise TypeError)
  ∧ ∀ er, fix_eig_range get_default n_eigs configured = Ret er →
      (er_stop given < 0 →
       er_is_list given = true
       ∧ er = EigRange true (er_start given)
                (er_stop given + (Z.of_nat n_eigs + 1)))
      ∧ (0 <= er_stop given → er = given)
      ∧ er_start er < er_stop er - 1
      ∧ er_stop er <= Z.of_nat n_eigs
      ∧ (er_stop given = -1 → er_stop er = Z.of_nat n_eigs)
      ∧ (0 <= er_start er →
         ∀ eigs : list float, length eigs = n_eigs →
         (2 ≤ length (Builtin.slice_z eigs (er_start er) (er_stop er)))%nat).
Proof.
  intros given. unfold fix_eig_range. fold given. split.
  - intros Hneg Htuple. apply Z.ltb_lt in Hneg. by rewrite Hneg, Htuple.
  - intros er H.
    apply bind_Ret in H as (er' & Her & H).
    apply bind_Ret in H as (u1 & H1 & H).
    apply bind_Ret in H as (u2 & H2 & H). injection H as ->.
    apply assert_Ret in H1, H2.
    apply Z.ltb_lt in H1. apply Z.leb_le in H2.
    destruct (Z.ltb_spec (er_stop given) 0) as [Hneg|Hpos].
    + destruct (er_is_list given) eqn:Hlist; [|discriminate].
      injection Her as <-. simpl in *.
      split; [done|]. split; [lia|]. split; [done|]. split; [done|].
      split; [lia|]. intros Hstart eigs Hlen. rewrite length_slice_z; lia.
    + injection Her as <-.
      split; [lia|]. split; [done|]. split; [done|]. split; [done|].
      split; [lia|]. intros Hstart eigs Hlen. rewrite length_slice_z; lia.
Qed.

Lemma fix_eig_range_accepts_witness :
  let get_default := λ (o : option eig_range) d, default d o in
  let given := EigRange true 1 (-1) in
  let er := EigRange true 1 5 in
  fix_eig_range get_default 5 (Some (EigRange false 1 (-1))) = Raise TypeError
  ∧ (er_stop given < 0 →
     er_is_list given = true
     ∧ er = EigRange true (er_start given)
              (er_stop given + (Z.of_nat 5 + 1)))
  ∧ (0 <= er_stop given → er = given)
  ∧ er_start er < er_stop er - 1
  ∧ er_stop er <= Z.of_nat 5
  ∧ (er_stop given = -1 → er_stop er = Z.of_nat 5)
  ∧ (0 <= er_start er →
     ∀ eigs : list float, length eigs = 5%nat →
     (2 ≤ length (Builtin.slice_z eigs (er_start er) (er_stop er)))%nat).
Proof.
  intros get_default given er. split.
  - apply (proj1 (fix_eig_range_accepts get_default 5
                    (Some (EigRange false 1 (-1))))); [simpl; lia|reflexivity].
  - apply (proj2 (fix_eig_range_accepts get_default 5 (Some given)) er).
    reflexivity.
Defined.

Lemma normal_interval_pair warped fuel fz trace o gap_kind df f0 f1 r :
  String.eqb gap_kind "liquid" = false →
  detect_interval warped fuel fz trace o gap_kind df f0 f1 = Ret r →
  ∃ gmin gmax, ir_gap r = GapPair gmin gmax.
Proof.
  unfold detect_interval. intros Hkind H. rewrite Hkind in H.
  do 7 (apply bind_Ret in H as (? & _ & H)).
  unfold normal_gap in H.
  destruct (0 <? _)%float.
  { do 2 (apply bind_Ret in H as (? & _ & H)). injection H as <-.
    simpl. eauto. }
  destruct (_ <? 0)%float.
  { do 2 (apply bind_Ret in H as (? & _ & H)). injection H as <-.
    simpl. eauto. }
  apply bind_Ret in H as ([[smax fmax] vmax] & _ & H).
  apply bind_Ret in H as (data & _ & H).
  destruct ((smax =? 0) || (smax =? 2)).
  { apply bind_Ret in H as ([[smin fmin] vmin] & _ & H).
    apply bind_Ret in H as (data' & _ & H). injection H as <-.
    simpl. eauto. }
  destruct (smax =? 1); [|discriminate].
  injection H as <-. simpl. eauto.
Qed.

Lemma normal_intervals_pairs warped fuel fz trace o df fm :
  ∀ iis rs,
  detect_intervals warped fuel fz trace o "normal" df fm iis = Ret rs →
  Forall (λ g, ∃ gmin gmax, g = GapPair gmin gmax) (ir_gap <$> rs).
Proof.
  induction iis as [|i iis IH]; intros rs H; simpl in H.
  - injection H as <-. constructor.
  - apply bind_Ret in H as (f0 & _ & H).
    apply bind_Ret in H as (f1 & _ & H).
    apply bind_Ret in H as (r & Hr & H).
    apply bind_Ret in H as (rs' & Hrs & H). injection H as <-.
    rewrite fmap_cons. constructor; [|by apply IH].
    by apply (normal_interval_pair warped fuel fz trace o "normal" df f0 f1).
Qed.

(** X12: when [BandGaps.__call__] returns, the resonance frequencies it
    kept are framed by two margins, there is one gap, one kind and one pair
    of logs for every interval between neighbouring entries of the margins
    (one more than kept frequencies), the initial frequency range is not
    empty, and every gap is a plain pair classified by the table: the list
    form of the liquid mode never comes out of [BandGaps]. *)
Theorem band_gaps_result get_default pow2 warped fuel fz trace eigs ema o bg :
  band_gaps_call get_default pow2 warped fuel fz trace eigs ema o = Ret bg →
  let n := S (length (bg_freq_range bg)) in
  (∃ prev_eig next_eig,
     bg_freq_range_margins bg = prev_eig :: bg_freq_range bg ++ [next_eig])
  ∧ length (bg_gaps bg) = n ∧ length (bg_kinds bg) = n
  ∧ length (bg_log_freqs bg) = n ∧ length (bg_log_eigs bg) = n
  ∧ bg_freq_range_initial bg ≠ []
  ∧ Forall2 (λ g k, ∃ gmin gmax kd,
               g = GapPair gmin gmax ∧ k = Kind kd
               ∧ kind_table (flag gmin) (flag gmax) = Some kd)
            (bg_gaps bg) (bg_kinds bg).
Proof.
  unfold band_gaps_call. intros H.
  apply bind_Ret in H as (er & _ & H).
  apply bind_Ret in H as ([fri er'] & _ & H).
  apply bind_Ret in H as (first & Hfirst & H).
  apply bind_Ret in H as (last & _ & H).
  apply bind_Ret in H as ([kept margins] & Hcut & H).
  apply bind_Ret in H as ([[[lf le] gaps] kinds] & Hdetect & H).
  injection H as <-. simpl.
  unfold cut_freq_range in Hcut.
  apply bind_Ret in Hcut as ([prev_eig next_eig] & _ & Hcut).
  injection Hcut as <- <-.
  set (kept := Mat.select _ _) in *.
  unfold detect_band_gaps in Hdetect.
  apply bind_Ret in Hdetect as (min_freq & _ & Hdetect).
  apply bind_Ret in Hdetect as (max_freq & _ & Hdetect).
  apply bind_Ret in Hdetect as (rs & Hrs & Hdetect).
  apply bind_Ret in Hdetect as (kinds' & Hkinds & Hdetect).
  injection Hdetect as <- <- <- <-.
  pose proof (detect_intervals_length _ _ _ _ _ _ _ _ _ _ Hrs) as Hlen.
  rewrite length_seq, Nat.add_1_r in Hlen.
  pose proof (normal_intervals_pairs _ _ _ _ _ _ _ _ _ Hrs) as Hpairs.
  unfold describe_gaps in Hkinds.
  apply describe_gaps_loop_shaped in Hkinds as (ks & -> & Hall).
  pose proof (Forall2_length _ _ _ Hall) as Hks.
  rewrite length_fmap in Hks. rewrite !length_fmap.
  simpl in Hlen |- *.
  split; [by exists prev_eig, next_eig|].
  split; [lia|]. split; [lia|]. split; [lia|]. split; [lia|].
  split.
  - intros ->. discriminate Hfirst.
  - clear Hks Hlen Hrs.
    induction Hall as [|g k gs ks' Hgk _ IH]; [constructor|].
    apply Forall_cons in Hpairs as [(gmin & gmax & ->) Hpairs].
    constructor; [|by apply IH].
    destruct k as [kd|]; [|done]. by exists gmin, gmax, kd.
Qed.

Lemma band_gaps_result_witness :
  let bg :=
    BandGapsResult
      [[1.5; 2; 2.5]%float] [[[1]; [1]; [1]]%float]
      [GapPair (Boundary 2 1.5 1) (Boundary 2 1.5 1)]
      [Kind ("p", "propagation zone")%string]
      [false; false] (EigRange false 0 2) 2 2 [1; 2]%float [] [0.95; 3]%float in
  let n := S (length (bg_freq_range bg)) in
  (∃ prev_eig next_eig,
     bg_freq_range_margins bg = prev_eig :: bg_freq_range bg ++ [next_eig])
  ∧ length (bg_gaps bg) = n ∧ length (bg_kinds bg) = n
  ∧ length (bg_log_freqs bg) = n ∧ length (bg_log_eigs bg) = n
  ∧ bg_freq_range_initial bg ≠ []
  ∧ Forall2 (λ g k, ∃ gmin gmax kd,
               g = GapPair gmin gmax ∧ k = Kind kd
               ∧ kind_table (flag gmin) (flag gmax) = Some kd)
            (bg_gaps bg) (bg_kinds bg).
Proof.
  intros bg.
  apply (band_gaps_result (λ o d, default d o) (λ x, x * x)%float
           (λ _ _ _ _, [1.5; 2; 2.5]%float) 0 (λ _, Ret [1%float])
           (λ _, Ret [1%float]) [1; 4]%float
           (EigenmomentaInfo 2 (Array2 1 [[0]; [0]]%float) [false; false])
           (BandGapsOpts None (0.05%float, 1%float) None (Opts 0.05 1e-8 1e-8))
           bg).
  vm_compute. reflexivity.
Defined.

(** ** [Eigenmomenta] *)

Lemma zero_rows_from (f : list float → list float) :
  ∀ (flags : list bool) (rs pre : list (list float)),
  length flags = length rs →
  fold_left (λ rs i, alter f i rs) (Np.where_from negb (length pre) flags)
            (pre ++ rs)
  = pre ++ zip_with (λ row (b : bool), if b then row else f row) rs flags.
Proof.
  induction flags as [|b flags IH]; intros rs pre Hlen.
  - destruct rs; [|discriminate]. reflexivity.
  - destruct rs as [|r rs]; [discriminate|]. injection Hlen as Hlen.
    pose proof (IH rs (pre ++ [r]) Hlen) as IHt.
    pose proof (IH rs (pre ++ [f r]) Hlen) as IHf.
    rewrite length_app, Nat.add_1_r in IHt, IHf. simpl in IHt, IHf.
    rewrite <- !app_assoc in IHt, IHf. simpl in IHt, IHf.
    simpl. destruct b; simpl; [exact IHt|].
    rewrite alter_app_r_alt by lia. rewrite Nat.sub_diag. simpl.
    exact IHf.
Qed.

Lemma where_from_negb_select {A} (l : list A) :
  ∀ (flags : list bool) i, length flags = length l →
  (length (Np.where_from negb i flags) + length (Mat.select l flags)
   = length l)%nat.
Proof.
  induction l as [|x l IH]; intros [|b flags] i Hlen; try discriminate; [done|].
  injection Hlen as Hlen. specialize (IH flags (S i) Hlen).
  destruct b; simpl; lia.
Qed.

(** X13: the thresholding of [Eigenmomenta.__call__] fails in one case
    only, a relative threshold with no eigenmomenta at all (the maximum of an
    empty array); otherwise it returns the mask [valid] with one flag for
    every row, a row is invalid exactly when its L2 norm is below the
    tolerance, an invalid row comes back as zeros and a valid row unchanged,
    the shape of the array is kept, and [n_zeroed] together with the number
    of rows the mask selects gives the number of rows. *)
Theorem threshold_rows_result (threshold : float) (threshold_is_relative : bool)
    (em : array2) :
  (threshold_is_relative = true ∧ rows em = []
   ∧ ∃ msg, Eigenmomenta.threshold_rows threshold threshold_is_relative em
            = Raise (ValueError msg))
  ∨ ∃ tol r,
      Eigenmomenta.threshold_rows threshold threshold_is_relative em = Ret r
      ∧ (threshold_is_relative = false → tol = threshold)
      ∧ (threshold_is_relative = true →
         ∃ m, Eigenmomenta.amax (Eigenmomenta.norm_l2_along_axis em) = Ret m
              ∧ tol = (threshold * m)%float)
      ∧ ncols (eigenmomenta r) = ncols em
      ∧ length (rows (eigenmomenta r)) = length (rows em)
      ∧ length (valid r) = length (rows em)
      ∧ (n_zeroed r + length (Mat.select (rows em) (valid r))
         = length (rows em))%nat
      ∧ ∀ i row, rows em !! i = Some row →
          let below := (sqrt (Np.sum ((λ x, x * x)%float <$> row)) <? tol)%float in
          valid r !! i = Some (negb below)
          ∧ rows (eigenmomenta r) !! i
            = Some (if below then replicate (length row) 0%float else row).
Proof.
  unfold Eigenmomenta.threshold_rows.
  set (mag := Eigenmomenta.norm_l2_along_axis em).
  assert (Hbody : ∀ tol, ∃ r,
    Ret (EigenmomentaInfo
           (length (Np.where_ negb
              ((λ m, if (m <? tol)%float then false else true) <$> mag)))
           (Array2 (ncols em)
              (fold_left (λ rs i, alter (fmap (λ _, 0%float)) i rs)
                 (Np.where_ negb
                    ((λ m, if (m <? tol)%float then false else true) <$> mag))
                 (rows em)))
           ((λ m, if (m <? tol)%float then false else true) <$> mag))
    = Ret r
    ∧ ncols (eigenmomenta r) = ncols em
    ∧ length (rows (eigenmomenta r)) = length (rows em)
    ∧ length (valid r) = length (rows em)
    ∧ (n_zeroed r + length (Mat.select (rows em) (valid r))
       = length (rows em))%nat
    ∧ ∀ i row, rows em !! i = Some row →
        let below := (sqrt (Np.sum ((λ x, x * x)%float <$> row)) <? tol)%float in
        valid r !! i = Some (negb below)
        ∧ rows (eigenmomenta r) !! i
          = Some (if below then replicate (length row) 0%float else row)).
  { intros tol. eexists. split; [reflexivity|]. simpl.
    set (flags := _ <$> mag).
    assert (Hlen : length flags = length (rows em)).
    { unfold flags, mag, Eigenmomenta.norm_l2_along_axis.
      by rewrite !length_fmap. }
    unfold Np.where_.
    pose proof (zero_rows_from (fmap (λ _, 0%float)) flags (rows em) [] Hlen)
      as Hzero.
    simpl in Hzero. rewrite Hzero.
    split; [done|]. split; [rewrite length_zip_with; lia|].
    split; [done|]. split; [by apply where_from_negb_select|].
    intros i row Hrow.
    assert (Hv : flags !! i
                 = Some (negb (sqrt (Np.sum ((λ x, x * x)%float <$> row))
                               <? tol)%float)).
    { unfold flags, mag, Eigenmomenta.norm_l2_along_axis.
      rewrite !list_lookup_fmap, Hrow. simpl. by case_match. }
    split; [done|].
    rewrite lookup_zip_with, Hrow. simpl. rewrite Hv. simpl.
    destruct (_ <? tol)%float; simpl; [|done].
    by rewrite (const_fmap (λ _ : float, 0%float) _ 0%float). }
  destruct threshold_is_relative.
  - destruct (Eigenmomenta.amax mag) as [m| |] eqn:Hmax.
    + right. destruct (Hbody (threshold * m)%float) as (r & Hr & Hrest).
      exists (threshold * m)%float, r. simpl.
      split; [exact Hr|]. split; [done|]. split; [by eauto|]. exact Hrest.
    + left. split; [done|].
      unfold mag, Eigenmomenta.norm_l2_along_axis in Hmax.
      destruct (rows em) as [|row rest]; [|discriminate Hmax].
      split; [done|]. simpl in Hmax. injection Hmax as <-. simpl. eauto.
    + unfold Eigenmomenta.amax in Hmax. by destruct mag.
  - right. destruct (Hbody threshold) as (r & Hr & Hrest).
    exists threshold, r. simpl.
    split; [exact Hr|]. split; [done|]. split; [done|]. exact Hrest.
Qed.

(** ** [AcousticMassTensor] and [AppliedLoadTensor] *)

Lemma float_sq_opp (f : float) : (- f * - f = f * f)%float.
Proof.
  apply Prim2SF_inj. rewrite !mul_spec, opp_spec.
  by destruct (Prim2SF f) as [[|]|[|]| |[|] m e].
Qed.

(** X14: [AcousticMassTensor.evaluate] depends on the frequency through
    its square only: at [-freq] it returns the same tensor as at [freq], and
    it refuses one exactly when it refuses the other. *)
Theorem evaluate_even (self : AcousticMassTensor.t) (freq : float) :
  (∀ mtx_mass,
     AcousticMassTensor.evaluate self (- freq) = Ret mtx_mass
     ↔ AcousticMassTensor.evaluate self freq = Ret mtx_mass)
  ∧ ((∃ msg, AcousticMassTensor.evaluate self (- freq)
             = Raise (ValueError msg))
     ↔ (∃ msg, AcousticMassTensor.evaluate self freq
               = Raise (ValueError msg))).
Proof.
  assert (H : AcousticMassTensor.evaluate self (- freq)
              = AcousticMassTensor.evaluate self freq).
  { unfold AcousticMassTensor.evaluate, AcousticMassTensor.get_coefs.
    by rewrite float_sq_opp. }
  by rewrite H.
Qed.

Lemma broadcast2_outcome (f : float → float → float) (a b : list float) :
  (∃ c, Builtin.broadcast2 f a b = Ret c)
  ∨ ∃ msg, Builtin.broadcast2 f a b = Raise (ValueError msg).
Proof.
  unfold Builtin.broadcast2.
  destruct (length a =? length b)%nat; [by eauto|].
  destruct a as [|x [|x' a]], b as [|y [|y' b]]; eauto.
Qed.

Lemma entry_sum_outcome self de ir ic :
  (∃ val, AppliedLoadTensor.entry_sum self de ir ic = Ret val)
  ∨ AppliedLoadTensor.entry_sum self de ir ic = Raise IndexError
  ∨ ∃ msg, AppliedLoadTensor.entry_sum self de ir ic = Raise (ValueError msg).
Proof.
  unfold AppliedLoadTensor.entry_sum, AppliedLoadTensor.column.
  destruct (ir <? _)%nat; simpl; [|by right; left].
  destruct (ic <? _)%nat; simpl; [|by right; left].
  match goal with
  | |- context [Builtin.broadcast2 PrimFloat.mul ?a ?b] =>
      destruct (broadcast2_outcome PrimFloat.mul a b) as [[ab ->] | [msg ->]]
  end; simpl; [|right; right; by eauto].
  destruct (broadcast2_outcome PrimFloat.div ab de) as [[q ->] | [msg ->]];
    simpl; [left|right; right]; eauto.
Qed.

Lemma fill_loop_outcome self f2 de :
  ∀ pairs fload,
  (∃ fload', AppliedLoadTensor.fill_loop self f2 de pairs fload = Ret fload')
  ∨ AppliedLoadTensor.fill_loop self f2 de pairs fload = Raise IndexError
  ∨ ∃ msg, AppliedLoadTensor.fill_loop self f2 de pairs fload
           = Raise (ValueError msg).
Proof.
  induction pairs as [|[ir ic] pairs IH]; intros fload; simpl.
  - left. eauto.
  - destruct (entry_sum_outcome self de ir ic) as [[val ->] | [-> | [msg ->]]];
      simpl; [apply IH|by right; left|right; right; by eauto].
Qed.

Lemma entry_sum_returns self de ir ic :
  (ir < ncols (AppliedLoadTensor.ema self))%nat →
  (ic < ncols (AppliedLoadTensor.uema self))%nat →
  length (rows (AppliedLoadTensor.ema self)) = length de →
  length (rows (AppliedLoadTensor.uema self)) = length de →
  ∃ val, AppliedLoadTensor.entry_sum self de ir ic = Ret val.
Proof.
  intros Hir Hic Hema Huema.
  unfold AppliedLoadTensor.entry_sum, AppliedLoadTensor.column.
  apply Nat.ltb_lt in Hir, Hic. rewrite Hir, Hic. simpl.
  unfold Builtin.broadcast2 at 2. unfold Mat.column at 1 2.
  rewrite !length_fmap, Hema, Huema, Nat.eqb_refl. simpl.
  unfold Builtin.broadcast2. unfold Mat.column.
  rewrite length_zip_with, !length_fmap, Hema, Huema, Nat.min_id, Nat.eqb_refl.
  simpl. eauto.
Qed.

Lemma fill_loop_returns self f2 de :
  length (rows (AppliedLoadTensor.ema self)) = length de →
  length (rows (AppliedLoadTensor.uema self)) = length de →
  ∀ pairs fload,
  Forall (λ '(ir, ic), (ir < ncols (AppliedLoadTensor.ema self))%nat
                       ∧ (ic < ncols (AppliedLoadTensor.uema self))%nat)
         pairs →
  ∃ fload', AppliedLoadTensor.fill_loop self f2 de pairs fload = Ret fload'.
Proof.
  intros Hema Huema.
  induction pairs as [|[ir ic] pairs IH]; intros fload Hpairs; simpl.
  - eauto.
  - apply Forall_cons in Hpairs as [[Hir Hic] Hpairs].
    destruct (entry_sum_returns self de ir ic Hir Hic Hema Huema) as [val ->].
    simpl. by apply IH.
Qed.

(** X15: [AppliedLoadTensor.evaluate] never returns a tensor.  When a
    difference [freq² - eig] is not finite it raises the resonance
    [ValueError]; and on consistent data (all differences finite, as many
    rows in both eigenmomenta as eigenvalues, at least as many columns in
    the second as in the first) the loops run through and the call ends in
    the [TypeError] of [nm.eye((n_c, n_c))]. *)
Theorem applied_load_evaluate_never_returns (pow2 : float → float)
    (self : AppliedLoadTensor.t) (freq : float) :
  let de := (λ e, pow2 freq - e)%float <$> AppliedLoadTensor.eigs self in
  (∀ mtx_load, AppliedLoadTensor.evaluate pow2 self freq ≠ Ret mtx_load)
  ∧ (Np.all_finite de = false →
     ∃ msg, AppliedLoadTensor.evaluate pow2 self freq
            = Raise (ValueError msg))
  ∧ (Np.all_finite de = true →
     (ncols (AppliedLoadTensor.ema self)
      ≤ ncols (AppliedLoadTensor.uema self))%nat →
     length (rows (AppliedLoadTensor.ema self))
     = length (AppliedLoadTensor.eigs self) →
     length (rows (AppliedLoadTensor.uema self))
     = length (AppliedLoadTensor.eigs self) →
     AppliedLoadTensor.evaluate pow2 self freq = Raise TypeError).
Proof.
  intros de. unfold AppliedLoadTensor.evaluate. fold de.
  destruct (Np.all_finite de) eqn:Hfin; simpl.
  - split; [|split; [done|]].
    + intros mtx_load.
      match goal with
      | |- context [AppliedLoadTensor.fill_loop ?s ?f ?d ?p ?l] =>
          destruct (fill_loop_outcome s f d p l)
            as [[fload' ->] | [-> | [msg ->]]]
      end; done.
    + intros _ Hcols Hema Huema.
      match goal with
      | |- context [AppliedLoadTensor.fill_loop ?s ?f ?d ?p ?l] =>
          destruct (fill_loop_returns s f d) with (pairs := p) (fload := l)
            as [fload' ->]
      end; try done.
      * unfold de. by rewrite length_fmap.
      * unfold de. by rewrite length_fmap.
      * apply Forall_forall. intros [ir ic] Hin.
        apply list_elem_of_bind in Hin as (ir' & Hin & Hir).
        apply list_elem_of_bind in Hin as (ic' & Hin & Hic).
        apply list_elem_of_singleton in Hin as [= -> ->].
        apply elem_of_seq in Hir, Hic. lia.
  - split; [done|]. split; [by eauto|done].
Qed.

Lemma applied_load_evaluate_never_returns_witness :
  AppliedLoadTensor.evaluate (λ x, x * x)%float
    (AppliedLoadTensor.Make [1%float] (Array2 1 [[1%float]])
       (Array2 1 [[1%float]]) (DvInfo 1 1 ∅ ∅)) 2
  = Raise TypeError.
Proof.
  apply (applied_load_evaluate_never_returns (λ x, x * x)%float
           (AppliedLoadTensor.Make [1%float] (Array2 1 [[1%float]])
              (Array2 1 [[1%float]]) (DvInfo 1 1 ∅ ∅)) 2);
    [reflexivity|simpl; lia|reflexivity|reflexivity].
Defined.

(** ** [DensityVolumeInfo] *)

Lemma accumulate_maps vf materials :
  ∀ regions a t vs ds a' t' vs' ds',
  DensityVolumeInfo.accumulate vf materials regions (a, t, vs, ds)
  = Ret (a', t', vs', ds') →
  NoDup regions.*1 →
  ∀ region_name,
  (∀ mat_name item_name,
     (region_name, (mat_name, item_name)) ∈ regions →
     ∃ vol density,
       vf !! ("volume_" +:+ region_name) = Some vol
       ∧ DensityVolumeInfo.density_of materials mat_name item_name
         = Ret density
       ∧ vs' !! region_name = Some vol
       ∧ ds' !! region_name = Some density)
  ∧ (region_name ∉ regions.*1 →
     vs' !! region_name = vs !! region_name
     ∧ ds' !! region_name = ds !! region_name).
Proof.
  induction regions as [|[rn [mn it]] regions IH];
    intros a t vs ds a' t' vs' ds' H Hnodup region_name; simpl in H.
  - injection H as <- <- <- <-. split; [|done].
    intros mat_name item_name Hin. by apply elem_of_nil in Hin.
  - destruct (vf !! ("volume_" +:+ rn)) as [vol|] eqn:Hvol; [|discriminate].
    apply bind_Ret in H as (density & Hdensity & H).
    rewrite fmap_cons in Hnodup. apply NoDup_cons in Hnodup as [Hrn Hnodup].
    specialize (IH _ _ _ _ _ _ _ _ H Hnodup).
    split.
    + intros mat_name item_name Hin.
      apply elem_of_cons in Hin as [[= -> -> ->] | Hin].
      * destruct (IH rn) as [_ Hout]. destruct (Hout Hrn) as [-> ->].
        exists vol, density. by rewrite !lookup_insert_eq.
      * destruct (IH region_name) as [Hin' _]. by eapply Hin'.
    + intros Hout. rewrite fmap_cons in Hout.
      apply not_elem_of_cons in Hout as [Hne Hout].
      destruct (IH region_name) as [_ Hrest].
      destruct (Hrest Hout) as [-> ->].
      by rewrite !lookup_insert_ne.
Qed.

(** X16: when [DensityVolumeInfo.__call__] returns, its two dictionaries
    have exactly the region names of [region_to_material] as keys (which,
    being the keys of a dictionary, are distinct): [volumes] holds for each
    region the entry ['volume_' + region_name] of the volume data, and
    [densities] the value of the region's material property. *)
Theorem density_volume_info_maps
    (region_to_material : list (string * (string * string)))
    (vf : gmap string float) (materials : gmap string (gmap string float))
    (true_volume : float) (info : dv_info) :
  NoDup region_to_material.*1 →
  DensityVolumeInfo.call region_to_material vf materials true_volume
  = Ret info →
  (∀ region_name mat_name item_name,
     (region_name, (mat_name, item_name)) ∈ region_to_material →
     ∃ vol density,
       vf !! ("volume_" +:+ region_name) = Some vol
       ∧ DensityVolumeInfo.density_of materials mat_name item_name
         = Ret density
       ∧ volumes info !! region_name = Some vol
       ∧ densities info !! region_name = Some density)
  ∧ (∀ region_name, region_name ∉ region_to_material.*1 →
       volumes info !! region_name = None
       ∧ densities info !! region_name = None).
Proof.
  intros Hnodup H. unfold DensityVolumeInfo.call in H.
  apply bind_Ret in H as ([[[a t] vs] ds] & Hacc & H).
  apply bind_Ret in H as (? & _ & H). injection H as <-. simpl.
  pose proof (accumulate_maps _ _ _ _ _ _ _ _ _ _ _ Hacc Hnodup) as Hmaps.
  split.
  - intros region_name. apply (Hmaps region_name).
  - intros region_name Hout.
    destruct (Hmaps region_name) as [_ Hrest].
    destruct (Hrest Hout) as [-> ->]. by rewrite !lookup_empty.
Qed.

Lemma density_volume_info_maps_witness :
  let info :=
    DvInfo 16 5 (<["A"%string := 2%float]> (<["B"%string := 3%float]> ∅))
      (<["A"%string := 10%float]> (<["B"%string := 20%float]> ∅)) in
  (∀ region_name mat_name item_name,
     (region_name, (mat_name, item_name)) ∈ example_regions →
     ∃ vol density,
       example_vf !! ("volume_" +:+ region_name) = Some vol
       ∧ DensityVolumeInfo.density_of example_materials mat_name item_name
         = Ret density
       ∧ volumes info !! region_name = Some vol
       ∧ densities info !! region_name = Some density)
  ∧ (∀ region_name, region_name ∉ example_regions.*1 →
       volumes info !! region_name = None
       ∧ densities info !! region_name = None).
Proof.
  intros info.
  apply (density_volume_info_maps example_regions example_vf
           example_materials 5 info).
  - apply (bool_decide_unpack (NoDup example_regions.*1)). vm_compute.
    exact I.
  - vm_compute. reflexivity.
Defined.

(** ** [plot_gap] and [plot_gaps] *)

Lemma kind_table_drawable (a b : Z) (kd : kind) :
  kind_table a b = Some kd → drawable kd.1 = true.
Proof.
  unfold kind_table. intros H.
  repeat case_match; try discriminate; by injection H as <-.
Qed.

Lemma subkind_table_drawable (a b : Z) (kd : kind) :
  subkind_table a b = Some kd → drawable kd.1 = true.
Proof.
  unfold subkind_table. intros H.
  repeat case_match; try discriminate; by injection H as <-.
Qed.

Lemma colors_Ret {rsc : Type} (plot_rsc : gmap string rsc) :
  is_Some (plot_rsc !! "strong_gap"%string) →
  is_Some (plot_rsc !! "weak_gap"%string) →
  is_Some (plot_rsc !! "propagation"%string) →
  ∃ c, colors rsc plot_rsc = Ret c.
Proof.
  intros [s Hs] [w Hw] [p Hp]. unfold colors, resource.
  rewrite Hs, Hw, Hp. simpl. eauto.
Qed.

(** X17: with the three resources of the gaps present, [plot_gap] draws
    every kind that [describe_gaps] assigns by its tables.  For a plain pair
    it draws one to three rectangles that lie side by side from [f0] to
    [f1]; for a sub-gap pair it draws one rectangle.  The [ValueError] of
    its last branch is not reached. *)
Theorem plot_gap_draws_described_kinds {rsc : Type}
    (plot_rsc : gmap string rsc) (f0 f1 : float) (gmin gmax : boundary) :
  is_Some (plot_rsc !! "strong_gap"%string) →
  is_Some (plot_rsc !! "weak_gap"%string) →
  is_Some (plot_rsc !! "propagation"%string) →
  (∀ kd, kind_table (flag gmin) (flag gmax) = Some kd →
     ∃ rects,
       plot_gap rsc plot_rsc f0 f1 kd.1 gmin gmax = Ret rects
       ∧ (1 ≤ length rects ≤ 3)%nat ∧ chained f0 rects f1)
  ∧ (∀ kd, subkind_table (flag gmin) (flag gmax) = Some kd →
       ∃ r, plot_gap rsc plot_rsc f0 f1 kd.1 gmin gmax = Ret [r]).
Proof.
  intros Hs Hw Hp.
  destruct (colors_Ret plot_rsc Hs Hw Hp) as [[[strong weak] propagation] Hc].
  split; intros kd Hkd.
  - unfold kind_table in Hkd.
    repeat case_match; try discriminate; injection Hkd as <-;
      unfold plot_gap; rewrite Hc; simpl;
      eexists; (split; [reflexivity|]); simpl; (split; [lia|done]).
  - unfold subkind_table in Hkd.
    repeat case_match; try discriminate; injection Hkd as <-;
      unfold plot_gap; rewrite Hc; simpl; eauto.
Qed.

Lemma plot_gap_draws_described_kinds_witness :
  (∀ kd, kind_table (flag (Boundary 0 3 0)) (flag (Boundary 0 2 0)) = Some kd →
     ∃ rects,
       plot_gap string
         (<["strong_gap"%string := "r"%string]>
            (<["weak_gap"%string := "g"%string]>
               (<["propagation"%string := "b"%string]> ∅)))
         1 4 kd.1 (Boundary 0 3 0) (Boundary 0 2 0) = Ret rects
       ∧ (1 ≤ length rects ≤ 3)%nat ∧ chained 1 rects 4)
  ∧ (∀ kd, subkind_table (flag (Boundary 0 3 0)) (flag (Boundary 0 2 0))
           = Some kd →
       ∃ r, plot_gap string
              (<["strong_gap"%string := "r"%string]>
                 (<["weak_gap"%string := "g"%string]>
                    (<["propagation"%string := "b"%string]> ∅)))
              1 4 kd.1 (Boundary 0 3 0) (Boundary 0 2 0) = Ret [r]).
Proof.
  apply (plot_gap_draws_described_kinds
           (<["strong_gap"%string := "r"%string]>
              (<["weak_gap"%string := "g"%string]>
                 (<["propagation"%string := "b"%string]> ∅)))
           1 4 (Boundary 0 3 0) (Boundary 0 2 0));
    vm_compute; eauto.
Defined.

Lemma pair_kind_drawable (gmin gmax : boundary) (k : kind) :
  pair_kind gmin gmax = Ret k → drawable k.1 = true.
Proof.
  rewrite pair_kind_kind_table.
  destruct (kind_table _ _) as [kd|] eqn:Hkd; [|discriminate].
  intros [= <-]. by eapply kind_table_drawable.
Qed.

Lemma describe_subgaps_drawable :
  ∀ subgaps kind_var subkinds kind_var' result,
  describe_subgaps kind_var subkinds subgaps = Ret (kind_var', result) →
  (∀ k, kind_var = Some k → drawable k.1 = true) →
  Forall (λ kd : kind, drawable kd.1 = true) subkinds →
  (∀ k, kind_var' = Some k → drawable k.1 = true)
  ∧ Forall (λ kd : kind, drawable kd.1 = true) result.
Proof.
  induction subgaps as [|[gmin gmax] subgaps IH];
    intros kind_var subkinds kind_var' result H Hvar Hsub; simpl in H.
  - by injection H as <- <-.
  - destruct (subgap_kind kind_var gmin gmax) as [k|] eqn:Hk; [|discriminate].
    assert (Hdraw : drawable k.1 = true).
    { rewrite subgap_kind_subkind_table in Hk.
      destruct (subkind_table _ _) as [kd|] eqn:Hkd.
      - injection Hk as <-. by eapply subkind_table_drawable.
      - by apply Hvar. }
    apply IH in H; [done|by intros ? [= <-]|].
    apply Forall_app. split; [done|]. by constructor.
Qed.

Lemma describe_gaps_loop_plottable :
  ∀ gaps kind_var kinds result,
  describe_gaps_loop kind_var kinds gaps = Ret result →
  (∀ k, kind_var = Some k → drawable k.1 = true) →
  ∃ ks, result = kinds ++ ks ∧ Forall2 plottable gaps ks.
Proof.
  induction gaps as [|g gaps IH]; intros kind_var kinds result H Hvar;
    simpl in H.
  - injection H as <-. exists []. rewrite app_nil_r. split; [done|constructor].
  - destruct g as [gmin gmax|subgaps].
    + apply bind_Ret in H as (kd & Hkd & H).
      apply pair_kind_drawable in Hkd.
      apply IH in H as (ks & -> & Hall); [|by intros ? [= <-]].
      exists (Kind kd :: ks). rewrite <- app_assoc. split; [done|].
      by constructor.
    + apply bind_Ret in H as ([kind_var' subkinds] & Hsub & H).
      pose proof (describe_subgaps_length _ _ _ _ _ Hsub) as Hlen.
      apply describe_subgaps_drawable in Hsub as [Hvar' Hdraw];
        [|done|constructor].
      apply IH in H as (ks & -> & Hall); [|done].
      exists (SubKinds subkinds :: ks). rewrite <- app_assoc. split; [done|].
      constructor; [|done]. simpl. simpl in Hlen. by split.
Qed.

Lemma plot_gap_drawable_length {rsc : Type} (plot_rsc : gmap string rsc) c
    (f0 f1 : float) (kind : string) (gmin gmax : boundary) :
  colors rsc plot_rsc = Ret c →
  drawable kind = true →
  ∃ rects, plot_gap rsc plot_rsc f0 f1 kind gmin gmax = Ret rects
           ∧ (1 ≤ length rects ≤ 3)%nat.
Proof.
  intros Hc Hk. unfold plot_gap. rewrite Hc. simpl.
  destruct c as [[strong weak] propagation].
  unfold drawable in Hk. simpl in Hk.
  repeat (match goal with
          | |- context [if String.eqb kind ?s then _ else _] =>
              destruct (String.eqb kind s);
              [eexists; split; [reflexivity|simpl; lia]|]
          end).
  discriminate Hk.
Qed.

Lemma plot_gap_table_kind {rsc : Type} (plot_rsc : gmap string rsc) c
    (f0 f1 : float) (gmin gmax : boundary) (kd : kind) :
  colors rsc plot_rsc = Ret c →
  kind_table (flag gmin) (flag gmax) = Some kd →
  ∃ rects, plot_gap rsc plot_rsc f0 f1 kd.1 gmin gmax = Ret rects
           ∧ (1 ≤ length rects ≤ 3)%nat ∧ chained f0 rects f1.
Proof.
  intros Hc Hkd. destruct c as [[strong weak] propagation].
  unfold kind_table in Hkd.
  repeat case_match; try discriminate; injection Hkd as <-;
    unfold plot_gap; rewrite Hc; simpl;
    eexists; (split; [reflexivity|]); simpl; (split; [lia|done]).
Qed.

Lemma plot_gap_in_Ret {rsc : Type} (plot_rsc : gmap string rsc)
    (plot_range : list float) (f0 f1 : float) (kind : string)
    (gmin gmax : boundary) (drawn : list (rect rsc)) :
  plot_gap rsc plot_rsc f0 f1 kind gmin gmax = Ret drawn →
  (2 ≤ length plot_range)%nat →
  plot_gap_in rsc plot_rsc plot_range f0 f1 kind gmin gmax = Ret drawn.
Proof.
  intros Hdrawn Hrange. unfold plot_gap_in. rewrite Hdrawn.
  apply Nat.leb_le in Hrange.
  change (Ret drawn ≫= λ drawn0 : list (rect rsc),
            if (2 <=? length plot_range)%nat
            then Ret drawn0 else Raise IndexError)
    with (if (2 <=? length plot_range)%nat
          then Ret drawn else @Raise (list (rect rsc)) IndexError).
  by rewrite Hrange.
Qed.

Lemma plot_subgaps_draws {rsc : Type} (plot_rsc : gmap string rsc) c
    (plot_range : list float) (f0 f1 : float) (kinds : list kinds_item)
    (ii : nat) (kds : list kind) :
  colors rsc plot_rsc = Ret c →
  (2 ≤ length plot_range)%nat →
  kinds !! ii = Some (SubKinds kds) →
  Forall (λ kd : kind, drawable kd.1 = true) kds →
  ∀ subgaps ig, (ig + length subgaps ≤ length kds)%nat →
  ∃ rects,
    plot_subgaps rsc plot_rsc plot_range f0 f1 kinds ii ig subgaps = Ret rects
    ∧ (length subgaps ≤ length rects ≤ 3 * length subgaps)%nat.
Proof.
  intros Hc Hrange Hii Hdraw.
  induction subgaps as [|[gmin gmax] subgaps IH]; intros ig Hlen; simpl.
  - exists []. split; [reflexivity|simpl; lia].
  - simpl in Hlen. unfold plot_subgap.
    rewrite (getitem_nat _ _ _ Hii). simpl.
    destruct (lookup_lt_is_Some_2 kds ig) as [[k d] Hkd]; [lia|].
    rewrite (getitem_nat _ _ _ Hkd). simpl.
    assert (Hk : drawable k = true).
    { rewrite Forall_forall in Hdraw.
      apply (Hdraw (k, d)). by eapply list_elem_of_lookup_2. }
    destruct (plot_gap_drawable_length plot_rsc c f0 f1 k gmin gmax Hc Hk)
      as (drawn & Hdrawn & Hn).
    rewrite (plot_gap_in_Ret _ _ _ _ _ _ _ _ Hdrawn Hrange).
    simpl. destruct (IH (S ig)) as (more & -> & Hmore); [lia|]. simpl.
    eexists. split; [reflexivity|]. rewrite length_app. lia.
Qed.

Lemma plot_interval_draws {rsc : Type} (plot_rsc : gmap string rsc) c
    (plot_range : list float) (gaps : list gap) (kinds : list kinds_item)
    (freq_range : list float) (ii : nat) (g : gap) (k : kinds_item) :
  colors rsc plot_rsc = Ret c →
  (2 ≤ length plot_range)%nat →
  gaps !! ii = Some g →
  kinds !! ii = Some k →
  shaped g k → plottable g k →
  (S ii < length freq_range)%nat →
  ∃ rects,
    plot_interval rsc plot_rsc plot_range gaps kinds freq_range ii = Ret rects
    ∧ drawn_for freq_range ii g rects.
Proof.
  intros Hc Hrange Hg Hk Hshaped Hplot Hfreq. unfold plot_interval, drawn_for.
  destruct (lookup_lt_is_Some_2 freq_range ii) as [f0 Hf0]; [lia|].
  destruct (lookup_lt_is_Some_2 freq_range (S ii)) as [f1 Hf1]; [lia|].
  rewrite (getitem_nat _ _ _ Hf0). simpl.
  replace (Z.of_nat ii + 1) with (Z.of_nat (S ii)) by lia.
  rewrite (getitem_nat _ _ _ Hf1). simpl.
  rewrite (getitem_nat _ _ _ Hg). simpl.
  destruct g as [gmin gmax|subgaps], k as [[kind desc]|kds]; try done.
  - rewrite (getitem_nat _ _ _ Hk). simpl. simpl in Hshaped.
    destruct (plot_gap_table_kind plot_rsc c f0 f1 gmin gmax (kind, desc)
                Hc Hshaped) as (rects & Hrects & Hn & Hchain).
    simpl in Hrects.
    rewrite (plot_gap_in_Ret _ _ _ _ _ _ _ _ Hrects Hrange).
    exists rects. split; [reflexivity|]. by exists f0, f1.
  - destruct Hplot as [Hlen Hdraw].
    destruct (plot_subgaps_draws plot_rsc c plot_range f0 f1 kinds ii kds
                Hc Hrange Hk Hdraw subgaps 0) as (rects & Hrects & Hn);
      [simpl; lia|].
    exists rects. split; [exact Hrects|]. by exists f0, f1.
Qed.

Lemma plot_intervals_draws {rsc : Type} (plot_rsc : gmap string rsc) c
    (plot_range : list float) (gaps : list gap) (kinds : list kinds_item)
    (freq_range : list float) :
  colors rsc plot_rsc = Ret c →
  (2 ≤ length plot_range)%nat →
  Forall2 shaped gaps kinds →
  Forall2 plottable gaps kinds →
  ∀ iis,
  Forall (λ ii, ii < length gaps ∧ S ii < length freq_range)%nat iis →
  ∃ per_interval,
    plot_intervals rsc plot_rsc plot_range gaps kinds freq_range iis
    = Ret (concat per_interval)
    ∧ Forall2 (λ ii rects, ∀ g, gaps !! ii = Some g →
                 drawn_for freq_range ii g rects) iis per_interval.
Proof.
  intros Hc Hrange Hshaped Hplot.
  induction iis as [|ii iis IH]; intros Hiis; simpl.
  - exists []. split; [reflexivity|constructor].
  - apply Forall_cons in Hiis as [[Hii Hfreq] Hiis].
    destruct (lookup_lt_is_Some_2 gaps ii) as [g Hg]; [lia|].
    destruct (Forall2_lookup_l _ _ _ _ _ Hshaped Hg) as (k & Hk & Hs).
    destruct (Forall2_lookup_l _ _ _ _ _ Hplot Hg) as (k' & Hk' & Hp).
    rewrite Hk in Hk'. injection Hk' as <-.
    destruct (plot_interval_draws plot_rsc c plot_range gaps kinds freq_range
                ii g k Hc Hrange Hg Hk Hs Hp Hfreq) as (drawn & -> & Hdrawn).
    simpl. destruct (IH Hiis) as (per & -> & Hper). simpl.
    exists (drawn :: per). split; [reflexivity|].
    constructor; [|done]. intros g' Hg'. rewrite Hg in Hg'.
    by injection Hg' as <-.
Qed.

(** X18: [plot_gaps] draws every interval of what [describe_gaps]
    returns.  With the three resources of the gaps present, a vertical
    extent [plot_range] of two entries and a frequency range that has one
    entry more than there are gaps (the range with its two margins), none
    of the errors of [plot_gaps] and [plot_gap] is reached, and the
    rectangles handed to matplotlib are, interval by interval: for a plain
    pair one to three rectangles lying side by side from [freq_range[ii]]
    to [freq_range[ii+1]], and for a list of sub-gaps of the liquid mode
    one to three rectangles for each sub-gap. *)
Theorem plot_gaps_draws_described_gaps {rsc : Type}
    (plot_rsc : gmap string rsc) (plot_range : list float)
    (gaps : list gap) (kinds : list kinds_item)
    (freq_range : list float) (new_axes : bool) :
  describe_gaps gaps = Ret kinds →
  is_Some (plot_rsc !! "strong_gap"%string) →
  is_Some (plot_rsc !! "weak_gap"%string) →
  is_Some (plot_rsc !! "propagation"%string) →
  (2 ≤ length plot_range)%nat →
  length freq_range = S (length gaps) →
  ∃ per_interval,
    plot_gaps rsc true plot_rsc plot_range gaps kinds freq_range new_axes
    = Ret (Some (concat per_interval))
    ∧ length per_interval = length gaps
    ∧ ∀ ii g rects,
        gaps !! ii = Some g → per_interval !! ii = Some rects →
        drawn_for freq_range ii g rects.
Proof.
  intros Hkinds Hs Hw Hp Hrange Hlen.
  destruct (colors_Ret plot_rsc Hs Hw Hp) as [c Hc].
  unfold describe_gaps in Hkinds.
  pose proof Hkinds as Hkinds'.
  apply describe_gaps_loop_plottable in Hkinds as (ks & -> & Hplot); [|done].
  apply describe_gaps_loop_shaped in Hkinds' as (ks' & Heq & Hshaped).
  simpl in Heq. subst ks'. simpl in Hplot.
  unfold plot_gaps. simpl negb. cbv iota.
  destruct (plot_intervals_draws plot_rsc c plot_range gaps ks freq_range
              Hc Hrange Hshaped Hplot (seq 0 (length freq_range - 1)))
    as (per & Hper & Hall).
  { apply Forall_forall. intros ii Hii. apply elem_of_seq in Hii. lia. }
  exists per. simpl app. rewrite Hper. simpl.
  assert (Haxes : ∃ x,
            (if new_axes
             then Py.getitem freq_range 0 ≫= λ _, Py.getitem freq_range (-1)
             else Ret 0%float) = Ret x).
  { destruct new_axes; [|by eauto].
    destruct freq_range as [|f0 rest]; [discriminate|].
    destruct (last (f0 :: rest)) as [f1|] eqn:Hlast.
    - pose proof (getitem_nat (f0 :: rest) 0 f0 eq_refl) as Hfirst.
      change (Z.of_nat 0) with 0 in Hfirst. rewrite Hfirst. simpl.
      rewrite (getitem_last _ _ Hlast). eauto.
    - by apply last_None in Hlast. }
  destruct Haxes as [x ->]. simpl.
  split; [reflexivity|].
  pose proof (Forall2_length _ _ _ Hall) as Hn. rewrite length_seq in Hn.
  unfold rect in *.
  split; [lia|].
  intros ii g rects Hg Hrects.
  assert (Hii : seq 0 (length freq_range - 1) !! ii = Some ii).
  { apply lookup_seq. apply lookup_lt_Some in Hg. lia. }
  destruct (Forall2_lookup_l _ _ _ _ _ Hall Hii) as (rects' & Hrects' & Hd).
  rewrite Hrects in Hrects'. injection Hrects' as <-. by apply Hd.
Qed.

Lemma plot_gaps_draws_described_gaps_witness :
  let plot_rsc : gmap string string :=
    <["strong_gap"%string := "r"%string]>
      (<["weak_gap"%string := "g"%string]>
         (<["propagation"%string := "b"%string]> ∅)) in
  let gaps :=
    [GapPair (Boundary 0 3 0) (Boundary 0 2 0);
     GapList [(Boundary 1 5 0, Boundary 1 6 0)]] in
  let kinds :=
    [Kind ("swp",
           "strong band gap + weak band gap + propagation zone")%string;
     SubKinds [("is", "inner strong band gap")%string]] in
  let freq_range := [1; 4; 7]%float in
  ∃ per_interval,
    plot_gaps string true plot_rsc [0; 1]%float gaps kinds freq_range true
    = Ret (Some (concat per_interval))
    ∧ length per_interval = length gaps
    ∧ ∀ ii g rects,
        gaps !! ii = Some g → per_interval !! ii = Some rects →
        drawn_for freq_range ii g rects.
Proof.
  intros plot_rsc gaps kinds freq_range.
  apply (plot_gaps_draws_described_gaps plot_rsc [0; 1]%float gaps kinds
           freq_range true).
  - vm_compute. reflexivity.
  - vm_compute. eauto.
  - vm_compute. eauto.
  - vm_compute. eauto.
  - simpl. lia.
  - reflexivity.
Defined.

(** ** From [Eigenmomenta] to [AcousticMassTensor] *)

Lemma select_zeroed_rows (f : list float → list float) :
  ∀ (rs : list (list float)) (flags : list bool),
  Mat.select (zip_with (λ row (b : bool), if b then row else f row) rs flags)
             flags
  = Mat.select rs flags.
Proof.
  induction rs as [|r rs IH]; intros [|b flags]; simpl; try done.
  destruct b; by rewrite IH.
Qed.

Lemma length_select_same {A B} (l : list A) (k : list B) :
  length l = length k →
  ∀ flags : list bool, length (Mat.select l flags) = length (Mat.select k flags).
Proof.
  revert k. induction l as [|x l IH]; intros [|y k] Hlen flags;
    try discriminate; [done|].
  injection Hlen as Hlen. destruct flags as [|[|] flags]; simpl; auto.
Qed.

(** X19: the result of [Eigenmomenta.__call__] (run with its progress
    bar, for a variable with at least one component) fits what
    [AcousticMassTensor.__call__] expects.  With as many eigenvalues as
    eigenvectors, the mask has one flag for every eigenvalue; the tensor
    keeps as many eigenvalues as rows of eigenmomenta, [n_zeroed] fewer than
    there are eigenvalues; and the rows it keeps are the eigenmomenta as
    they were computed, untouched by the zeroing. *)
Theorem eigenmomenta_feed_mass_tensor (n_c : nat)
    (eval_em : list float → outcome (list float))
    (transform : option (list float → nat * nat → list float * bool))
    (threshold : float) (threshold_is_relative : bool)
    (eig_vectors : list (list float)) (evp_eigs : list float) (dv : dv_info)
    (em : eigenmomenta_info) :
  (0 < n_c)%nat →
  length evp_eigs = length eig_vectors →
  Eigenmomenta.call n_c eval_em transform threshold threshold_is_relative
    eig_vectors = Ret em →
  let self := AcousticMassTensor.call evp_eigs dv em in
  length (valid em) = length evp_eigs
  ∧ length (rows (eigenmomenta em)) = length evp_eigs
  ∧ ncols (AcousticMassTensor.ema self) = n_c
  ∧ length (AcousticMassTensor.eigs self)
    = length (rows (AcousticMassTensor.ema self))
  ∧ (length (AcousticMassTensor.eigs self) + n_zeroed em
     = length evp_eigs)%nat
  ∧ ∃ computed,
      Eigenmomenta.compute_eigenmomenta n_c eval_em transform eig_vectors
      = Ret computed
      ∧ rows (AcousticMassTensor.ema self)
        = Mat.select (rows computed) (valid em).
Proof.
  intros _ Hlen H self. unfold Eigenmomenta.call in H.
  apply bind_Ret in H as (computed & Hcomputed & H).
  assert (Hrows : length (rows computed) = length evp_eigs).
  { unfold Eigenmomenta.compute_eigenmomenta in Hcomputed.
    apply bind_Ret in Hcomputed as (rs & Hrs & Hcomputed).
    injection Hcomputed as <-. simpl.
    apply mapM_Ret_length in Hrs. lia. }
  assert (Hcols : ncols computed = n_c).
  { unfold Eigenmomenta.compute_eigenmomenta in Hcomputed.
    apply bind_Ret in Hcomputed as (rs & _ & Hcomputed).
    by injection Hcomputed as <-. }
  unfold Eigenmomenta.threshold_rows in H.
  apply bind_Ret in H as (tol & _ & H).
  set (flags := _ <$> Eigenmomenta.norm_l2_along_axis computed) in H.
  assert (Hflags : length flags = length (rows computed)).
  { unfold flags, Eigenmomenta.norm_l2_along_axis. by rewrite !length_fmap. }
  unfold Np.where_ in H.
  pose proof (zero_rows_from (fmap (λ _, 0%float)) flags (rows computed) []
                Hflags) as Hzero.
  simpl in Hzero. rewrite Hzero in H.
  pose proof (where_from_negb_select (rows computed) flags 0 Hflags) as Hcount.
  subst self. injection H as <-. simpl.
  rewrite select_zeroed_rows.
  rewrite (length_select_same evp_eigs (rows computed)) by lia.
  rewrite length_zip_with.
  repeat split; try lia; try done.
  by exists computed.
Qed.

Lemma eigenmomenta_feed_mass_tensor_witness :
  let em :=
    EigenmomentaInfo 1 (Array2 1 [[0]; [2]]%float) [false; true] in
  let self := AcousticMassTensor.call [4; 9]%float (DvInfo 1 1 ∅ ∅) em in
  length (valid em) = length [4; 9]%float
  ∧ length (rows (eigenmomenta em)) = length [4; 9]%float
  ∧ ncols (AcousticMassTensor.ema self) = 1%nat
  ∧ length (AcousticMassTensor.eigs self)
    = length (rows (AcousticMassTensor.ema self))
  ∧ (length (AcousticMassTensor.eigs self) + n_zeroed em
     = length [4; 9]%float)%nat
  ∧ ∃ computed,
      Eigenmomenta.compute_eigenmomenta 1 (λ v, Ret v) None
        [[0.1]; [2]]%float
      = Ret computed
      ∧ rows (AcousticMassTensor.ema self)
        = Mat.select (rows computed) (valid em).
Proof.
  intros em.
  apply (eigenmomenta_feed_mass_tensor 1 (λ v, Ret v) None 0.1 true
           [[0.1]; [2]]%float [4; 9]%float (DvInfo 1 1 ∅ ∅) em).
  - lia.
  - reflexivity.
  - vm_compute. reflexivity.
Defined.
